(** * proxylab: the caching HTTP proxy of [proxy.c]

    A shallow embedding of [proxylab-handout/proxy.c] and the proofs of
    the properties its specification states.

    - Part I embeds the object cache at the level of its pointers: the
      [cache_entry_t] nodes live in a heap of nodes, the payload buffers in a
      heap of byte buffers, and [cache_head], [cache_tail] and [cache_bytes]
      are the three globals of the C file.  Every function is a state
      transformer that fails ([None]) when the C code would dereference or
      free something that is not allocated.
    - Part II embeds the string functions ([parse_uri],
      [normalize_host_from_header], [read_request_headers]).
    - Part III embeds the request handler [forward_request] over a trace of
      the I/O it performs.

    The modules [CacheExtra], [HttpExtra] and [ProxyExtra] at the end prove
    further properties of the same functions: the shape of the list and of
    the heap, the bounds of the string buffers, and the traces of the
    handler on a hit, a miss and a failed connection. *)

From Stdlib Require Import ZArith Lia List.
From Stdlib.Strings Require Import String Ascii Byte.
From stdpp Require Import base option list gmap strings.

Local Open Scope Z_scope.

(** ** Constants of [proxy.c] *)

Definition MAX_CACHE_SIZE : Z := 1049000.
Definition MAX_OBJECT_SIZE : Z := 102400.

(** The size of a payload, as the [int] the handler passes to the cache. *)
Definition len (p : list byte) : Z := Z.of_nat (length p).

(** ** The C type [int]

    [size] and [cache_bytes] are [int]s.  Their arithmetic is written with the
    wrap-around of a 32-bit two's complement machine; the invariant of the
    cache shows that no operation of the cache ever wraps. *)

Definition wrap_int (z : Z) : Z := (z + 2 ^ 31) mod 2 ^ 32 - 2 ^ 31.
Definition int_add (a b : Z) : Z := wrap_int (a + b).
Definition int_sub (a b : Z) : Z := wrap_int (a - b).
Definition in_int (z : Z) : Prop := - 2 ^ 31 <= z < 2 ^ 31.

(** ** Part I: the object cache

    [cache_get_copy] and [cache_insert] run between [pthread_mutex_lock] and
    [pthread_mutex_unlock] on [cache_mutex]: each is one step on the shared
    state, and a run of the program is a sequence of such steps. *)

Module Cache.

(** Addresses.  A pointer is [option loc]; [None] is [NULL]. *)
Definition loc := positive.

(** [struct cache_entry].  [key] is kept by value (the C code owns a private
    [strcpy] of it that nothing else can reach); [data] is the address of the
    payload buffer. *)
Record cache_entry_t := mk_entry {
  key : string;
  data : loc;
  size : Z;
  prev : option loc;
  next : option loc
}.

Definition set_prev (v : option loc) (n : cache_entry_t) : cache_entry_t :=
  mk_entry (key n) (data n) (size n) v (next n).
Definition set_next (v : option loc) (n : cache_entry_t) : cache_entry_t :=
  mk_entry (key n) (data n) (size n) (prev n) v.

(** The memory the cache works on: the allocated nodes, the allocated byte
    buffers, and the globals [cache_head], [cache_tail], [cache_bytes]. *)
Record state := mk_state {
  nodes : gmap loc cache_entry_t;
  bufs : gmap loc (list byte);
  cache_head : option loc;
  cache_tail : option loc;
  cache_bytes : Z
}.

(** The initial values of the globals; nothing is allocated. *)
Definition init : state := mk_state ∅ ∅ None None 0.

Definition set_nodes (m : gmap loc cache_entry_t) (s : state) : state :=
  mk_state m (bufs s) (cache_head s) (cache_tail s) (cache_bytes s).
Definition set_bufs (b : gmap loc (list byte)) (s : state) : state :=
  mk_state (nodes s) b (cache_head s) (cache_tail s) (cache_bytes s).
Definition set_head (h : option loc) (s : state) : state :=
  mk_state (nodes s) (bufs s) h (cache_tail s) (cache_bytes s).
Definition set_tail (t : option loc) (s : state) : state :=
  mk_state (nodes s) (bufs s) (cache_head s) t (cache_bytes s).
Definition set_bytes (z : Z) (s : state) : state :=
  mk_state (nodes s) (bufs s) (cache_head s) (cache_tail s) z.

(** [p->field]: fails on a pointer that is not an allocated node. *)
Definition load (p : loc) (s : state) : option cache_entry_t := nodes s !! p.

(** [p->field = v], as an update [f] of the node. *)
Definition store (p : loc) (f : cache_entry_t → cache_entry_t) (s : state)
  : option state :=
  n ← nodes s !! p; Some (set_nodes (<[p := f n]> (nodes s)) s).

(** [Malloc(sizeof(cache_entry_t))] followed by the assignments of all five
    fields.  Which free address [Malloc] returns is not specified; the proofs
    use of [fresh] only that the address is not allocated. *)
Definition alloc_node (n : cache_entry_t) (s : state) : loc * state :=
  let p := fresh (dom (nodes s)) in (p, set_nodes (<[p := n]> (nodes s)) s).

(** [Free(p)] on a node. *)
Definition free_node (p : loc) (s : state) : option state :=
  _ ← nodes s !! p; Some (set_nodes (delete p (nodes s)) s).

(** [Malloc(n)] followed by [memcpy] of [n] bytes into it. *)
Definition alloc_buf (b : list byte) (s : state) : loc * state :=
  let p := fresh (dom (bufs s)) in (p, set_bufs (<[p := b]> (bufs s)) s).

(** [Free(p)] on a byte buffer. *)
Definition free_buf (p : loc) (s : state) : option state :=
  _ ← bufs s !! p; Some (set_bufs (delete p (bufs s)) s).

(** The [n] bytes [memcpy] reads at [src]: fails when the buffer is shorter. *)
Definition read_bytes (src : list byte) (n : Z) : option (list byte) :=
  if decide (0 <= n <= Z.of_nat (length src)) then Some (take (Z.to_nat n) src)
  else None.

(** [cache_move_to_front], lines 25-50. *)
Definition cache_move_to_front (entry : option loc) (s : state) : option state :=
  match entry with
  | None => Some s
  | Some e =>
    if decide (cache_head s = Some e) then Some s else
    n ← load e s;
    s ← match prev n with
        | Some p => store p (set_next (next n)) s
        | None => Some s
        end;
    n ← load e s;
    s ← match next n with
        | Some q => store q (set_prev (prev n)) s
        | None => Some s
        end;
    n ← load e s;
    let s := if decide (cache_tail s = Some e) then set_tail (prev n) s else s in
    s ← store e (set_prev None) s;
    s ← store e (set_next (cache_head s)) s;
    s ← match cache_head s with
        | Some h => store h (set_prev (Some e)) s
        | None => Some s
        end;
    let s := set_head (Some e) s in
    Some (match cache_tail s with
          | None => set_tail (Some e) s
          | Some _ => s
          end)
  end.

(** [cache_remove_entry], lines 52-74. *)
Definition cache_remove_entry (entry : option loc) (s : state) : option state :=
  match entry with
  | None => Some s
  | Some e =>
    n ← load e s;
    s ← match prev n with
        | Some p => store p (set_next (next n)) s
        | None => Some (set_head (next n) s)
        end;
    n ← load e s;
    s ← match next n with
        | Some q => store q (set_prev (prev n)) s
        | None => Some (set_tail (prev n) s)
        end;
    n ← load e s;
    let s := set_bytes (int_sub (cache_bytes s) (size n)) s in
    s ← free_buf (data n) s;
    free_node e s
  end.

(** [cache_evict_until_fit], lines 76-81.  [fuel] bounds the iterations of the
    [while]; running out of it is a failure. *)
Fixpoint evict_loop (fuel : nat) (needed : Z) (s : state) : option state :=
  match cache_tail s with
  | None => Some s
  | Some t =>
    if decide (int_add (cache_bytes s) needed > MAX_CACHE_SIZE) then
      match fuel with
      | O => None
      | S fuel' => s' ← cache_remove_entry (Some t) s; evict_loop fuel' needed s'
      end
    else Some s
  end.

Definition cache_evict_until_fit (needed : Z) (s : state) : option state :=
  evict_loop (base.size (nodes s)) needed s.

(** The [while (cur)] of [cache_get_copy], lines 92-103.  A hit yields the
    address of the fresh copy and its size. *)
Fixpoint get_copy_loop (fuel : nat) (k : string) (cur : option loc) (s : state)
  : option (option (loc * Z) * state) :=
  match cur with
  | None => Some (None, s)
  | Some c =>
    n ← load c s;
    if decide (key n = k) then
      src ← bufs s !! data n;
      bytes ← read_bytes src (size n);
      let '(copy, s) := alloc_buf bytes s in
      s ← cache_move_to_front (Some c) s;
      Some (Some (copy, size n), s)
    else
      match fuel with
      | O => None
      | S fuel' => get_copy_loop fuel' k (next n) s
      end
  end.

(** [cache_get_copy], lines 83-106: [Some (copy, size)] for a return of 1 with
    [*out_data = copy] and [*out_size = size], [None] for a return of 0. *)
Definition cache_get_copy (k : string) (s : state)
  : option (option (loc * Z) * state) :=
  get_copy_loop (base.size (nodes s)) k (cache_head s) s.

(** The [while (cur)] of [cache_insert], lines 119-126. *)
Fixpoint remove_key_loop (fuel : nat) (k : string) (cur : option loc) (s : state)
  : option state :=
  match cur with
  | None => Some s
  | Some c =>
    n ← load c s;
    if decide (key n = k) then cache_remove_entry (Some c) s
    else
      match fuel with
      | O => None
      | S fuel' => remove_key_loop fuel' k (next n) s
      end
  end.

(** [cache_insert], lines 108-152.  [payload] is what the caller's buffer
    holds at [data]; [sz] is the argument [size]. *)
Definition cache_insert (k : string) (payload : list byte) (sz : Z) (s : state)
  : option state :=
  if decide (sz <= 0 ∨ sz > MAX_OBJECT_SIZE) then Some s else
  s ← remove_key_loop (base.size (nodes s)) k (cache_head s) s;
  s ← cache_evict_until_fit sz s;
  if decide (sz > MAX_CACHE_SIZE) then Some s else
  bytes ← read_bytes payload sz;
  let '(d, s) := alloc_buf bytes s in
  let '(e, s) := alloc_node (mk_entry k d sz None (cache_head s)) s in
  s ← match cache_head s with
      | Some h => store h (set_prev (Some e)) s
      | None => Some s
      end;
  let s := set_head (Some e) s in
  let s := match cache_tail s with
           | None => set_tail (Some e) s
           | Some _ => s
           end in
  Some (set_bytes (int_add (cache_bytes s) sz) s).

(** *** Observing the cache *)

(** The nodes reached from [cur] along [next]. *)
Fixpoint walk (fuel : nat) (m : gmap loc cache_entry_t) (cur : option loc)
  : list loc :=
  match cur, fuel with
  | Some c, S fuel' =>
    c :: match m !! c with
         | Some n => walk fuel' m (next n)
         | None => []
         end
  | _, _ => []
  end.

(** The entries of the cache, from [cache_head] (most recently used) to
    [cache_tail] (least recently used). *)
Definition cache_list (s : state) : list loc :=
  walk (base.size (nodes s)) (nodes s) (cache_head s).

(** What an entry holds: key, payload bytes, size. *)
Record entry_view := mk_view {
  vkey : string;
  vdata : list byte;
  vsize : Z
}.

Definition view (s : state) (p : loc) : option entry_view :=
  n ← nodes s !! p; b ← bufs s !! data n; Some (mk_view (key n) b (size n)).

Definition entries (s : state) : list entry_view :=
  omap (view s) (cache_list s).

Definition sum_sizes (l : list entry_view) : Z :=
  foldr (λ e acc, vsize e + acc) 0 l.


(** *** The shape of the list

    [seg m pv ps nx]: in the node heap [m] the nodes [ps] are linked, in this
    order, by [next] and back by [prev]; [pv] is what the first node has in
    [prev] and [nx] what the last one has in [next]. *)

Definition first_or (ps : list loc) (d : option loc) : option loc :=
  match ps with
  | [] => d
  | p :: _ => Some p
  end.

Definition last_or (ps : list loc) (d : option loc) : option loc :=
  match last ps with
  | Some p => Some p
  | None => d
  end.

Fixpoint seg (m : gmap loc cache_entry_t) (pv : option loc) (ps : list loc)
  (nx : option loc) : Prop :=
  match ps with
  | [] => True
  | p :: ps' =>
    ∃ n, m !! p = Some n ∧ prev n = pv ∧ next n = first_or ps' nx
         ∧ seg m (Some p) ps' nx
  end.

(** [dll s ps]: the globals and the node heap of [s] hold exactly the doubly
    linked list [ps], from [cache_head] to [cache_tail], and no other node. *)
Record dll (s : state) (ps : list loc) : Prop := mk_dll {
  dll_nodup : NoDup ps;
  dll_seg : seg (nodes s) None ps None;
  dll_head : cache_head s = head ps;
  dll_tail : cache_tail s = last ps;
  dll_dom : ∀ p, p ∈ ps ↔ is_Some (nodes s !! p)
}.

(** *** What the pointer surgery computes

    [entry->prev->next = entry->next] and [entry->next->prev = entry->prev],
    each guarded by its pointer not being [NULL]. *)

Definition link_next (p v : option loc) (m : gmap loc cache_entry_t)
  : gmap loc cache_entry_t :=
  match p with
  | Some p => alter (set_next v) p m
  | None => m
  end.

Definition link_prev (p v : option loc) (m : gmap loc cache_entry_t)
  : gmap loc cache_entry_t :=
  match p with
  | Some p => alter (set_prev v) p m
  | None => m
  end.

Definition unlink (n : cache_entry_t) (m : gmap loc cache_entry_t)
  : gmap loc cache_entry_t :=
  link_prev (next n) (prev n) (link_next (prev n) (next n) m).

Definition allocated (m : gmap loc cache_entry_t) (p : option loc) : Prop :=
  ∀ q, p = Some q → is_Some (m !! q).

(** The surgery never touches [key], [data] or [size]. *)
Definition payload (n : cache_entry_t) : string * loc * Z :=
  (key n, data n, size n).

Definition same_payload (m m' : gmap loc cache_entry_t) : Prop :=
  ∀ p, payload <$> m' !! p = payload <$> m !! p.

(** *** The cache as a sequence of entries

    The abstraction the proofs go through: one [aentry] per node of the list,
    recording where the node and its buffer live and what they hold. *)

Record aentry := mk_a {
  aptr : loc;
  akey : string;
  adata : loc;
  abytes : list byte;
  asize : Z
}.

Definition to_view (a : aentry) : entry_view :=
  mk_view (akey a) (abytes a) (asize a).

(** [rep s al]: the memory [s] holds exactly the entries [al], head first:
    the nodes [aptr] form the doubly linked list, each node carries its key,
    buffer address and size, each buffer holds its bytes, and no two entries
    share a buffer. *)
Record rep (s : state) (al : list aentry) : Prop := mk_rep {
  rep_dll : dll s (aptr <$> al);
  rep_node : ∀ a, a ∈ al →
    ∃ n, nodes s !! aptr a = Some n ∧ payload n = (akey a, adata a, asize a);
  rep_buf : ∀ a, a ∈ al → bufs s !! adata a = Some (abytes a);
  rep_bufs_nodup : NoDup (adata <$> al)
}.

Definition total_size (al : list aentry) : Z :=
  foldr (λ a acc, asize a + acc) 0 al.

(** The invariant of the cache. *)
Record inv (s : state) (al : list aentry) : Prop := mk_inv {
  inv_rep : rep s al;
  inv_keys : NoDup (akey <$> al);
  inv_sizes : ∀ a, a ∈ al →
    0 < asize a <= MAX_OBJECT_SIZE ∧ Z.of_nat (length (abytes a)) = asize a;
  inv_bytes : cache_bytes s = total_size al;
  inv_bound : cache_bytes s <= MAX_CACHE_SIZE
}.

(** A buffer of the heap that is allocated and that no entry of the cache
    owns: a copy handed out by [cache_get_copy], or anything else the rest of
    the program has allocated. *)
Definition outside (s : state) (al : list aentry) (c : loc) : Prop :=
  is_Some (bufs s !! c) ∧ c ∉ adata <$> al.

(** *** The operations on the sequence of entries

    What the C functions do, said on the sequence: the proofs show that the
    pointer code refines these. *)

(** The first entry under key [k], if any: what both [while (cur)] loops
    stop at. *)
Fixpoint l_find (k : string) (al : list aentry) : option aentry :=
  match al with
  | [] => None
  | a :: al' => if decide (akey a = k) then Some a else l_find k al'
  end.

(** The sequence without the first entry under key [k]. *)
Fixpoint l_remove_key (k : string) (al : list aentry) : list aentry :=
  match al with
  | [] => []
  | a :: al' => if decide (akey a = k) then al' else a :: l_remove_key k al'
  end.

(** Eviction, on the sequence read from the tail: entries are dropped from
    the tail while [bytes + needed] exceeds [MAX_CACHE_SIZE]. *)
Fixpoint l_evict_rev (needed bytes : Z) (rl : list aentry) : list aentry :=
  match rl with
  | [] => []
  | a :: rl' =>
    if decide (bytes + needed > MAX_CACHE_SIZE)
    then l_evict_rev needed (bytes - asize a) rl'
    else rl
  end.

Definition l_evict (needed : Z) (al : list aentry) : list aentry :=
  reverse (l_evict_rev needed (total_size al) (reverse al)).

(** *** Sequences of cache operations *)

(** The two entry points of the cache, with their arguments.  [Insert k buf sz]
    is the call [cache_insert(k, buf, sz)] on a buffer holding [buf]. *)
Inductive op :=
  | Lookup (k : string)
  | Insert (k : string) (buf : list byte) (sz : Z).

(** For a call of [cache_insert] to be defined, the buffer must hold the [sz]
    bytes the call announces. *)
Definition op_ok (o : op) : Prop :=
  match o with
  | Lookup _ => True
  | Insert _ buf sz => sz <= Z.of_nat (length buf)
  end.

Definition step (o : op) (s : state) : option state :=
  match o with
  | Lookup k => snd <$> cache_get_copy k s
  | Insert k buf sz => cache_insert k buf sz s
  end.

Fixpoint run (ops : list op) (s : state) : option state :=
  match ops with
  | [] => Some s
  | o :: ops' => s' ← step o s; run ops' s'
  end.

(** The states the cache can be in: those the operations lead to from the
    initial values of the globals. *)
Definition reachable (s : state) : Prop :=
  ∃ ops, Forall op_ok ops ∧ run ops init = Some s.

(** [insert(k, p)] and [lookup(k)] of the specification: the payload is the
    whole buffer; a hit returns the bytes of the copy. *)
Definition insert (k : string) (p : list byte) (s : state) : option state :=
  cache_insert k p (len p) s.

Definition lookup (k : string) (s : state)
  : option (option (list byte) * state) :=
  '(r, s') ← cache_get_copy k s;
  match r with
  | None => Some (None, s')
  | Some (copy, sz) => b ← bufs s' !! copy; Some (Some (take (Z.to_nat sz) b), s')
  end.

(** The buffer addresses the entries of the cache own. *)
Definition owned (s : state) : list loc :=
  omap (λ p, data <$> nodes s !! p) (cache_list s).

(** A small run, for the examples: three objects are cached, then the first
    one is looked up. *)
Definition demo_ops : list op :=
  [ Insert "a.com:80/" [x41; x42; x43]%byte 3;
    Insert "b.com:80/" [x44; x45]%byte 2;
    Insert "c.com:8080/x" [x46]%byte 1;
    Lookup "a.com:80/" ].

Definition demo_state : state := default init (run demo_ops init).

(** A run that fills the cache, for the examples of eviction: ten objects of
    the largest size the cache takes, 1,024,000 bytes in all, inserted in the
    order A, B, C, ... *)
Definition full_object (b : byte) : list byte :=
  replicate (Z.to_nat MAX_OBJECT_SIZE) b.

Definition fill_ops : list op :=
  (λ k, Insert k (full_object x2a) MAX_OBJECT_SIZE)
  <$> ["A"; "B"; "C"; "D"; "E"; "F"; "G"; "H"; "I"; "J"].

(** The keys and sizes of the entries, from the most to the least recently
    used, and [cache_bytes]. *)
Definition summary (s : state) : list (string * Z) * Z :=
  ((λ e, (vkey e, vsize e)) <$> entries s, cache_bytes s).

End Cache.

(** ** The cache of the specification

    Section 4.3 of the specification, on the sequence of entries from the most
    to the least recently used.  These definitions follow the words of the
    specification; the proofs compare the C code with them. *)

Module Spec.

Import Cache.

(** "If an entry with [key] already exists": the first one. *)
Fixpoint find (k : string) (l : list entry_view) : option entry_view :=
  match l with
  | [] => None
  | e :: l' => if decide (vkey e = k) then Some e else find k l'
  end.

(** "it is removed first". *)
Fixpoint remove (k : string) (l : list entry_view) : list entry_view :=
  match l with
  | [] => []
  | e :: l' => if decide (vkey e = k) then l' else e :: remove k l'
  end.

(** "evicts least-recently-used entries, one at a time, until
    [total_bytes + len(payload) <= MAX_CACHE_SIZE], or the cache is empty",
    on the sequence read from its least recently used end. *)
Fixpoint evict_rev (needed total : Z) (rl : list entry_view) : list entry_view :=
  match rl with
  | [] => []
  | e :: rl' =>
    if decide (total + needed <= MAX_CACHE_SIZE) then rl
    else evict_rev needed (total - vsize e) rl'
  end.

Definition evict (needed : Z) (l : list entry_view) : list entry_view :=
  reverse (evict_rev needed (sum_sizes l) (reverse l)).

(** "On hit, returns a copy of the stored payload and promotes the entry to
    most-recently-used.  On miss, returns nothing." *)
Definition lookup (k : string) (l : list entry_view)
  : option (list byte) * list entry_view :=
  match find k l with
  | Some e => (Some (vdata e), e :: remove k l)
  | None => (None, l)
  end.

(** [insert(key, payload)]. *)
Definition insert (k : string) (p : list byte) (l : list entry_view)
  : list entry_view :=
  if decide (len p = 0 ∨ len p > MAX_OBJECT_SIZE) then l
  else
    let l := evict (len p) (remove k l) in
    if decide (sum_sizes l + len p <= MAX_CACHE_SIZE)
    then mk_view k p (len p) :: l
    else l.

End Spec.

(** ** Part II: the string functions

    A C string is modelled by the [string] of its characters up to the
    terminating NUL.  [MAXLINE] comes from [csapp.h], which is not part of the
    sources: the functions take it as a parameter, and with it the size of the
    header buffer. *)

Module Http.

Local Open Scope string_scope.
Local Open Scope nat_scope.

(** Rocq string literals have no escapes: the line terminator and the
    characters the code names with escapes are written by their codes. *)
Definition CR : ascii := "013".
Definition LF : ascii := "010".
Definition TAB : ascii := "009".
Definition CRLF : string := String CR (String LF EmptyString).

(** *** What the C library does on strings *)

(** The first [n] characters of [s]: what [strncpy(dst, s, n); dst[n] = 0]
    and [memcpy(dst, s, n); dst[n] = 0] leave in [dst]. *)
Fixpoint stake (n : nat) (s : string) : string :=
  match n, s with
  | S n', String c s' => String c (stake n' s')
  | _, _ => EmptyString
  end.

(** [s + n], for [n] within the string. *)
Fixpoint sdrop (n : nat) (s : string) : string :=
  match n, s with
  | S n', String _ s' => sdrop n' s'
  | _, _ => s
  end.

(** [strchr(s, c)]: the offset of the first [c] in [s]; [None] is [NULL]. *)
Fixpoint strchr (s : string) (c : ascii) : option nat :=
  match s with
  | EmptyString => None
  | String d s' =>
    if Ascii.eqb d c then Some O
    else match strchr s' c with
         | Some i => Some (S i)
         | None => None
         end
  end.

(** [tolower], in the C locale. *)
Definition tolower (c : ascii) : ascii :=
  let n := nat_of_ascii c in
  if (65 <=? n) && (n <=? 90) then ascii_of_nat (n + 32) else c.

(** [isspace], in the C locale: space, and the characters 9 to 13. *)
Definition isspace (c : ascii) : bool :=
  let n := nat_of_ascii c in
  (n =? 32) || ((9 <=? n) && (n <=? 13)).

(** [strcasecmp(a, b) == 0]. *)
Fixpoint strcasecmp_eq (a b : string) : bool :=
  match a, b with
  | EmptyString, EmptyString => true
  | String c a', String d b' =>
    Ascii.eqb (tolower c) (tolower d) && strcasecmp_eq a' b'
  | _, _ => false
  end.

(** [starts_with_icase], lines 154-158:
    [strncasecmp(s, prefix, strlen(prefix)) == 0]. *)
Fixpoint starts_with_icase (s prefix : string) {struct prefix} : bool :=
  match prefix with
  | EmptyString => true
  | String c prefix' =>
    match s with
    | EmptyString => false
    | String d s' =>
      Ascii.eqb (tolower d) (tolower c) && starts_with_icase s' prefix'
    end
  end.

(** [*p == c]. *)
Definition first_is (p : string) (c : ascii) : bool :=
  match p with
  | String d _ => Ascii.eqb d c
  | EmptyString => false
  end.

(** The result of the functions that fill [hostname], [port] and [path]. *)
Record target := mk_target {
  hostname : string;
  port : string;
  path : string
}.

Section with_MAXLINE.

(** [MAXLINE] of [csapp.h]. *)
Variable MAXLINE : nat.

(** [parse_uri], lines 160-212. *)
Definition parse_uri (uri : string) : target :=
  let p := if starts_with_icase uri "http://" then sdrop 7 uri else uri in
  if first_is p "/" then mk_target "" "80" (stake (MAXLINE - 1) p)
  else
    let '(hostport, path) :=
      match strchr p "/" with
      | Some i =>
        let hostport_len := if MAXLINE <=? i then MAXLINE - 1 else i in
        (stake hostport_len p, stake (MAXLINE - 1) (sdrop i p))
      | None => (stake (MAXLINE - 1) p, "/")
      end in
    match strchr hostport ":" with
    | Some j =>
      let host_len := if MAXLINE <=? j then MAXLINE - 1 else j in
      mk_target (stake host_len hostport)
                (stake (MAXLINE - 1) (sdrop (S j) hostport))
                path
    | None => mk_target (stake (MAXLINE - 1) hostport) "80" path
    end.

(** [build_cache_key], lines 214-217. *)
Definition build_cache_key (t : target) : string :=
  stake (MAXLINE - 1) (hostname t ++ ":" ++ port t ++ path t).

(** The [while] loops of [normalize_host_from_header] that skip characters at
    the front. *)
Fixpoint skip_while (f : ascii → bool) (s : string) : string :=
  match s with
  | String c s' => if f c then skip_while f s' else s
  | EmptyString => EmptyString
  end.

(** The [while (end > p && ...)] loop, lines 279-282: the characters at the end
    that satisfy [f] are overwritten with NUL. *)
Fixpoint trim_end (f : ascii → bool) (s : string) : string :=
  match s with
  | EmptyString => EmptyString
  | String c s' =>
    match trim_end f s' with
    | EmptyString => if f c then EmptyString else String c EmptyString
    | r => String c r
    end
  end.

(** [normalize_host_from_header], lines 253-295, on the values [hostname] and
    [port] have when it is called; [path] is not touched. *)
Definition normalize_host_from_header (host_hdr : string) (t : target) : target :=
  match host_hdr with
  | EmptyString => t
  | _ =>
    let host_hdr := skip_while isspace host_hdr in
    let tmp := stake (MAXLINE - 1) host_hdr in
    let p := skip_while (λ c, Ascii.eqb c " " || Ascii.eqb c TAB) tmp in
    match p with
    | EmptyString => t
    | _ =>
      let p := trim_end (λ c, Ascii.eqb c CR || Ascii.eqb c LF || isspace c) p in
      match strchr p ":" with
      | Some j =>
        mk_target (stake (MAXLINE - 1) (stake j p))
                  (stake (MAXLINE - 1) (sdrop (S j) p))
                  (path t)
      | None => mk_target (stake (MAXLINE - 1) p) (port t) (path t)
      end
    end
  end.

(** Lines 331 and 334-339 of [forward_request]: the target of the request
    line, completed from the [Host] header when it names no host; [None] when
    there is still no host name and the request is dropped. *)
Definition resolve (uri host_hdr : string) : option target :=
  let t := parse_uri uri in
  let t := if String.eqb (hostname t) "" then normalize_host_from_header host_hdr t
           else t in
  if String.eqb (hostname t) "" then None else Some t.

(** The four tests of [read_request_headers], lines 232-245. *)
Definition is_host (buf : string) : bool := starts_with_icase buf "Host:".

Definition is_overridden (buf : string) : bool :=
  starts_with_icase buf "User-Agent:"
  || starts_with_icase buf "Connection:"
  || starts_with_icase buf "Proxy-Connection:".

(** [read_request_headers], lines 219-251.  [lines] is what the successive
    calls of [Rio_readlineb] on the client connection return, one line each
    with its line terminator; when it is exhausted [Rio_readlineb] returns 0.
    [other_hdrs] and [host_hdr] are the two buffers as the loop has filled them
    so far.  The result is the two buffers and the lines left unread. *)
Fixpoint read_headers_loop (other_sz host_sz : nat) (lines : list string)
  (other_hdrs host_hdr : string) : string * string * list string :=
  match lines with
  | [] => (other_hdrs, host_hdr, [])
  | buf :: lines' =>
    if String.eqb buf CRLF then (other_hdrs, host_hdr, lines')
    else if is_host buf then
      read_headers_loop other_sz host_sz lines' other_hdrs
        (stake (host_sz - 1) (sdrop 5 buf))
    else if is_overridden buf then
      read_headers_loop other_sz host_sz lines' other_hdrs host_hdr
    else if String.length other_hdrs + String.length buf + 1 <? other_sz then
      read_headers_loop other_sz host_sz lines' (other_hdrs ++ buf) host_hdr
    else
      read_headers_loop other_sz host_sz lines' other_hdrs host_hdr
  end.

Definition read_request_headers (other_sz host_sz : nat) (lines : list string)
  : string * string * list string :=
  read_headers_loop other_sz host_sz lines "" "".

End with_MAXLINE.

(** The value of [MAXLINE] in the [csapp.h] of CS:APP, for the examples. *)
Definition csapp_MAXLINE : nat := 8192.

(** [sizeof(other_hdrs)], line 308. *)
Definition OTHER_HDRS_SIZE : nat := 32768.

(** A header block, for the examples: the four headers the proxy overrides,
    in mixed case, one header it forwards, and the empty line. *)
Definition demo_headers : list string :=
  [ "Host: example.com" ++ CRLF;
    "user-agent: curl/8.0" ++ CRLF;
    "CONNECTION: keep-alive" ++ CRLF;
    "Proxy-Connection: keep-alive" ++ CRLF;
    "Accept: text/html" ++ CRLF;
    CRLF ].

End Http.

(** ** The resolver and the header filter of the specification

    Sections 4.1 and 4.2 of the specification, in its words; the proofs
    compare the C code with them. *)

Module HttpSpec.

Local Open Scope string_scope.

(** "Split [host[:port]] on the last [:] to separate hostname from an explicit
    port": the host name, and the port when there is a colon. *)
Fixpoint split_last_colon (hostport : string) : string * option string :=
  match hostport with
  | EmptyString => (EmptyString, None)
  | String c rest =>
    match split_last_colon rest with
    | (h, Some p) => (String c h, Some p)
    | (h, None) =>
      if Ascii.eqb c ":" then (EmptyString, Some rest) else (String c h, None)
    end
  end.

(** The same, on the first [:]. *)
Fixpoint split_first_colon (hostport : string) : string * option string :=
  match hostport with
  | EmptyString => (EmptyString, None)
  | String c rest =>
    if Ascii.eqb c ":" then (EmptyString, Some rest)
    else let '(h, p) := split_first_colon rest in (String c h, p)
  end.

(** The name of a header line: what precedes its first colon. *)
Fixpoint header_name (line : string) : option string :=
  match line with
  | EmptyString => None
  | String c rest =>
    if Ascii.eqb c ":" then Some EmptyString
    else String c <$> header_name rest
  end.

Fixpoint lower (s : string) : string :=
  match s with
  | EmptyString => EmptyString
  | String c s' => String (Http.tolower c) (lower s')
  end.

(** "its name, case-insensitively, is one of: Host, User-Agent, Connection,
    Proxy-Connection". *)
Definition dropped (line : string) : Prop :=
  ∃ name, header_name line = Some name
          ∧ lower name ∈ ["host"; "user-agent"; "connection"; "proxy-connection"].


(** "consuming lines up to and including the blank line terminator": the
    lines of the header block, without the terminator. *)
Fixpoint header_block (lines : list string) : list string :=
  match lines with
  | [] => []
  | l :: lines' => if String.eqb l Http.CRLF then [] else l :: header_block lines'
  end.

(** The forwarded sequence, as the bytes it puts in the outgoing request. *)
Definition sconcat (ls : list string) : string := foldr append "" ls.

(** "The value following [Host:] (if present) is captured": when the block
    has several [Host] lines, the value of the last one. *)
Definition host_value (block : list string) : string :=
  match last (filter (λ l, Http.is_host l = true) block) with
  | Some l => Http.sdrop 5 l
  | None => ""
  end.

(** "parse into [(method, target, version)] by whitespace": the tokens of a
    line. *)
Fixpoint tokens (s : string) : list string :=
  match s with
  | EmptyString => []
  | String c s' =>
    if Http.isspace c then tokens s'
    else
      match s' with
      | EmptyString => [String c EmptyString]
      | String d _ =>
        if Http.isspace d then String c EmptyString :: tokens s'
        else match tokens s' with
             | t :: ts => String c t :: ts
             | [] => [String c EmptyString]
             end
      end
  end.

(** The lines that are neither captured nor overridden. *)
Definition kept (block : list string) : list string :=
  filter (λ l, Http.is_host l || Http.is_overridden l = false) block.

End HttpSpec.

(** ** Part III: the request handler

    [forward_request] over the I/O it performs.  The client connection is the
    list of what the successive [Rio_readlineb] on it return; the origin
    servers are a function [connect], the outcome of [Open_clientfd]: [None]
    when it fails, otherwise what the successive [Rio_readnb] on the new
    connection return.  What the handler does to the outside is recorded as a
    trace of events. *)

Module Proxy.

Import Http.

Local Open Scope string_scope.

(** [user_agent_hdr], lines 8-10. *)
Definition user_agent_hdr : string :=
  "User-Agent: Mozilla/5.0 (X11; Linux x86_64; rv:10.0.3) "
  ++ "Gecko/20120305 Firefox/10.0.3" ++ CRLF.

(** [sizeof(request_hdrs)], line 310. *)
Definition REQUEST_HDRS_SIZE : nat := 40960.

Inductive event :=
  | Client_write (bytes : list byte)        (* [Rio_writen(clientfd, ...)] *)
  | Cache_lookup (key : string)             (* [cache_get_copy] *)
  | Cache_insert (key : string) (size : Z)  (* [cache_insert] *)
  | Connect (host port : string)            (* [Open_clientfd] *)
  | Server_write (request : string)         (* [Rio_writen(serverfd, ...)] *)
  | Server_close                            (* [Close(serverfd)] *)
  | Client_close.                           (* [Close(connfd)] *)

(** One [%s] of [sscanf]: white space is skipped, then the characters up to
    the next white space are the token; [None] when the input ends first. *)
Fixpoint token (s : string) : string * string :=
  match s with
  | EmptyString => (EmptyString, EmptyString)
  | String c s' =>
    if isspace c then (EmptyString, s)
    else let '(t, rest) := token s' in (String c t, rest)
  end.

Definition scan_s (s : string) : option (string * string) :=
  match skip_while isspace s with
  | EmptyString => None
  | s' => Some (token s')
  end.

(** [sscanf(buf, "%s %s %s", method, uri, version)]: the three tokens when
    it returns 3, [None] otherwise. *)
Definition sscanf3 (buf : string) : option (string * string * string) :=
  match scan_s buf with
  | None => None
  | Some (method, rest) =>
    match scan_s rest with
    | None => None
    | Some (uri, rest) =>
      match scan_s rest with
      | None => None
      | Some (version, _) => Some (method, uri, version)
      end
    end
  end.

(** [snprintf(buf + strlen(buf), cap - strlen(buf), "%s", new)] and
    [strncat(buf, new, cap - strlen(buf) - 1)]: [new] is appended as far as
    the [cap] bytes of the buffer allow. *)
Definition sappend (cap : nat) (cur new : string) : string :=
  cur ++ stake (cap - String.length cur - 1) new.

(** The [while ((n = Rio_readnb(...)) > 0)] of lines 382-392. *)
Fixpoint relay (chunks : list (list byte)) (objbuf : list byte) (objsize : Z)
  (cacheable : bool) : list event * list byte * Z * bool :=
  match chunks with
  | [] => ([], objbuf, objsize, cacheable)
  | [] :: _ => ([], objbuf, objsize, cacheable)
  | buf :: chunks' =>
    let n := len buf in
    let '(objbuf, objsize, cacheable) :=
      if cacheable then
        if decide (objsize + n <= MAX_OBJECT_SIZE)%Z
        then ((objbuf ++ buf)%list, wrap_int (objsize + n), true)
        else (objbuf, objsize, false)
      else (objbuf, objsize, cacheable) in
    let '(evs, objbuf, objsize, cacheable) :=
      relay chunks' objbuf objsize cacheable in
    (Client_write buf :: evs, objbuf, objsize, cacheable)
  end.

Section handler.

(** [MAXLINE] of [csapp.h]. *)
Variable MAXLINE : nat.

(** The origin servers. *)
Variable connect : string → string → option (list (list byte)).

(** Lines 353-371: the request sent to the origin server. *)
Definition build_request (t : target) (other_hdrs : string) : string :=
  let cap := REQUEST_HDRS_SIZE in
  let r := stake (cap - 1) ("GET " ++ path t ++ " HTTP/1.0" ++ CRLF) in
  let r := if String.eqb (port t) "80"
           then sappend cap r ("Host: " ++ hostname t ++ CRLF)
           else sappend cap r ("Host: " ++ hostname t ++ ":" ++ port t ++ CRLF) in
  let r := sappend cap r user_agent_hdr in
  let r := sappend cap r ("Connection: close" ++ CRLF
                          ++ "Proxy-Connection: close" ++ CRLF) in
  let r := if String.eqb other_hdrs "" then r else sappend cap r other_hdrs in
  sappend cap r CRLF.

(** [forward_request], lines 297-399: the events, in order, and the cache
    afterwards; [None] when a cache operation is undefined. *)
Definition forward_request (client : list string) (cache : Cache.state)
  : option (list event * Cache.state) :=
  match client with
  | [] => Some ([], cache)
  | buf :: client =>
    match sscanf3 buf with
    | None => Some ([], cache)
    | Some (method, uri, version) =>
      if negb (strcasecmp_eq method "GET") then Some ([], cache) else
      let t := parse_uri MAXLINE uri in
      let '(other_hdrs, host_hdr, _) :=
        read_request_headers OTHER_HDRS_SIZE MAXLINE client in
      let t := if String.eqb (hostname t) ""
               then normalize_host_from_header MAXLINE host_hdr t else t in
      if String.eqb (hostname t) "" then Some ([], cache) else
      let cache_key := build_cache_key MAXLINE t in
      '(hit, cache) ← Cache.cache_get_copy cache_key cache;
      match hit with
      | Some (cached, cached_size) =>
        src ← Cache.bufs cache !! cached;
        bytes ← Cache.read_bytes src cached_size;
        cache ← Cache.free_buf cached cache;
        Some ([Cache_lookup cache_key; Client_write bytes], cache)
      | None =>
        match connect (hostname t) (port t) with
        | None => Some ([Cache_lookup cache_key; Connect (hostname t) (port t)],
                        cache)
        | Some chunks =>
          let request_hdrs := build_request t other_hdrs in
          let '(writes, objbuf, objsize, cacheable) := relay chunks [] 0%Z true in
          let before := ([Cache_lookup cache_key; Connect (hostname t) (port t);
                          Server_write request_hdrs] ++ writes)%list in
          if cacheable && (0 <? objsize)%Z then
            cache ← Cache.cache_insert cache_key objbuf objsize cache;
            Some ((before ++ [Cache_insert cache_key objsize; Server_close])%list,
                  cache)
          else Some ((before ++ [Server_close])%list, cache)
        end
      end
    end
  end.

(** [thread_main], lines 401-410. *)
Definition thread_main (client : list string) (cache : Cache.state)
  : option (list event * Cache.state) :=
  '(evs, cache) ← forward_request client cache;
  Some ((evs ++ [Client_close])%list, cache).

End handler.

(** The scenario of the specification, for the examples: the request
    [GET http://example.com/ HTTP/1.1] with a [Host] header, and an origin
    server that answers [example.com] with 200 bytes, in two reads. *)
Definition demo_request : list string :=
  [ "GET http://example.com/ HTTP/1.1" ++ CRLF;
    "Host: example.com" ++ CRLF;
    CRLF ].

Definition demo_response : list (list byte) :=
  [replicate 120 x2a; replicate 80 x2b].

Definition demo_origin (host port : string) : option (list (list byte)) :=
  if String.eqb host "example.com" && String.eqb port "80"
  then Some demo_response else None.

End Proxy.

(** ** Further observations of the cache *)

Module CacheMore.

Import Cache.

(** The nodes reached from [cur] along [prev]. *)
Fixpoint walk_prev (fuel : nat) (m : gmap loc cache_entry_t) (cur : option loc)
  : list loc :=
  match cur, fuel with
  | Some c, S fuel' =>
    c :: match m !! c with
         | Some n => walk_prev fuel' m (prev n)
         | None => []
         end
  | _, _ => []
  end.

(** The entries of the cache read backwards, from [cache_tail] along
    [prev]. *)
Definition cache_list_back (s : state) : list loc :=
  walk_prev (base.size (nodes s)) (nodes s) (cache_tail s).

(** Nothing is leaked and nothing dangles: the allocated nodes are the nodes
    of the list, and the allocated buffers are the buffers of its entries. *)
Definition no_leak (s : state) : Prop :=
  (∀ p, is_Some (nodes s !! p) ↔ p ∈ cache_list s)
  ∧ (∀ c, is_Some (bufs s !! c) ↔ c ∈ owned s).

(** The buffers that are allocated and that no entry of the cache owns: the
    copies [cache_get_copy] has handed to its callers and that were not freed
    since. *)
Definition stray (s : state) : gset loc :=
  dom (bufs s) ∖ list_to_set (owned s).

(** The cache is in its invariant: a well-formed doubly linked list whose
    entries have distinct keys and sizes within bounds, with [cache_bytes]
    the sum of the sizes. *)
Definition sound (s : state) : Prop := ∃ al, inv s al.

End CacheMore.

(** ** Further notions on strings *)

Module HttpMore.

Import Http.

Local Open Scope string_scope.

(** Every character of [s] is white space for [isspace]. *)
Fixpoint all_space (s : string) : bool :=
  match s with
  | EmptyString => true
  | String c s' => isspace c && all_space s'
  end.

(** The first, the last character of [s] is white space. *)
Definition first_is_space (s : string) : bool :=
  match s with
  | String c _ => isspace c
  | EmptyString => false
  end.

Fixpoint last_is_space (s : string) : bool :=
  match s with
  | EmptyString => false
  | String c EmptyString => isspace c
  | String _ s' => last_is_space s'
  end.

(** What the callers of [parse_uri] and [build_cache_key] rely on in a
    target: no colon in the host name, no slash in the port, a path that
    begins with a slash. *)
Definition well_formed (t : target) : Prop :=
  strchr (hostname t) ":" = None
  ∧ strchr (port t) "/" = None
  ∧ first_is (path t) "/" = true.

(** The lines that follow the header block and its terminator. *)
Fixpoint after_block (lines : list string) : list string :=
  match lines with
  | [] => []
  | l :: lines' => if String.eqb l CRLF then lines' else after_block lines'
  end.

End HttpMore.

(** ** The request handler by its two halves, and a run of connections *)

Module ProxyMore.

Import Http Proxy.

Local Open Scope string_scope.

(** What the origin server sent: the reads up to the first that returns 0. *)
Fixpoint received (chunks : list (list byte)) : list (list byte) :=
  match chunks with
  | [] => []
  | [] :: _ => []
  | buf :: chunks' => buf :: received chunks'
  end.

(** The request lines 354-371 compose for the origin server, in full: what
    [request_hdrs] holds when the buffer is large enough. *)
Definition request_text (t : target) (other_hdrs : string) : string :=
  "GET " ++ path t ++ " HTTP/1.0" ++ CRLF
  ++ "Host: " ++ hostname t
  ++ (if String.eqb (port t) "80" then "" else ":" ++ port t) ++ CRLF
  ++ user_agent_hdr
  ++ "Connection: close" ++ CRLF ++ "Proxy-Connection: close" ++ CRLF
  ++ other_hdrs ++ CRLF.

Section serving.

(** [MAXLINE] of [csapp.h]. *)
Variable MAXLINE : nat.

(** Lines 318-339 of [forward_request]: the target of the request and the
    headers to forward; [None] when the handler returns before it looks at
    the cache. *)
Definition request_target (client : list string) : option (target * string) :=
  match client with
  | [] => None
  | buf :: client =>
    match sscanf3 buf with
    | None => None
    | Some (method, uri, version) =>
      if negb (strcasecmp_eq method "GET") then None else
      let t := parse_uri MAXLINE uri in
      let '(other_hdrs, host_hdr, _) :=
        read_request_headers OTHER_HDRS_SIZE MAXLINE client in
      let t := if String.eqb (hostname t) ""
               then normalize_host_from_header MAXLINE host_hdr t else t in
      if String.eqb (hostname t) "" then None else Some (t, other_hdrs)
    end
  end.

(** Lines 341-399 of [forward_request]: the request for [t] is served, from
    the cache or from the origin server. *)
Definition serve_target (connect : string → string → option (list (list byte)))
  (t : target) (other_hdrs : string) (cache : Cache.state)
  : option (list event * Cache.state) :=
  let cache_key := build_cache_key MAXLINE t in
  '(hit, cache) ← Cache.cache_get_copy cache_key cache;
  match hit with
  | Some (cached, cached_size) =>
    src ← Cache.bufs cache !! cached;
    bytes ← Cache.read_bytes src cached_size;
    cache ← Cache.free_buf cached cache;
    Some ([Cache_lookup cache_key; Client_write bytes], cache)
  | None =>
    match connect (hostname t) (port t) with
    | None => Some ([Cache_lookup cache_key; Connect (hostname t) (port t)],
                    cache)
    | Some chunks =>
      let request_hdrs := build_request t other_hdrs in
      let '(writes, objbuf, objsize, cacheable) := relay chunks [] 0%Z true in
      let before := ([Cache_lookup cache_key; Connect (hostname t) (port t);
                      Server_write request_hdrs] ++ writes)%list in
      if cacheable && (0 <? objsize)%Z then
        cache ← Cache.cache_insert cache_key objbuf objsize cache;
        Some ((before ++ [Cache_insert cache_key objsize; Server_close])%list,
              cache)
      else Some ((before ++ [Server_close])%list, cache)
    end
  end.

(** The loop of [main], lines 427-432, with the handlers run one after the
    other: each connection is the origin servers as they are when it is
    handled, and what the client sends on it. *)
Fixpoint serve
  (conns : list ((string → string → option (list (list byte))) * list string))
  (cache : Cache.state) : option (list (list event) * Cache.state) :=
  match conns with
  | [] => Some ([], cache)
  | (connect, client) :: conns' =>
    '(evs, cache) ← thread_main MAXLINE connect client cache;
    '(traces, cache) ← serve conns' cache;
    Some (evs :: traces, cache)
  end.

End serving.

End ProxyMore.
(** * Proofs: the object cache *)

Module CacheProofs.
Import Cache.

Section seg_lemmas.
Implicit Types (m : gmap loc cache_entry_t) (ps : list loc).

Lemma first_or_app l1 l2 d : first_or (l1 ++ l2) d = first_or l1 (first_or l2 d).
Proof. by destruct l1. Qed.

Lemma last_or_snoc l q d : last_or (l ++ [q]) d = Some q.
Proof. unfold last_or. by rewrite last_snoc. Qed.

Lemma last_or_cons p l d : last_or (p :: l) d = last_or l (Some p).
Proof.
  unfold last_or. rewrite last_cons. by destruct (last l).
Qed.

Lemma first_or_None ps : first_or ps None = head ps.
Proof. by destruct ps. Qed.

Lemma last_or_None ps : last_or ps None = last ps.
Proof. unfold last_or. by destruct (last ps). Qed.

Lemma seg_app m pv l1 l2 nx :
  seg m pv (l1 ++ l2) nx ↔
  seg m pv l1 (first_or l2 nx) ∧ seg m (last_or l1 pv) l2 nx.
Proof.
  revert pv. induction l1 as [|p l1 IH]; intros pv; simpl.
  - unfold last_or; simpl. tauto.
  - rewrite last_or_cons, first_or_app. split.
    + intros (n & ? & ? & ? & Hs). apply IH in Hs as [??]. eauto 10.
    + intros [(n & ? & ? & ? & Hs) ?]. exists n. repeat split; try done.
      apply IH. done.
Qed.

Lemma seg_cons m pv p ps nx :
  seg m pv (p :: ps) nx ↔
  ∃ n, m !! p = Some n ∧ prev n = pv ∧ next n = first_or ps nx
       ∧ seg m (Some p) ps nx.
Proof. done. Qed.

Lemma seg_lookup m pv ps nx p : seg m pv ps nx → p ∈ ps → is_Some (m !! p).
Proof.
  revert pv. induction ps as [|q ps IH]; intros pv Hs Hin.
  - by apply elem_of_nil in Hin.
  - destruct Hs as (n & ? & ? & ? & Hs). apply elem_of_cons in Hin as [->|Hin]; eauto.
Qed.

Lemma seg_insert_frame m pv ps nx p n :
  p ∉ ps → seg (<[p := n]> m) pv ps nx ↔ seg m pv ps nx.
Proof.
  revert pv. induction ps as [|q ps IH]; intros pv Hnin; simpl; [done|].
  apply not_elem_of_cons in Hnin as [Hne Hnin].
  rewrite lookup_insert_ne by done.
  split; intros (n' & ? & ? & ? & Hs); exists n'; repeat split; try done;
    by apply (IH _ Hnin).
Qed.

Lemma seg_delete_frame m pv ps nx p :
  p ∉ ps → seg (delete p m) pv ps nx ↔ seg m pv ps nx.
Proof.
  revert pv. induction ps as [|q ps IH]; intros pv Hnin; simpl; [done|].
  apply not_elem_of_cons in Hnin as [Hne Hnin].
  rewrite lookup_delete_ne by done.
  split; intros (n' & ? & ? & ? & Hs); exists n'; repeat split; try done;
    by apply (IH _ Hnin).
Qed.

(** A segment does not depend on what its last node is followed by, up to
    the [next] of that last node. *)
Lemma seg_snoc m pv l q nx :
  seg m pv (l ++ [q]) nx ↔
  seg m pv l (Some q) ∧
  ∃ n, m !! q = Some n ∧ prev n = last_or l pv ∧ next n = nx.
Proof.
  rewrite seg_app. simpl. split.
  - intros [? (n & ? & ? & ? & _)]. eauto.
  - intros [? (n & ? & ? & ?)]. eauto 10.
Qed.

Lemma seg_nil_out m pv ps nx nx' : ps = [] → seg m pv ps nx → seg m pv ps nx'.
Proof. by intros ->. Qed.

End seg_lemmas.

Ltac setters :=
unfold set_nodes, set_bufs, set_head, set_tail, set_bytes; simpl.

Section surgery.
Implicit Types (m : gmap loc cache_entry_t) (s : state).

Lemma store_alter s p f n :
  nodes s !! p = Some n →
  store p f s = Some (set_nodes (alter f p (nodes s)) s).
Proof.
  intros Hp. unfold store. rewrite Hp. simpl. do 2 f_equal.
  apply map_eq. intros i. destruct (decide (p = i)) as [->|Hne].
  - by rewrite lookup_insert_eq, lookup_alter_eq, Hp.
  - by rewrite lookup_insert_ne, lookup_alter_ne.
Qed.

Lemma store_is_Some s p f :
  is_Some (nodes s !! p) →
  store p f s = Some (set_nodes (alter f p (nodes s)) s).
Proof. intros [n Hn]. by eapply store_alter. Qed.

Lemma lookup_link_next_ne m p v e :
  p ≠ Some e → link_next p v m !! e = m !! e.
Proof.
  destruct p as [p|]; simpl; [|done]. intros Hne.
  apply lookup_alter_ne. congruence.
Qed.

Lemma lookup_link_prev_ne m p v e :
  p ≠ Some e → link_prev p v m !! e = m !! e.
Proof.
  destruct p as [p|]; simpl; [|done]. intros Hne.
  apply lookup_alter_ne. congruence.
Qed.

Lemma link_next_is_Some m p v q :
  is_Some (link_next p v m !! q) ↔ is_Some (m !! q).
Proof.
  destruct p as [p|]; simpl; [|done].
  rewrite lookup_alter_is_Some. done.
Qed.

Lemma link_prev_is_Some m p v q :
  is_Some (link_prev p v m !! q) ↔ is_Some (m !! q).
Proof.
  destruct p as [p|]; simpl; [|done].
  rewrite lookup_alter_is_Some. done.
Qed.

Lemma unlink_is_Some m n q : is_Some (unlink n m !! q) ↔ is_Some (m !! q).
Proof. unfold unlink. by rewrite link_prev_is_Some, link_next_is_Some. Qed.

Lemma lookup_unlink_ne m n e :
  prev n ≠ Some e → next n ≠ Some e → unlink n m !! e = m !! e.
Proof.
  intros. unfold unlink.
  by rewrite lookup_link_prev_ne, lookup_link_next_ne.
Qed.

(** The first half of [cache_remove_entry] and of [cache_move_to_front]:
    the neighbours of [e] are linked to each other. *)
Lemma cache_remove_entry_eq s e n b :
  nodes s !! e = Some n →
  prev n ≠ Some e → next n ≠ Some e →
  allocated (nodes s) (prev n) → allocated (nodes s) (next n) →
  bufs s !! data n = Some b →
  cache_remove_entry (Some e) s =
  Some (mk_state (delete e (unlink n (nodes s)))
                 (delete (data n) (bufs s))
                 (match prev n with Some _ => cache_head s | None => next n end)
                 (match next n with Some _ => cache_tail s | None => prev n end)
                 (int_sub (cache_bytes s) (size n))).
Proof.
  intros He Hpe Hne Hpa Hna Hb.
  unfold cache_remove_entry, load, unlink. rewrite He. simpl.
  destruct (prev n) as [p|] eqn:Hp; simpl.
  - rewrite (store_is_Some _ p) by (by apply Hpa). simpl.
    rewrite lookup_alter_ne, He by congruence. simpl.
    destruct (next n) as [q|] eqn:Hq; simpl.
    + rewrite (store_is_Some _ q)
        by (simpl; rewrite lookup_alter_is_Some; by apply Hna).
      simpl. rewrite !lookup_alter_ne, He by congruence. simpl.
      unfold free_buf. simpl. rewrite Hb. simpl.
      unfold free_node. simpl. rewrite !lookup_alter_ne, He by congruence.
      setters; congruence.
    + rewrite lookup_alter_ne, He by congruence. simpl.
      unfold free_buf. simpl. rewrite Hb. simpl.
      unfold free_node. simpl. rewrite !lookup_alter_ne, He by congruence.
      setters; congruence.
  - rewrite He. simpl.
    destruct (next n) as [q|] eqn:Hq; simpl.
    + rewrite (store_is_Some _ q) by (by apply Hna).
      simpl. rewrite !lookup_alter_ne, He by congruence. simpl.
      unfold free_buf. simpl. rewrite Hb. simpl.
      unfold free_node. simpl. rewrite !lookup_alter_ne, He by congruence.
      setters; congruence.
    + rewrite He. simpl.
      unfold free_buf. simpl. rewrite Hb. simpl.
      unfold free_node. simpl. rewrite He.
      setters; congruence.
Qed.

End surgery.

(** *** The pointer surgery on a well-formed list *)

Section dll_lemmas.
Implicit Types (m : gmap loc cache_entry_t) (s : state) (ps : list loc).

Lemma seg_alter_frame m pv ps nx p f :
  p ∉ ps → seg (alter f p m) pv ps nx ↔ seg m pv ps nx.
Proof.
  revert pv. induction ps as [|q ps IH]; intros pv Hnin; simpl; [done|].
  apply not_elem_of_cons in Hnin as [Hne Hnin].
  rewrite lookup_alter_ne by done.
  split; intros (n' & ? & ? & ? & Hs); exists n'; repeat split; try done;
    by apply (IH _ Hnin).
Qed.

Lemma seg_link_next_frame m pv ps nx p v :
  (∀ q, p = Some q → q ∉ ps) →
  seg (link_next p v m) pv ps nx ↔ seg m pv ps nx.
Proof.
  destruct p as [p|]; simpl; [|done]. intros H.
  apply seg_alter_frame. by apply H.
Qed.

Lemma seg_link_prev_frame m pv ps nx p v :
  (∀ q, p = Some q → q ∉ ps) →
  seg (link_prev p v m) pv ps nx ↔ seg m pv ps nx.
Proof.
  destruct p as [p|]; simpl; [|done]. intros H.
  apply seg_alter_frame. by apply H.
Qed.

(** Redirecting the [next] of the last node of a segment. *)
Lemma seg_link_next_last m pv ps nx nx' :
  NoDup ps → seg m pv ps nx → seg (link_next (last ps) nx' m) pv ps nx'.
Proof.
  intros Hnd Hs. destruct (last ps) as [q|] eqn:Hl; simpl.
  - apply last_Some in Hl as [l ->].
    apply NoDup_app in Hnd as (_ & Hnin & _).
    apply seg_snoc in Hs as [Hs (n & Hq & Hp & Hn)].
    apply seg_snoc. split.
    + apply seg_alter_frame; [|done]. intros Hin. apply (Hnin q Hin).
      by apply list_elem_of_singleton.
    + exists (set_next nx' n). by rewrite lookup_alter_eq, Hq.
  - apply last_None in Hl as ->. done.
Qed.

(** Redirecting the [prev] of the first node of a segment. *)
Lemma seg_link_prev_first m pv ps nx pv' :
  NoDup ps → seg m pv ps nx → seg (link_prev (head ps) pv' m) pv' ps nx.
Proof.
  intros Hnd Hs. destruct ps as [|q ps]; simpl; [done|].
  apply NoDup_cons in Hnd as [Hnin _].
  destruct Hs as (n & Hq & Hp & Hn & Hs).
  exists (set_prev pv' n). rewrite lookup_alter_eq, Hq. repeat split; try done.
  by apply seg_alter_frame.
Qed.

(** Taking [e] out of the list: its neighbours get linked to each other. *)
Lemma seg_unlink m l1 e l2 n :
  NoDup (l1 ++ e :: l2) → seg m None (l1 ++ e :: l2) None → m !! e = Some n →
  prev n = last l1 ∧ next n = head l2 ∧ seg (unlink n m) None (l1 ++ l2) None.
Proof.
  intros Hnd Hs He.
  apply NoDup_app in Hnd as (Hnd1 & Hdisj & Hnd2).
  apply NoDup_cons in Hnd2 as [He2 Hnd2].
  apply seg_app in Hs as [Hs1 Hs2]. simpl in Hs2.
  destruct Hs2 as (n' & He' & Hp & Hn & Hs2).
  assert (n' = n) as -> by congruence.
  rewrite last_or_None in Hp. rewrite first_or_None in Hn.
  split; [done|]. split; [done|].
  unfold unlink. rewrite Hp, Hn. apply seg_app. split.
  - rewrite first_or_None. apply seg_link_prev_frame.
    { intros q Hq Hin. apply head_Some_elem_of in Hq.
      apply (Hdisj q Hin). by apply elem_of_cons; right. }
    by eapply seg_link_next_last.
  - rewrite last_or_None. eapply seg_link_prev_first; [done|].
    apply seg_link_next_frame; [|done].
    intros q Hq Hin. apply last_Some_elem_of in Hq.
    apply (Hdisj q Hq). by apply elem_of_cons; right.
Qed.

Lemma dll_allocated s ps p :
  dll s ps → (∀ q, p = Some q → q ∈ ps) → allocated (nodes s) p.
Proof. intros Hd H q Hq. apply (dll_dom _ _ Hd). by apply H. Qed.

Lemma dll_lookup s ps p : dll s ps → p ∈ ps → is_Some (nodes s !! p).
Proof. intros Hd. apply (dll_dom _ _ Hd). Qed.

(** [cache_remove_entry] on a node of a well-formed list. *)
Lemma dll_remove s l1 e l2 n b :
  dll s (l1 ++ e :: l2) → nodes s !! e = Some n → bufs s !! data n = Some b →
  ∃ s', cache_remove_entry (Some e) s = Some s'
        ∧ dll s' (l1 ++ l2)
        ∧ nodes s' = delete e (unlink n (nodes s))
        ∧ bufs s' = delete (data n) (bufs s)
        ∧ cache_bytes s' = int_sub (cache_bytes s) (size n).
Proof.
  intros Hd He Hb.
  pose proof (dll_nodup _ _ Hd) as Hnd.
  destruct (seg_unlink _ _ _ _ _ Hnd (dll_seg _ _ Hd) He) as (Hp & Hn & Hs).
  assert ((e ∉ l1) ∧ (e ∉ l2)) as [He1 He2].
  { apply NoDup_app in Hnd as (_ & Hdisj & Hnd2).
    apply NoDup_cons in Hnd2 as [? _]. split; [|done].
    intros Hin. apply (Hdisj e Hin). by apply elem_of_cons; left. }
  eexists. split.
  { eapply cache_remove_entry_eq; try done.
    - rewrite Hp. intros Hl. by apply last_Some_elem_of in Hl.
    - rewrite Hn. intros Hl. by apply head_Some_elem_of in Hl.
    - eapply dll_allocated; [done|]. rewrite Hp. intros q Hq.
      apply last_Some_elem_of in Hq. apply elem_of_app. by left.
    - eapply dll_allocated; [done|]. rewrite Hn. intros q Hq.
      apply head_Some_elem_of in Hq. apply elem_of_app. right.
      by apply elem_of_cons; right. }
  split; [|done]. constructor; simpl.
  - apply NoDup_app in Hnd as (? & Hdisj & Hnd2).
    apply NoDup_cons in Hnd2 as [_ ?]. apply NoDup_app. repeat split; try done.
    intros x Hx1 Hx2. apply (Hdisj x Hx1). by apply elem_of_cons; right.
  - apply seg_delete_frame; [|done].
    intros Hin. apply elem_of_app in Hin as [?|?]; done.
  - rewrite Hp, Hn. rewrite (dll_head _ _ Hd).
    destruct l1 as [|p l1']; [done|]. simpl. rewrite last_cons.
    by destruct (last l1').
  - rewrite Hp, Hn. rewrite (dll_tail _ _ Hd).
    rewrite !last_app. simpl. rewrite last_cons.
    destruct l2 as [|q l2']; [done|]. simpl. rewrite last_cons. by destruct (last l2').
  - intros p. destruct (decide (p = e)) as [->|Hne].
    + rewrite lookup_delete_eq. split.
      * intros Hin. apply elem_of_app in Hin as [?|?]; done.
      * by intros [? ?].
    + rewrite lookup_delete_ne, unlink_is_Some by done.
      rewrite <- (dll_dom _ _ Hd). rewrite !elem_of_app, elem_of_cons.
      tauto.
Qed.


(** [cache_move_to_front] on a node other than the head. *)
Lemma cache_move_to_front_eq s e n h :
  nodes s !! e = Some n → cache_head s = Some h → h ≠ e →
  prev n ≠ Some e → next n ≠ Some e →
  allocated (nodes s) (prev n) → allocated (nodes s) (next n) →
  is_Some (nodes s !! h) →
  cache_move_to_front (Some e) s =
  Some (mk_state
          (alter (set_prev (Some e)) h
             (alter (set_next (Some h)) e
                (alter (set_prev None) e (unlink n (nodes s)))))
          (bufs s)
          (Some e)
          (match (if decide (cache_tail s = Some e) then prev n
                  else cache_tail s) with
           | None => Some e
           | Some t => Some t
           end)
          (cache_bytes s)).
Proof.
  intros He Hh Hhe Hpe Hne Hpa Hna Hha.
  unfold cache_move_to_front, load, unlink.
  rewrite decide_False by congruence.
  rewrite He. simpl.
  assert (is_Some (nodes s !! e)) as Hea by eauto.
  destruct (prev n) as [p|] eqn:Hp; destruct (next n) as [q|] eqn:Hq; simpl.
  - rewrite (store_is_Some _ p) by auto. simpl.
    rewrite lookup_alter_ne by congruence. rewrite He. simpl. rewrite Hq.
    rewrite (store_is_Some _ q) by (simpl; rewrite ?lookup_alter_is_Some; auto).
    simpl. rewrite !lookup_alter_ne by congruence. rewrite He. simpl.
    rewrite Hp. destruct (decide (cache_tail s = Some e)) as [Ht|Ht];
      repeat (rewrite (store_is_Some _ _)
                by (simpl; rewrite ?lookup_alter_is_Some; auto); simpl;
              rewrite ?Hh; simpl);
      setters; rewrite ?Hh; simpl; try done; by destruct (cache_tail s).
  - rewrite (store_is_Some _ p) by auto. simpl.
    rewrite lookup_alter_ne by congruence. rewrite He. simpl. rewrite Hq.
    simpl. rewrite !lookup_alter_ne by congruence. rewrite He. simpl.
    rewrite Hp. destruct (decide (cache_tail s = Some e)) as [Ht|Ht];
      repeat (rewrite (store_is_Some _ _)
                by (simpl; rewrite ?lookup_alter_is_Some; auto); simpl;
              rewrite ?Hh; simpl);
      setters; rewrite ?Hh; simpl; try done; by destruct (cache_tail s).
  - rewrite He. simpl. rewrite Hq.
    rewrite (store_is_Some _ q) by (simpl; rewrite ?lookup_alter_is_Some; auto).
    simpl. rewrite !lookup_alter_ne by congruence. rewrite He. simpl.
    rewrite Hp. destruct (decide (cache_tail s = Some e)) as [Ht|Ht];
      repeat (rewrite (store_is_Some _ _)
                by (simpl; rewrite ?lookup_alter_is_Some; auto); simpl;
              rewrite ?Hh; simpl);
      setters; rewrite ?Hh; simpl; try done; by destruct (cache_tail s).
  - rewrite He. simpl. rewrite Hq. simpl. rewrite He. simpl.
    rewrite Hp. destruct (decide (cache_tail s = Some e)) as [Ht|Ht];
      repeat (rewrite (store_is_Some _ _)
                by (simpl; rewrite ?lookup_alter_is_Some; auto); simpl;
              rewrite ?Hh; simpl);
      setters; rewrite ?Hh; simpl; try done; by destruct (cache_tail s).
Qed.


Lemma same_payload_refl m : same_payload m m.
Proof. done. Qed.

Lemma same_payload_trans m1 m2 m3 :
  same_payload m1 m2 → same_payload m2 m3 → same_payload m1 m3.
Proof. intros H12 H23 p. by rewrite H23, H12. Qed.

Lemma same_payload_alter m p f :
  (∀ n, payload (f n) = payload n) → same_payload m (alter f p m).
Proof.
  intros Hf q. destruct (decide (p = q)) as [->|Hne].
  - rewrite lookup_alter_eq. destruct (m !! q); simpl; [|done].
    by rewrite Hf.
  - by rewrite lookup_alter_ne.
Qed.

Lemma same_payload_link_next m p v : same_payload m (link_next p v m).
Proof.
  destruct p; simpl; [|done]. by apply same_payload_alter.
Qed.

Lemma same_payload_link_prev m p v : same_payload m (link_prev p v m).
Proof.
  destruct p; simpl; [|done]. by apply same_payload_alter.
Qed.

Lemma same_payload_unlink m n : same_payload m (unlink n m).
Proof.
  unfold unlink. eapply same_payload_trans.
  - apply same_payload_link_next.
  - apply same_payload_link_prev.
Qed.

Lemma same_payload_is_Some m m' p :
  same_payload m m' → is_Some (m' !! p) ↔ is_Some (m !! p).
Proof.
  intros H. specialize (H p).
  destruct (m' !! p), (m !! p); simpl in H; done.
Qed.

(** [cache_move_to_front] on a node of a well-formed list: the node becomes
    the head and the others keep their order. *)
Lemma last_move_front (l1 l2 : list loc) e :
  e ∉ l2 →
  match (if decide (last (l1 ++ e :: l2) = Some e) then last l1
         else last (l1 ++ e :: l2)) with
  | Some t => Some t
  | None => Some e
  end = last (e :: l1 ++ l2).
Proof.
  intros He. rewrite last_cons, !last_app, last_cons.
  destruct (last l2) as [t|] eqn:Hl.
  - rewrite decide_False; [done|]. intros [= ->].
    by apply last_Some_elem_of in Hl.
  - rewrite decide_True by done. done.
Qed.

Lemma dll_move_to_front s l1 e l2 :
  dll s (l1 ++ e :: l2) →
  ∃ s', cache_move_to_front (Some e) s = Some s'
        ∧ dll s' (e :: l1 ++ l2)
        ∧ same_payload (nodes s) (nodes s')
        ∧ bufs s' = bufs s
        ∧ cache_bytes s' = cache_bytes s.
Proof.
  intros Hd. destruct l1 as [|h l1].
  { exists s. simpl in *. unfold cache_move_to_front.
    rewrite decide_True by apply (dll_head _ _ Hd). done. }
  pose proof (dll_nodup _ _ Hd) as Hnd.
  destruct (dll_lookup s _ e Hd) as [n He].
  { apply elem_of_app. right. by apply elem_of_cons; left. }
  destruct (seg_unlink _ _ _ _ _ Hnd (dll_seg _ _ Hd) He) as (Hp & Hn & Hs).
  assert ((e ∉ h :: l1) ∧ (e ∉ l2)) as [He1 He2].
  { apply NoDup_app in Hnd as (_ & Hdisj & Hnd2).
    apply NoDup_cons in Hnd2 as [? _]. split; [|done].
    intros Hin. apply (Hdisj e Hin). by apply elem_of_cons; left. }
  assert (h ≠ e) as Hhe.
  { intros ->. apply He1. by apply elem_of_cons; left. }
  assert (NoDup ((h :: l1) ++ l2)) as Hnd'.
  { apply NoDup_app in Hnd as (? & Hdisj & Hnd2).
    apply NoDup_cons in Hnd2 as [_ ?]. apply NoDup_app. repeat split; try done.
    intros x Hx1 Hx2. apply (Hdisj x Hx1). by apply elem_of_cons; right. }
  assert (e ∉ (h :: l1) ++ l2) as Hnin.
  { intros Hin. apply elem_of_app in Hin as [?|?]; done. }
  eexists. split.
  { eapply (cache_move_to_front_eq s e n h); try done.
    - apply (dll_head _ _ Hd).
    - rewrite Hp. intros Hl. by apply last_Some_elem_of in Hl.
    - rewrite Hn. intros Hl. by apply head_Some_elem_of in Hl.
    - eapply dll_allocated; [done|]. rewrite Hp. intros q Hq.
      apply last_Some_elem_of in Hq. apply elem_of_app. by left.
    - eapply dll_allocated; [done|]. rewrite Hn. intros q Hq.
      apply head_Some_elem_of in Hq. apply elem_of_app. right.
      by apply elem_of_cons; right.
    - apply (dll_lookup _ _ _ Hd). by left. }
  assert (same_payload (nodes s)
            (alter (set_prev (Some e)) h
               (alter (set_next (Some h)) e
                  (alter (set_prev None) e (unlink n (nodes s)))))) as Hsp.
  { apply (same_payload_trans _ (unlink n (nodes s)));
      [apply same_payload_unlink|].
    apply (same_payload_trans _ (alter (set_prev None) e (unlink n (nodes s))));
      [by apply same_payload_alter|].
    apply (same_payload_trans _
             (alter (set_next (Some h)) e
                (alter (set_prev None) e (unlink n (nodes s)))));
      by apply same_payload_alter. }
  split; [|done]. constructor; cbn [nodes bufs cache_head cache_tail].
  - apply NoDup_cons. split; [exact Hnin|exact Hnd'].
  - apply seg_cons. eexists. rewrite lookup_alter_ne by done.
    rewrite !lookup_alter_eq, lookup_unlink_ne, He; cbn [fmap option_fmap option_map].
    + repeat split; try done.
      apply (seg_link_prev_first _ None ((h :: l1) ++ l2) None (Some e));
        [done|].
      apply seg_alter_frame; [exact Hnin|].
      apply seg_alter_frame; [exact Hnin|exact Hs].
    + rewrite Hp. intros Hl. by apply last_Some_elem_of in Hl.
    + rewrite Hn. intros Hl. by apply head_Some_elem_of in Hl.
  - done.
  - rewrite (dll_tail _ _ Hd), Hp. by apply last_move_front.
  - intros p. rewrite (same_payload_is_Some _ _ _ Hsp).
    rewrite <- (dll_dom _ _ Hd).
    rewrite elem_of_cons, !elem_of_app, !elem_of_cons. tauto.
Qed.

End dll_lemmas.

Section observe.
Implicit Types (m : gmap loc cache_entry_t) (s : state) (al : list aentry).

Lemma walk_seg m pv ps fuel :
  seg m pv ps None → (length ps ≤ fuel)%nat → walk fuel m (head ps) = ps.
Proof.
  revert pv fuel. induction ps as [|p ps IH]; intros pv fuel Hs Hlen; simpl.
  - by destruct fuel.
  - destruct fuel as [|fuel]; simpl in *; [lia|].
    destruct Hs as (n & -> & _ & Hn & Hs). f_equal.
    rewrite Hn, first_or_None. apply (IH (Some p)); [done|lia].
Qed.

Lemma dll_length s ps : dll s ps → length ps = base.size (nodes s).
Proof.
  intros Hd. rewrite <- size_dom.
  rewrite <- (size_list_to_set (C := gset loc) ps) by apply (dll_nodup _ _ Hd).
  f_equal. apply set_eq. intros p.
  rewrite elem_of_list_to_set, elem_of_dom. apply (dll_dom _ _ Hd).
Qed.

Lemma dll_cache_list s ps : dll s ps → cache_list s = ps.
Proof.
  intros Hd. unfold cache_list. rewrite (dll_head _ _ Hd).
  eapply walk_seg; [apply (dll_seg _ _ Hd)|].
  by rewrite (dll_length _ _ Hd).
Qed.

Lemma rep_view s al a : rep s al → a ∈ al → view s (aptr a) = Some (to_view a).
Proof.
  intros Hr Ha. unfold view.
  destruct (rep_node _ _ Hr a Ha) as (n & -> & [= Hk Hd Hz]). simpl.
  rewrite Hd, (rep_buf _ _ Hr a Ha). simpl. unfold to_view. congruence.
Qed.

(** What [entries] observes is the abstract sequence. *)
Lemma rep_entries s al : rep s al → entries s = to_view <$> al.
Proof.
  intros Hr. unfold entries. rewrite (dll_cache_list _ _ (rep_dll _ _ Hr)).
  assert (∀ l : list aentry, (∀ a, a ∈ l → a ∈ al) →
               omap (view s) (aptr <$> l) = to_view <$> l) as H.
  { induction l as [|a l IH]; intros Hl; simpl; [done|].
    rewrite (rep_view s al a) by (done || apply Hl; by left).
    f_equal. apply IH. intros b Hb. apply Hl. by right. }
  by apply H.
Qed.

Lemma sum_sizes_to_view al : sum_sizes (to_view <$> al) = total_size al.
Proof.
  induction al as [|a al IH]; [done|].
  rewrite fmap_cons. simpl. by rewrite IH.
Qed.

Lemma total_size_app al1 al2 :
  total_size (al1 ++ al2) = total_size al1 + total_size al2.
Proof. induction al1 as [|a al1 IH]; simpl; [done|]. rewrite IH. lia. Qed.

Lemma rep_init : rep init [].
Proof.
  constructor; simpl.
  - constructor; simpl; try done; try apply NoDup_nil_2.
    intros p. split; [by intros ?%elem_of_nil|].
    rewrite lookup_empty. by intros [? ?].
  - by intros a ?%elem_of_nil.
  - by intros a ?%elem_of_nil.
  - apply NoDup_nil_2.
Qed.

Lemma inv_init : inv init [].
Proof.
  constructor; simpl; try done.
  - apply rep_init.
  - apply NoDup_nil_2.
  - by intros a ?%elem_of_nil.
Qed.

End observe.

(** *** The operations preserve the representation *)

Section rep_lemmas.
Implicit Types (m : gmap loc cache_entry_t) (s : state) (al : list aentry).

Lemma same_payload_lookup m m' p n :
  same_payload m m' → m !! p = Some n →
  ∃ n', m' !! p = Some n' ∧ payload n' = payload n.
Proof.
  intros H Hp. specialize (H p). rewrite Hp in H.
  destruct (m' !! p) as [n'|]; simpl in H; [|done].
  exists n'. split; [done|]. congruence.
Qed.

Lemma NoDup_fmap_app_cons {B} (f : aentry → B) al1 a al2 :
  NoDup (f <$> (al1 ++ a :: al2)) →
  NoDup (f <$> (al1 ++ al2)) ∧ ∀ b, b ∈ al1 ++ al2 → f b ≠ f a.
Proof.
  rewrite !fmap_app, fmap_cons. intros Hnd.
  apply NoDup_app in Hnd as (Hnd1 & Hdisj & Hnd2).
  apply NoDup_cons in Hnd2 as [Ha Hnd2]. split.
  - apply NoDup_app. repeat split; try done.
    intros x Hx1 Hx2. apply (Hdisj x Hx1). by right.
  - intros b Hb Heq. apply elem_of_app in Hb as [Hb|Hb].
    + apply (Hdisj (f a)); [rewrite <- Heq; by apply list_elem_of_fmap_2|by left].
    + apply Ha. rewrite <- Heq. by apply list_elem_of_fmap_2.
Qed.

Lemma elem_of_app_cons_weaken al1 (a b : aentry) al2 :
  b ∈ al1 ++ al2 → b ∈ al1 ++ a :: al2.
Proof. rewrite !elem_of_app, elem_of_cons. tauto. Qed.

Lemma elem_of_middle al1 (a : aentry) al2 : a ∈ al1 ++ a :: al2.
Proof. rewrite elem_of_app, elem_of_cons. tauto. Qed.

(** [cache_remove_entry] on an entry of the cache. *)
Lemma rep_remove s al1 a al2 :
  rep s (al1 ++ a :: al2) →
  ∃ s', cache_remove_entry (Some (aptr a)) s = Some s'
        ∧ rep s' (al1 ++ al2)
        ∧ bufs s' = delete (adata a) (bufs s)
        ∧ cache_bytes s' = int_sub (cache_bytes s) (asize a).
Proof.
  intros Hr.
  destruct (rep_node _ _ Hr a (elem_of_middle _ _ _)) as (n & Hn & [= Hk Hd Hz]).
  pose proof (rep_buf _ _ Hr a (elem_of_middle _ _ _)) as Hb.
  pose proof (rep_dll _ _ Hr) as Hdll. rewrite fmap_app, fmap_cons in Hdll.
  destruct (dll_remove s _ _ _ n (abytes a) Hdll Hn) as (s' & Hs' & Hd' & Hn' & Hb' & Hc').
  { by rewrite Hd. }
  exists s'. rewrite Hd in Hb'. rewrite Hz in Hc'.
  split; [done|]. split; [|done]. constructor.
  - by rewrite fmap_app.
  - intros b Hb0.
    destruct (NoDup_fmap_app_cons aptr al1 a al2) as [_ Hne].
    { rewrite fmap_app, fmap_cons. apply (dll_nodup _ _ Hdll). }
    destruct (rep_node _ _ Hr b (elem_of_app_cons_weaken _ _ _ _ Hb0))
      as (nb & Hnb & Hpb).
    destruct (same_payload_lookup _ _ _ _ (same_payload_unlink (nodes s) n) Hnb)
      as (nb' & Hnb' & Hpb').
    exists nb'. rewrite Hn', lookup_delete_ne by (apply not_eq_sym; by apply Hne).
    split; [done|]. congruence.
  - intros b Hb0.
    destruct (NoDup_fmap_app_cons adata al1 a al2 (rep_bufs_nodup _ _ Hr))
      as [_ Hne].
    rewrite Hb', lookup_delete_ne by (apply not_eq_sym; by apply Hne).
    apply (rep_buf _ _ Hr). by apply elem_of_app_cons_weaken.
  - apply (NoDup_fmap_app_cons adata al1 a al2 (rep_bufs_nodup _ _ Hr)).
Qed.

(** [cache_move_to_front] on an entry of the cache. *)
Lemma rep_move_to_front s al1 a al2 :
  rep s (al1 ++ a :: al2) →
  ∃ s', cache_move_to_front (Some (aptr a)) s = Some s'
        ∧ rep s' (a :: al1 ++ al2)
        ∧ bufs s' = bufs s
        ∧ cache_bytes s' = cache_bytes s.
Proof.
  intros Hr.
  pose proof (rep_dll _ _ Hr) as Hdll. rewrite fmap_app, fmap_cons in Hdll.
  destruct (dll_move_to_front s _ _ _ Hdll) as (s' & Hs' & Hd' & Hsp & Hb' & Hc').
  exists s'. split; [done|]. split; [|done]. constructor.
  - by rewrite fmap_cons, fmap_app.
  - intros b Hb0.
    assert (b ∈ al1 ++ a :: al2) as Hb1.
    { revert Hb0. rewrite elem_of_cons, !elem_of_app, elem_of_cons. tauto. }
    destruct (rep_node _ _ Hr b Hb1) as (nb & Hnb & Hpb).
    destruct (same_payload_lookup _ _ _ _ Hsp Hnb) as (nb' & Hnb' & Hpb').
    exists nb'. split; [done|]. congruence.
  - intros b Hb0. rewrite Hb'. apply (rep_buf _ _ Hr).
    revert Hb0. rewrite elem_of_cons, !elem_of_app, elem_of_cons. tauto.
  - pose proof (rep_bufs_nodup _ _ Hr) as Hnd.
    rewrite fmap_app, fmap_cons in Hnd. rewrite fmap_cons, fmap_app.
    apply NoDup_app in Hnd as (Hnd1 & Hdisj & Hnd2).
    apply NoDup_cons in Hnd2 as [Ha Hnd2].
    apply NoDup_cons. split.
    + intros Hin. apply elem_of_app in Hin as [Hin|Hin]; [|done].
      apply (Hdisj _ Hin). by left.
    + apply NoDup_app. repeat split; try done.
      intros x Hx1 Hx2. apply (Hdisj x Hx1). by right.
Qed.

(** The node of an entry: its fields, and where its [next] points. *)
Lemma rep_next s al1 a al2 :
  rep s (al1 ++ a :: al2) →
  ∃ n, nodes s !! aptr a = Some n ∧ key n = akey a ∧ data n = adata a
       ∧ size n = asize a ∧ next n = head (aptr <$> al2).
Proof.
  intros Hr.
  destruct (rep_node _ _ Hr a (elem_of_middle _ _ _)) as (n & Hn & [= Hk Hd Hz]).
  exists n. repeat split; try done.
  pose proof (dll_seg _ _ (rep_dll _ _ Hr)) as Hs.
  rewrite fmap_app, fmap_cons in Hs.
  apply seg_app in Hs as [_ Hs]. apply seg_cons in Hs as (n' & Hn' & _ & Hx & _).
  rewrite first_or_None in Hx. congruence.
Qed.

(** The [while (cur)] of [cache_insert] stops at the first entry under [k]. *)
Lemma remove_key_loop_spec s k al2 : ∀ al1 fuel,
  rep s (al1 ++ al2) → (length al2 ≤ fuel)%nat →
  remove_key_loop fuel k (head (aptr <$> al2)) s =
  match l_find k al2 with
  | Some a => cache_remove_entry (Some (aptr a)) s
  | None => Some s
  end.
Proof.
  induction al2 as [|b al2 IH]; intros al1 fuel Hr Hlen.
  - by destruct fuel.
  - destruct (rep_next _ _ _ _ Hr) as (n & Hn & Hk & _ & _ & Hx).
    rewrite fmap_cons. cbn [head hd_error l_find].
    destruct fuel as [|fuel]; [simpl in Hlen; lia|].
    cbn [remove_key_loop]. unfold load. rewrite Hn. cbn [mbind option_bind].
    rewrite Hk. destruct (decide (akey b = k)); [done|].
    rewrite Hx. apply (IH (al1 ++ [b])).
    + by rewrite <- app_assoc.
    + simpl in Hlen. lia.
Qed.

(** The [while (cur)] of [cache_get_copy] stops at the first entry under [k]. *)
Lemma get_copy_loop_spec s k al2 : ∀ al1 fuel,
  rep s (al1 ++ al2) → (length al2 ≤ fuel)%nat →
  get_copy_loop fuel k (head (aptr <$> al2)) s =
  match l_find k al2 with
  | Some a =>
    src ← bufs s !! adata a;
    bytes ← read_bytes src (asize a);
    let '(copy, s1) := alloc_buf bytes s in
    s2 ← cache_move_to_front (Some (aptr a)) s1;
    Some (Some (copy, asize a), s2)
  | None => Some (None, s)
  end.
Proof.
  induction al2 as [|b al2 IH]; intros al1 fuel Hr Hlen.
  - by destruct fuel.
  - destruct (rep_next _ _ _ _ Hr) as (n & Hn & Hk & Hd & Hz & Hx).
    rewrite fmap_cons. cbn [head hd_error l_find].
    destruct fuel as [|fuel]; [simpl in Hlen; lia|].
    cbn [get_copy_loop]. unfold load. rewrite Hn. cbn [mbind option_bind].
    rewrite Hk, Hd, Hz. destruct (decide (akey b = k)); [done|].
    rewrite Hx. apply (IH (al1 ++ [b])).
    + by rewrite <- app_assoc.
    + simpl in Hlen. lia.
Qed.

(** [l_find] and [l_remove_key] split the sequence at the same place. *)
Lemma l_find_Some k al a :
  l_find k al = Some a →
  ∃ al1 al2, al = al1 ++ a :: al2 ∧ akey a = k
             ∧ (∀ b, b ∈ al1 → akey b ≠ k)
             ∧ l_remove_key k al = al1 ++ al2.
Proof.
  induction al as [|b al IH]; simpl; [done|].
  destruct (decide (akey b = k)) as [Hk|Hk].
  - intros [= ->]. exists [], al. repeat split; try done.
    by intros ? ?%elem_of_nil.
  - intros Hf. destruct (IH Hf) as (al1 & al2 & -> & ? & Hal1 & ->).
    exists (b :: al1), al2. repeat split; try done.
    intros c [->|Hc]%elem_of_cons; [done|by apply Hal1].
Qed.

Lemma l_find_None k al :
  l_find k al = None → (∀ b, b ∈ al → akey b ≠ k) ∧ l_remove_key k al = al.
Proof.
  induction al as [|b al IH]; simpl.
  - split; [by intros ? ?%elem_of_nil|done].
  - destruct (decide (akey b = k)) as [Hk|Hk]; [done|].
    intros Hf. destruct (IH Hf) as [Hal ->]. split; [|done].
    intros c [->|Hc]%elem_of_cons; [done|by apply Hal].
Qed.

End rep_lemmas.

(** *** The operations preserve the invariant *)

Section inv_lemmas.
Implicit Types (m : gmap loc cache_entry_t) (s : state) (al : list aentry).

Lemma wrap_int_id z : in_int z → wrap_int z = z.
Proof.
  unfold in_int, wrap_int. intros Hz.
  rewrite Z.mod_small by lia. lia.
Qed.

Lemma total_size_nonneg al :
  (∀ a, a ∈ al → 0 < asize a) → 0 <= total_size al.
Proof.
  induction al as [|a al IH]; intros Hpos; simpl; [lia|].
  assert (0 < asize a) by (apply Hpos; by left).
  assert (0 <= total_size al) by (apply IH; intros b Hb; apply Hpos; by right).
  lia.
Qed.

Lemma inv_pos s al a : inv s al → a ∈ al → 0 < asize a.
Proof. intros Hi Ha. by destruct (inv_sizes _ _ Hi a Ha) as [[? ?] ?]. Qed.

Lemma inv_bytes_nonneg s al : inv s al → 0 <= cache_bytes s.
Proof.
  intros Hi. rewrite (inv_bytes _ _ Hi). apply total_size_nonneg.
  intros a. apply (inv_pos _ _ _ Hi).
Qed.

Lemma read_bytes_all (b : list byte) : read_bytes b (Z.of_nat (length b)) = Some b.
Proof.
  unfold read_bytes. rewrite decide_True by lia.
  by rewrite Nat2Z.id, firstn_all.
Qed.

Lemma rep_set_bufs s al b :
  rep s al → (∀ a, a ∈ al → b !! adata a = bufs s !! adata a) →
  rep (set_bufs b s) al.
Proof.
  intros Hr Hb. constructor.
  - destruct (rep_dll _ _ Hr). by constructor.
  - apply (rep_node _ _ Hr).
  - intros a Ha. simpl. rewrite (Hb a Ha). by apply (rep_buf _ _ Hr).
  - apply (rep_bufs_nodup _ _ Hr).
Qed.

(** An entry's buffer is allocated, so a fresh address is none of them. *)
Lemma rep_fresh_buf s al a :
  rep s al → a ∈ al → adata a ≠ fresh (dom (bufs s)).
Proof.
  intros Hr Ha Heq. apply (is_fresh (dom (bufs s))). rewrite <- Heq.
  apply elem_of_dom. rewrite (rep_buf _ _ Hr a Ha). eauto.
Qed.

Lemma rep_alloc_buf s al b :
  rep s al → rep (snd (alloc_buf b s)) al.
Proof.
  intros Hr. unfold alloc_buf. simpl. apply rep_set_bufs; [done|].
  intros a Ha. rewrite lookup_insert_ne; [done|].
  apply not_eq_sym. by eapply rep_fresh_buf.
Qed.

(** [cache_get_copy], miss: nothing changes. *)
Lemma cache_get_copy_miss s al k :
  rep s al → l_find k al = None → cache_get_copy k s = Some (None, s).
Proof.
  intros Hr Hf. unfold cache_get_copy. rewrite (dll_head _ _ (rep_dll _ _ Hr)).
  rewrite (get_copy_loop_spec s k al [] _ Hr), Hf; [done|].
  by rewrite <- (dll_length _ _ (rep_dll _ _ Hr)), length_fmap.
Qed.

(** [cache_get_copy], hit: the payload is copied into a fresh buffer and the
    entry becomes the head. *)
Lemma cache_get_copy_hit s al k a :
  inv s al → l_find k al = Some a →
  ∃ s', cache_get_copy k s = Some (Some (fresh (dom (bufs s)), asize a), s')
        ∧ inv s' (a :: l_remove_key k al)
        ∧ bufs s' = <[fresh (dom (bufs s)) := abytes a]> (bufs s).
Proof.
  intros Hi Hf. pose proof (inv_rep _ _ Hi) as Hr.
  destruct (l_find_Some _ _ _ Hf) as (al1 & al2 & -> & Hk & Hal1 & ->).
  unfold cache_get_copy. rewrite (dll_head _ _ (rep_dll _ _ Hr)).
  rewrite (get_copy_loop_spec s k _ [] _ Hr), Hf
    by (by rewrite <- (dll_length _ _ (rep_dll _ _ Hr)), length_fmap).
  rewrite (rep_buf _ _ Hr a (elem_of_middle _ _ _)). cbn [mbind option_bind].
  destruct (inv_sizes _ _ Hi a (elem_of_middle _ _ _)) as [_ Hlen].
  assert (read_bytes (abytes a) (asize a) = Some (abytes a)) as ->
    by (rewrite <- Hlen; apply read_bytes_all).
  cbn [mbind option_bind].
  pose proof (rep_alloc_buf s _ (abytes a) Hr) as Hr1.
  destruct (rep_move_to_front _ _ _ _ Hr1) as (s' & Hs' & Hr' & Hb' & Hc').
  exists s'. unfold alloc_buf in *. simpl in *. rewrite Hs'. simpl.
  split; [done|]. split; [|done]. constructor.
  - done.
  - pose proof (inv_keys _ _ Hi) as Hnd.
    rewrite fmap_app, fmap_cons in Hnd. rewrite fmap_cons, fmap_app.
    apply NoDup_app in Hnd as (Hnd1 & Hdisj & Hnd2).
    apply NoDup_cons in Hnd2 as [Ha Hnd2].
    apply NoDup_cons. split.
    + intros Hin. apply elem_of_app in Hin as [Hin|Hin]; [|done].
      apply (Hdisj _ Hin). by left.
    + apply NoDup_app. repeat split; try done.
      intros x Hx1 Hx2. apply (Hdisj x Hx1). by right.
  - intros b Hb. apply (inv_sizes _ _ Hi).
    revert Hb. rewrite elem_of_cons, !elem_of_app, elem_of_cons. tauto.
  - rewrite Hc', (inv_bytes _ _ Hi). simpl.
    rewrite !total_size_app. simpl. lia.
  - rewrite Hc'. apply (inv_bound _ _ Hi).
Qed.

Lemma outside_weaken s s' al al' c :
  outside s al c →
  (∀ d, d ∈ adata <$> al' → d ∈ adata <$> al) →
  bufs s' !! c = bufs s !! c →
  outside s' al' c.
Proof.
  intros [Hc Hn] Hsub Heq. split; [by rewrite Heq|].
  intros Hin. by apply Hn, Hsub.
Qed.

(** [cache_remove_entry] on an entry of the cache: the invariant holds again,
    and [cache_bytes] went down by the size of the entry, without wrapping. *)
Lemma inv_remove s al1 a al2 :
  inv s (al1 ++ a :: al2) →
  ∃ s', cache_remove_entry (Some (aptr a)) s = Some s'
        ∧ inv s' (al1 ++ al2)
        ∧ bufs s' = delete (adata a) (bufs s)
        ∧ cache_bytes s' = cache_bytes s - asize a.
Proof.
  intros Hi.
  destruct (rep_remove _ _ _ _ (inv_rep _ _ Hi)) as (s' & Hs' & Hr' & Hb' & Hc').
  pose proof (inv_bytes _ _ Hi) as Hbytes.
  pose proof (inv_bound _ _ Hi) as Hbound.
  rewrite total_size_app in Hbytes. simpl in Hbytes.
  assert (0 <= total_size (al1 ++ al2)) as Hnn.
  { apply total_size_nonneg. intros b Hb. apply (inv_pos _ _ _ Hi).
    by apply elem_of_app_cons_weaken. }
  rewrite total_size_app in Hnn.
  pose proof (inv_pos _ _ a Hi (elem_of_middle _ _ _)) as Hpos.
  assert (cache_bytes s' = cache_bytes s - asize a) as Hc''.
  { rewrite Hc'. unfold int_sub. apply wrap_int_id. unfold in_int.
    unfold MAX_CACHE_SIZE in *. lia. }
  exists s'. split; [done|]. split; [|done]. constructor.
  - done.
  - apply (NoDup_fmap_app_cons akey al1 a al2 (inv_keys _ _ Hi)).
  - intros b Hb. apply (inv_sizes _ _ Hi). by apply elem_of_app_cons_weaken.
  - rewrite Hc'', total_size_app. lia.
  - lia.
Qed.

Lemma fmap_remove_key_subseteq k al d :
  d ∈ adata <$> l_remove_key k al → d ∈ adata <$> al.
Proof.
  induction al as [|b al IH]; [done|]. cbn [l_remove_key].
  destruct (decide (akey b = k)).
  - intros Hd. rewrite fmap_cons. by right.
  - rewrite !fmap_cons, !elem_of_cons. intros [->|Hd]; [by left|right; by apply IH].
Qed.

(** The [while (cur)] of [cache_insert] on a cache in its invariant. *)
Lemma inv_remove_key s al k :
  inv s al →
  ∃ s', remove_key_loop (base.size (nodes s)) k (cache_head s) s = Some s'
        ∧ inv s' (l_remove_key k al)
        ∧ (∀ c, outside s al c →
                outside s' (l_remove_key k al) c ∧ bufs s' !! c = bufs s !! c).
Proof.
  intros Hi. pose proof (inv_rep _ _ Hi) as Hr.
  rewrite (dll_head _ _ (rep_dll _ _ Hr)).
  rewrite (remove_key_loop_spec s k al [] _ Hr)
    by (by rewrite <- (dll_length _ _ (rep_dll _ _ Hr)), length_fmap).
  destruct (l_find k al) as [a|] eqn:Hf.
  - destruct (l_find_Some _ _ _ Hf) as (al1 & al2 & Hal & Hk & Hal1 & Hrm).
    rewrite Hrm. subst al.
    destruct (inv_remove _ _ _ _ Hi) as (s' & Hs' & Hi' & Hb' & Hc').
    exists s'. split; [done|]. split; [done|].
    intros c Hc.
    assert (bufs s' !! c = bufs s !! c) as Heq.
    { rewrite Hb'. apply lookup_delete_ne. intros <-.
      destruct Hc as [_ Hc]. apply Hc. apply list_elem_of_fmap_2.
      apply elem_of_middle. }
    split; [|done]. eapply outside_weaken; [done| |done].
    intros d. rewrite <- Hrm. apply fmap_remove_key_subseteq.
  - destruct (l_find_None _ _ Hf) as [_ ->]. exists s. done.
Qed.

Lemma reverse_snoc_elem (rl : list aentry) a b :
  b ∈ reverse rl → b ∈ reverse (a :: rl).
Proof. rewrite reverse_cons, elem_of_app. tauto. Qed.

(** The [while] of [cache_evict_until_fit] on a cache in its invariant:
    it ends, and then the new payload fits. *)
Lemma inv_evict_loop needed rl : ∀ s fuel,
  inv s (reverse rl) → (length rl ≤ fuel)%nat →
  0 < needed <= MAX_OBJECT_SIZE →
  ∃ s', evict_loop fuel needed s = Some s'
        ∧ inv s' (reverse (l_evict_rev needed (cache_bytes s) rl))
        ∧ cache_bytes s' + needed <= MAX_CACHE_SIZE
        ∧ (∀ c, outside s (reverse rl) c →
                outside s' (reverse (l_evict_rev needed (cache_bytes s) rl)) c
                ∧ bufs s' !! c = bufs s !! c).
Proof.
  induction rl as [|a rl IH]; intros s fuel Hi Hlen Hneeded.
  - pose proof (inv_rep _ _ Hi) as Hr.
    pose proof (dll_tail _ _ (rep_dll _ _ Hr)) as Ht. simpl in Ht.
    pose proof (inv_bytes _ _ Hi) as Hb. simpl in Hb.
    exists s. split; [by destruct fuel; simpl; rewrite Ht|].
    split; [done|]. split; [|by intros c Hc].
    unfold MAX_CACHE_SIZE, MAX_OBJECT_SIZE in *. lia.
  - pose proof (inv_rep _ _ Hi) as Hr.
    pose proof (dll_tail _ _ (rep_dll _ _ Hr)) as Ht.
    rewrite reverse_cons, fmap_app in Ht.
    change (aptr <$> [a]) with [aptr a] in Ht. rewrite last_snoc in Ht.
    pose proof (inv_bytes_nonneg _ _ Hi) as Hnn.
    pose proof (inv_bound _ _ Hi) as Hbound.
    assert (int_add (cache_bytes s) needed = cache_bytes s + needed) as Hadd.
    { unfold int_add. apply wrap_int_id. unfold in_int.
      unfold MAX_CACHE_SIZE, MAX_OBJECT_SIZE in *. lia. }
    destruct fuel as [|fuel]; [simpl in Hlen; lia|].
    cbn [evict_loop l_evict_rev]. rewrite Ht, Hadd.
    destruct (decide (cache_bytes s + needed > MAX_CACHE_SIZE)) as [Hgt|Hle].
    + rewrite reverse_cons in Hi.
      destruct (inv_remove _ _ _ _ Hi) as (s1 & Hs1 & Hi1 & Hb1 & Hc1).
      rewrite app_nil_r in Hi1. rewrite Hs1. cbn [mbind option_bind].
      destruct (IH s1 fuel Hi1) as (s' & Hs' & Hi' & Hfit & Hout);
        [simpl in Hlen; lia|done|].
      rewrite Hc1 in *.
      assert (∀ c, outside s (reverse rl ++ [a]) c →
                   outside s1 (reverse rl) c ∧ bufs s1 !! c = bufs s !! c)
        as Hstep.
      { intros c Hc.
        assert (bufs s1 !! c = bufs s !! c) as Heq.
        { rewrite Hb1. apply lookup_delete_ne. intros <-.
          destruct Hc as [_ Hc]. apply Hc. apply list_elem_of_fmap_2.
          rewrite elem_of_app, list_elem_of_singleton. tauto. }
        split; [|done]. eapply outside_weaken; [done| |done].
        intros d. rewrite fmap_app, elem_of_app. tauto. }
      exists s'. split; [done|]. split; [done|]. split; [done|].
      intros c Hc. rewrite reverse_cons in Hc.
      destruct (Hstep c Hc) as [Hc1' Heq1].
      destruct (Hout c Hc1') as [Hc' Heq']. split; [done|]. congruence.
    + exists s. split; [done|]. split; [done|]. split; [lia|]. by intros c Hc.
Qed.

(** [cache_evict_until_fit] on a cache in its invariant. *)
Lemma inv_evict s al needed :
  inv s al → 0 < needed <= MAX_OBJECT_SIZE →
  ∃ s', cache_evict_until_fit needed s = Some s'
        ∧ inv s' (l_evict needed al)
        ∧ cache_bytes s' + needed <= MAX_CACHE_SIZE
        ∧ (∀ c, outside s al c →
                outside s' (l_evict needed al) c ∧ bufs s' !! c = bufs s !! c).
Proof.
  intros Hi Hneeded. unfold cache_evict_until_fit, l_evict.
  rewrite <- (inv_bytes _ _ Hi).
  rewrite <- (reverse_involutive al) in Hi.
  destruct (inv_evict_loop needed (reverse al) s (base.size (nodes s)) Hi)
    as (s' & Hs' & Hi' & Hfit & Hout); [|done|].
  { rewrite reverse_involutive in Hi.
    rewrite <- (dll_length _ _ (rep_dll _ _ (inv_rep _ _ Hi))).
    by rewrite length_fmap, length_reverse. }
  exists s'. rewrite reverse_involutive in Hout. done.
Qed.

(** Eviction only drops entries, from the tail. *)
Lemma l_evict_rev_suffix needed rl : ∀ bytes,
  ∃ dropped, rl = dropped ++ l_evict_rev needed bytes rl.
Proof.
  induction rl as [|a rl IH]; intros bytes; simpl.
  - by exists [].
  - destruct (decide (bytes + needed > MAX_CACHE_SIZE)).
    + destruct (IH (bytes - asize a)) as [dropped Hd].
      exists (a :: dropped). simpl. by rewrite <- Hd.
    + by exists [].
Qed.

Lemma l_evict_prefix needed al :
  ∃ dropped, al = l_evict needed al ++ dropped.
Proof.
  unfold l_evict.
  destruct (l_evict_rev_suffix needed (reverse al) (total_size al))
    as [dropped Hd].
  exists (reverse dropped). rewrite <- reverse_app, <- Hd.
  by rewrite reverse_involutive.
Qed.

Lemma l_evict_elem needed al a : a ∈ l_evict needed al → a ∈ al.
Proof.
  destruct (l_evict_prefix needed al) as [dropped Hd].
  intros Ha. rewrite Hd. apply elem_of_app. by left.
Qed.

Lemma l_remove_key_elem k al a : a ∈ l_remove_key k al → a ∈ al.
Proof.
  induction al as [|b al IH]; simpl; [done|].
  destruct (decide (akey b = k)).
  - intros Ha. by right.
  - rewrite !elem_of_cons. intros [->|Ha]; [by left|right; by apply IH].
Qed.

Lemma l_remove_key_notin k al :
  NoDup (akey <$> al) → ∀ a, a ∈ l_remove_key k al → akey a ≠ k.
Proof.
  induction al as [|b al IH]; intros Hnd a; [by intros ?%elem_of_nil|].
  rewrite fmap_cons in Hnd. apply NoDup_cons in Hnd as [Hb Hnd].
  cbn [l_remove_key]. destruct (decide (akey b = k)) as [Hk|Hk].
  - intros Ha Heq. apply Hb. rewrite Hk, <- Heq. by apply list_elem_of_fmap_2.
  - intros [->|Ha]%elem_of_cons; [done|]. by apply IH.
Qed.

(** Linking a new node in front of the head. *)
Lemma dll_push s ps e n0 b z :
  dll s ps → nodes s !! e = None →
  prev n0 = None → next n0 = cache_head s →
  dll (mk_state (link_prev (cache_head s) (Some e) (<[e := n0]> (nodes s)))
                b (Some e)
                (match cache_tail s with Some t => Some t | None => Some e end)
                z)
      (e :: ps).
Proof.
  intros Hd He Hp Hn.
  assert (e ∉ ps) as Hnin.
  { intros Hin. apply (dll_dom _ _ Hd) in Hin. rewrite He in Hin.
    by destruct Hin. }
  assert (cache_head s ≠ Some e) as Hhe.
  { rewrite (dll_head _ _ Hd). intros Hh. by apply head_Some_elem_of in Hh. }
  constructor; cbn [nodes bufs cache_head cache_tail].
  - apply NoDup_cons. split; [done|apply (dll_nodup _ _ Hd)].
  - apply seg_cons. exists n0.
    rewrite lookup_link_prev_ne, lookup_insert_eq by done.
    split; [done|]. split; [done|]. split.
    + rewrite Hn, first_or_None. apply (dll_head _ _ Hd).
    + rewrite (dll_head _ _ Hd).
      apply (seg_link_prev_first _ None); [apply (dll_nodup _ _ Hd)|].
      apply seg_insert_frame; [done|apply (dll_seg _ _ Hd)].
  - done.
  - rewrite (dll_tail _ _ Hd), last_cons. done.
  - intros p. rewrite link_prev_is_Some, elem_of_cons.
    destruct (decide (e = p)) as [->|Hne].
    + rewrite lookup_insert_eq. split; eauto.
    + rewrite lookup_insert_ne by done. rewrite (dll_dom _ _ Hd p).
      split; [intros [?|?]; [congruence|done]|tauto].
Qed.

Lemma rep_push s al e d k bytes sz z :
  rep s al → nodes s !! e = None → bufs s !! d = None →
  rep (mk_state
         (link_prev (cache_head s) (Some e)
            (<[e := mk_entry k d sz None (cache_head s)]> (nodes s)))
         (<[d := bytes]> (bufs s)) (Some e)
         (match cache_tail s with Some t => Some t | None => Some e end) z)
      (mk_a e k d bytes sz :: al).
Proof.
  intros Hr He Hd.
  assert (cache_head s ≠ Some e) as Hhe.
  { rewrite (dll_head _ _ (rep_dll _ _ Hr)). intros Hh.
    apply head_Some_elem_of in Hh.
    apply (dll_dom _ _ (rep_dll _ _ Hr)) in Hh. rewrite He in Hh.
    by destruct Hh. }
  assert (∀ a, a ∈ al → aptr a ≠ e) as Hptr.
  { intros a Ha Heq. destruct (rep_node _ _ Hr a Ha) as (n & Hn & _).
    congruence. }
  assert (∀ a, a ∈ al → adata a ≠ d) as Hdat.
  { intros a Ha Heq. pose proof (rep_buf _ _ Hr a Ha). congruence. }
  constructor; cbn [nodes bufs].
  - rewrite fmap_cons. cbn [aptr]. by apply dll_push; [apply (rep_dll _ _ Hr)|..].
  - intros a [->|Ha]%elem_of_cons; cbn [aptr akey adata asize].
    + eexists. by rewrite lookup_link_prev_ne, lookup_insert_eq by done.
    + destruct (rep_node _ _ Hr a Ha) as (n & Hn & Hpay).
      assert (<[e:=mk_entry k d sz None (cache_head s)]> (nodes s) !! aptr a
              = Some n) as Hn1.
      { rewrite lookup_insert_ne; [done|]. apply not_eq_sym. by apply Hptr. }
      destruct (same_payload_lookup _ _ _ _
                  (same_payload_link_prev _ (cache_head s) (Some e)) Hn1)
        as (n' & Hn' & Hpay').
      exists n'. split; [done|]. congruence.
  - intros a [->|Ha]%elem_of_cons; cbn [adata abytes].
    + by rewrite lookup_insert_eq.
    + rewrite lookup_insert_ne by (apply not_eq_sym; by apply Hdat).
      by apply (rep_buf _ _ Hr).
  - rewrite fmap_cons. cbn [adata]. apply NoDup_cons.
    split; [|apply (rep_bufs_nodup _ _ Hr)].
    intros (a & Heq & Ha)%list_elem_of_fmap. by apply (Hdat a Ha).
Qed.

Lemma read_bytes_take (payload : list byte) sz :
  0 <= sz <= Z.of_nat (length payload) →
  read_bytes payload sz = Some (take (Z.to_nat sz) payload).
Proof. intros H. unfold read_bytes. by rewrite decide_True. Qed.

(** [cache_insert] of a payload that passes the size check, on a cache in its
    invariant: the entry under [k] is taken out, the tail is evicted until the
    payload fits, and the new entry is linked in as the head. *)
Lemma cache_insert_spec s al k payload sz :
  inv s al → 0 < sz <= MAX_OBJECT_SIZE → sz <= Z.of_nat (length payload) →
  ∃ s' e d,
    let new := mk_a e k d (take (Z.to_nat sz) payload) sz in
    cache_insert k payload sz s = Some s'
    ∧ inv s' (new :: l_evict sz (l_remove_key k al))
    ∧ (∀ c, outside s al c →
            outside s' (new :: l_evict sz (l_remove_key k al)) c
            ∧ bufs s' !! c = bufs s !! c).
Proof.
  intros Hi Hsz Hlen. unfold cache_insert.
  rewrite decide_False by lia.
  destruct (inv_remove_key s al k Hi) as (s1 & Hs1 & Hi1 & Hout1).
  rewrite Hs1. cbn [mbind option_bind].
  destruct (inv_evict s1 _ sz Hi1 Hsz) as (s2 & Hs2 & Hi2 & Hfit & Hout2).
  rewrite Hs2. cbn [mbind option_bind].
  rewrite decide_False by (unfold MAX_CACHE_SIZE, MAX_OBJECT_SIZE in *; lia).
  rewrite read_bytes_take by lia. cbn [mbind option_bind].
  set (al2 := l_evict sz (l_remove_key k al)) in *.
  set (bytes := take (Z.to_nat sz) payload).
  set (d := fresh (dom (bufs s2))).
  set (e := fresh (dom (nodes s2))).
  pose proof (inv_rep _ _ Hi2) as Hr2.
  assert (nodes s2 !! e = None) as He.
  { apply not_elem_of_dom. apply is_fresh. }
  assert (bufs s2 !! d = None) as Hd.
  { apply not_elem_of_dom. apply is_fresh. }
  pose proof (inv_bytes_nonneg _ _ Hi2) as Hnn.
  assert (int_add (cache_bytes s2) sz = cache_bytes s2 + sz) as Hadd.
  { unfold int_add. apply wrap_int_id. unfold in_int.
    unfold MAX_CACHE_SIZE, MAX_OBJECT_SIZE in *. lia. }
  pose proof (rep_push s2 al2 e d k bytes sz (cache_bytes s2 + sz) Hr2 He Hd)
    as Hr'.
  exists (mk_state
            (link_prev (cache_head s2) (Some e)
               (<[e := mk_entry k d sz None (cache_head s2)]> (nodes s2)))
            (<[d := bytes]> (bufs s2)) (Some e)
            (match cache_tail s2 with Some t => Some t | None => Some e end)
            (cache_bytes s2 + sz)), e, d.
  cbn zeta. split; [|split].
  - unfold alloc_buf, alloc_node.
    cbn [fst snd bufs nodes cache_head set_bufs set_nodes].
    fold d. fold e.
    destruct (cache_head s2) as [h|] eqn:Hh.
    + rewrite (store_is_Some _ h).
      * cbn [mbind option_bind]. setters.
        destruct (cache_tail s2); simpl; by rewrite Hadd.
      * cbn [nodes set_nodes]. rewrite lookup_insert_ne.
        -- apply (dll_dom _ _ (rep_dll _ _ Hr2)).
           rewrite (dll_head _ _ (rep_dll _ _ Hr2)) in Hh.
           by apply head_Some_elem_of.
        -- intros <-.
           rewrite (dll_head _ _ (rep_dll _ _ Hr2)) in Hh.
           apply head_Some_elem_of in Hh.
           apply (dll_dom _ _ (rep_dll _ _ Hr2)) in Hh.
           rewrite He in Hh. by destruct Hh.
    + cbn [mbind option_bind]. setters.
      destruct (cache_tail s2); simpl; by rewrite Hadd.
  - constructor.
    + exact Hr'.
    + rewrite fmap_cons. cbn [akey]. apply NoDup_cons.
      split; [|apply (inv_keys _ _ Hi2)].
      intros (a & Heq & Ha)%list_elem_of_fmap.
      apply (l_remove_key_notin k al (inv_keys _ _ Hi) a); [|done].
      by apply (l_evict_elem sz).
    + intros a [->|Ha]%elem_of_cons; [|by apply (inv_sizes _ _ Hi2)].
      cbn [asize abytes]. split; [done|]. unfold bytes.
      rewrite length_take. lia.
    + cbn [cache_bytes total_size foldr asize].
      fold (total_size al2). rewrite <- (inv_bytes _ _ Hi2). lia.
    + cbn [cache_bytes]. lia.
  - intros c Hc. destruct (Hout1 c Hc) as [Hc1 Heq1].
    destruct (Hout2 c Hc1) as [Hc2 Heq2].
    assert (c ≠ d) as Hcd.
    { intros ->. destruct Hc2 as [[? Hc2] _]. congruence. }
    cbn [bufs]. rewrite lookup_insert_ne by done.
    split; [|congruence]. split.
    + cbn [bufs]. rewrite lookup_insert_ne by done. apply Hc2.
    + rewrite fmap_cons. cbn [adata]. intros [?|Hin]%elem_of_cons; [done|].
      by apply Hc2.
Qed.

End inv_lemmas.

(** *** Sequences of operations *)

Section run_lemmas.
Implicit Types (s : state) (al : list aentry).

(** [cache_insert] refuses the payload: nothing happens, whatever the state. *)
Lemma cache_insert_refused s k buf sz :
  sz <= 0 ∨ sz > MAX_OBJECT_SIZE → cache_insert k buf sz s = Some s.
Proof. intros H. unfold cache_insert. by rewrite decide_True. Qed.

Lemma l_remove_key_data k al d :
  d ∈ adata <$> l_remove_key k al → d ∈ adata <$> al.
Proof. apply fmap_remove_key_subseteq. Qed.

(** One operation on a cache in its invariant: it is defined, the invariant
    holds again, and no buffer outside the cache has been touched. *)
Lemma inv_step s al o :
  inv s al → op_ok o →
  ∃ s' al', step o s = Some s' ∧ inv s' al'
            ∧ (∀ c, outside s al c →
                    outside s' al' c ∧ bufs s' !! c = bufs s !! c).
Proof.
  intros Hi Hok. destruct o as [k|k buf sz]; simpl in *.
  - destruct (l_find k al) as [a|] eqn:Hf.
    + destruct (cache_get_copy_hit s al k a Hi Hf) as (s' & Hs' & Hi' & Hb').
      exists s', (a :: l_remove_key k al). rewrite Hs'. split; [done|].
      split; [done|]. intros c Hc.
      assert (c ≠ fresh (dom (bufs s))) as Hne.
      { intros ->. destruct Hc as [Hc _]. apply elem_of_dom in Hc.
        by apply is_fresh in Hc. }
      assert (bufs s' !! c = bufs s !! c) as Heq
        by (by rewrite Hb', lookup_insert_ne).
      split; [|done]. eapply outside_weaken; [done| |done].
      intros d. rewrite fmap_cons. intros [->|Hd]%elem_of_cons.
      * apply list_elem_of_fmap_2.
        destruct (l_find_Some _ _ _ Hf) as (al1 & al2 & -> & _).
        apply elem_of_middle.
      * by apply l_remove_key_data in Hd.
    + rewrite (cache_get_copy_miss s al k (inv_rep _ _ Hi) Hf).
      exists s, al. done.
  - destruct (decide (sz <= 0 ∨ sz > MAX_OBJECT_SIZE)) as [Hr|Hr].
    + rewrite cache_insert_refused by done. exists s, al. done.
    + destruct (cache_insert_spec s al k buf sz Hi) as (s' & e & d & Hs' & Hi' & Hout);
        [lia|done|].
      eexists s', _. done.
Qed.

Lemma inv_run ops : ∀ s al,
  inv s al → Forall op_ok ops →
  ∃ s' al', run ops s = Some s' ∧ inv s' al'
            ∧ (∀ c, outside s al c →
                    outside s' al' c ∧ bufs s' !! c = bufs s !! c).
Proof.
  induction ops as [|o ops IH]; intros s al Hi Hok.
  - exists s, al. done.
  - apply Forall_cons in Hok as [Ho Hok].
    destruct (inv_step s al o Hi Ho) as (s1 & al1 & Hs1 & Hi1 & Hout1).
    destruct (IH s1 al1 Hi1 Hok) as (s' & al' & Hs' & Hi' & Hout').
    exists s', al'. simpl. rewrite Hs1. simpl. split; [done|]. split; [done|].
    intros c Hc. destruct (Hout1 c Hc) as [Hc1 Heq1].
    destruct (Hout' c Hc1) as [Hc' Heq']. split; [done|]. congruence.
Qed.

(** Every state the cache can be in satisfies the invariant. *)
Lemma reachable_inv s : reachable s → ∃ al, inv s al.
Proof.
  intros (ops & Hok & Hrun).
  destruct (inv_run ops init [] inv_init Hok) as (s' & al' & Hs' & Hi' & _).
  exists al'. congruence.
Qed.

Lemma run_app ops1 ops2 s :
  run (ops1 ++ ops2) s = s' ← run ops1 s; run ops2 s'.
Proof.
  revert s. induction ops1 as [|o ops1 IH]; intros s; simpl; [done|].
  destruct (step o s) as [s1|]; simpl; [apply IH|done].
Qed.

Lemma reachable_run s ops s' :
  reachable s → Forall op_ok ops → run ops s = Some s' → reachable s'.
Proof.
  intros (ops0 & Hok0 & Hrun0) Hok Hrun. exists (ops0 ++ ops). split.
  - by apply Forall_app.
  - by rewrite run_app, Hrun0.
Qed.

Lemma rep_owned s al : rep s al → owned s = adata <$> al.
Proof.
  intros Hr. unfold owned. rewrite (dll_cache_list _ _ (rep_dll _ _ Hr)).
  assert (∀ l : list aentry, (∀ a, a ∈ l → a ∈ al) →
            omap (λ p, data <$> nodes s !! p) (aptr <$> l) = adata <$> l) as H.
  { induction l as [|a l IH]; intros Hl; [done|].
    rewrite !fmap_cons. cbn [omap list_omap].
    destruct (rep_node _ _ Hr a) as (n & -> & [= _ Hd _]); [apply Hl; by left|].
    cbn [fmap option_fmap option_map]. rewrite Hd. f_equal.
    apply IH. intros b Hb. apply Hl. by right. }
  by apply H.
Qed.

End run_lemmas.

(** *** The C code against the cache of the specification *)

Section refinement.
Implicit Types (s : state) (al : list aentry).

Lemma find_to_view k al :
  Spec.find k (to_view <$> al) = to_view <$> l_find k al.
Proof.
  induction al as [|a al IH]; [done|].
  rewrite fmap_cons. cbn [Spec.find l_find to_view vkey].
  destruct (decide (akey a = k)); [done|apply IH].
Qed.

Lemma remove_to_view k al :
  Spec.remove k (to_view <$> al) = to_view <$> l_remove_key k al.
Proof.
  induction al as [|a al IH]; [done|].
  rewrite fmap_cons. cbn [Spec.remove l_remove_key to_view vkey].
  destruct (decide (akey a = k)); [done|].
  rewrite fmap_cons. f_equal. apply IH.
Qed.

Lemma evict_rev_to_view needed rl : ∀ bytes,
  Spec.evict_rev needed bytes (to_view <$> rl)
  = to_view <$> l_evict_rev needed bytes rl.
Proof.
  induction rl as [|a rl IH]; intros bytes; [done|].
  rewrite fmap_cons. cbn [Spec.evict_rev l_evict_rev to_view vsize].
  destruct (decide (bytes + needed <= MAX_CACHE_SIZE)),
           (decide (bytes + needed > MAX_CACHE_SIZE)); try lia.
  - by rewrite fmap_cons.
  - apply IH.
Qed.

Lemma evict_to_view needed al :
  Spec.evict needed (to_view <$> al) = to_view <$> l_evict needed al.
Proof.
  unfold Spec.evict, l_evict.
  rewrite sum_sizes_to_view, <- fmap_reverse, evict_rev_to_view.
  by rewrite fmap_reverse.
Qed.

Lemma take_length_all (p : list byte) : take (Z.to_nat (Z.of_nat (length p))) p = p.
Proof. by rewrite Nat2Z.id, firstn_all. Qed.

(** [cache_insert] of a whole buffer does what the specification says of
    [insert]. *)
Lemma insert_refines s al k p :
  inv s al →
  ∃ s' al', insert k p s = Some s' ∧ inv s' al'
            ∧ entries s' = Spec.insert k p (entries s).
Proof.
  intros Hi. unfold insert, Spec.insert, len.
  rewrite (rep_entries _ _ (inv_rep _ _ Hi)).
  destruct (decide (Z.of_nat (length p) = 0 ∨ Z.of_nat (length p) > MAX_OBJECT_SIZE))
    as [Hr|Hr].
  - rewrite cache_insert_refused by lia. exists s, al.
    by rewrite (rep_entries _ _ (inv_rep _ _ Hi)).
  - destruct (cache_insert_spec s al k p (Z.of_nat (length p)) Hi)
      as (s' & e & d & Hs' & Hi' & _); [lia|lia|].
    cbn zeta in *. rewrite take_length_all in Hi'.
    eexists s', _. split; [done|]. split; [done|].
    rewrite (rep_entries _ _ (inv_rep _ _ Hi')).
    rewrite remove_to_view, evict_to_view, sum_sizes_to_view.
    pose proof (inv_bytes _ _ Hi') as Hb. pose proof (inv_bound _ _ Hi') as Hm.
    cbn [total_size foldr asize] in Hb.
    fold (total_size (l_evict (Z.of_nat (length p)) (l_remove_key k al))) in Hb.
    rewrite decide_True by lia. done.
Qed.

(** [cache_get_copy] does what the specification says of [lookup]. *)
Lemma lookup_refines s al k :
  inv s al →
  ∃ s' al', lookup k s = Some (fst (Spec.lookup k (entries s)), s')
            ∧ inv s' al'
            ∧ entries s' = snd (Spec.lookup k (entries s)).
Proof.
  intros Hi. unfold lookup, Spec.lookup.
  rewrite (rep_entries _ _ (inv_rep _ _ Hi)), find_to_view.
  destruct (l_find k al) as [a|] eqn:Hf; cbn [fmap option_fmap option_map].
  - destruct (cache_get_copy_hit s al k a Hi Hf) as (s' & Hs' & Hi' & Hb').
    exists s', (a :: l_remove_key k al). rewrite Hs'. cbn [mbind option_bind].
    rewrite Hb', lookup_insert_eq. cbn [mbind option_bind fst snd].
    destruct (l_find_Some _ _ _ Hf) as (al1 & al2 & Hal & _).
    destruct (inv_sizes _ _ Hi a) as [_ Hlen];
      [rewrite Hal; apply elem_of_middle|].
    rewrite <- Hlen, take_length_all. split; [done|]. split; [done|].
    rewrite (rep_entries _ _ (inv_rep _ _ Hi')).
    by rewrite remove_to_view, fmap_cons.
  - rewrite (cache_get_copy_miss s al k (inv_rep _ _ Hi) Hf).
    exists s, al. cbn [mbind option_bind fst snd]. split; [done|].
    split; [done|]. apply (rep_entries _ _ (inv_rep _ _ Hi)).
Qed.

End refinement.

(** *** Facts on the cache of the specification *)

Section spec_lemmas.
Implicit Types (l : list entry_view).

Lemma sum_sizes_app l1 l2 : sum_sizes (l1 ++ l2) = sum_sizes l1 + sum_sizes l2.
Proof. induction l1 as [|e l1 IH]; simpl; [done|]. rewrite IH. lia. Qed.

Lemma sum_sizes_reverse l : sum_sizes (reverse l) = sum_sizes l.
Proof.
  induction l as [|e l IH]; [done|].
  rewrite reverse_cons, sum_sizes_app, IH. simpl. lia.
Qed.

(** Eviction drops entries from the tail end only, each of them because the
    payload did not fit yet, and stops when it fits or nothing is left. *)
Lemma evict_rev_split needed rl : ∀ total,
  ∃ dropped,
    rl = dropped ++ Spec.evict_rev needed total rl
    ∧ (∀ d1 e d2, dropped = d1 ++ e :: d2 →
                  total - sum_sizes d1 + needed > MAX_CACHE_SIZE)
    ∧ (Spec.evict_rev needed total rl = []
       ∨ total - sum_sizes dropped + needed <= MAX_CACHE_SIZE).
Proof.
  induction rl as [|e rl IH]; intros total; simpl.
  - exists []. split; [done|]. split; [|by left].
    intros d1 e d2 H. by destruct d1.
  - destruct (decide (total + needed <= MAX_CACHE_SIZE)) as [Hfit|Hfit].
    + exists []. split; [done|]. split; [|right; simpl; lia].
      intros d1 e' d2 H. by destruct d1.
    + destruct (IH (total - vsize e)) as (dropped & Hrl & Hmin & Hend).
      exists (e :: dropped). split; [simpl; by rewrite <- Hrl|]. split.
      * intros d1 e' d2 H. destruct d1 as [|e0 d1]; simpl in *.
        -- lia.
        -- injection H as -> ->. specialize (Hmin d1 e' d2 eq_refl). lia.
      * destruct Hend as [?|?]; [by left|right; simpl; lia].
Qed.

Lemma evict_split needed l :
  ∃ evicted,
    l = Spec.evict needed l ++ evicted
    ∧ (∀ e rest, evicted = e :: rest →
                 sum_sizes (Spec.evict needed l ++ [e]) + needed
                 > MAX_CACHE_SIZE)
    ∧ (Spec.evict needed l = []
       ∨ sum_sizes (Spec.evict needed l) + needed <= MAX_CACHE_SIZE).
Proof.
  unfold Spec.evict.
  destruct (evict_rev_split needed (reverse l) (sum_sizes l))
    as (dropped & Hrl & Hmin & Hend).
  set (r := Spec.evict_rev needed (sum_sizes l) (reverse l)) in *.
  assert (l = reverse r ++ reverse dropped) as Hl.
  { by rewrite <- reverse_app, <- Hrl, reverse_involutive. }
  assert (sum_sizes l = sum_sizes r + sum_sizes dropped) as Hsum.
  { rewrite Hl at 1. rewrite sum_sizes_app, !sum_sizes_reverse. done. }
  exists (reverse dropped). split; [done|]. split.
  - intros e rest He.
    assert (dropped = reverse rest ++ [e]) as Hd.
    { rewrite <- (reverse_involutive dropped), He. by rewrite reverse_cons. }
    specialize (Hmin (reverse rest) e [] Hd).
    rewrite sum_sizes_reverse in Hmin.
    rewrite sum_sizes_app, sum_sizes_reverse. simpl.
    rewrite Hd, sum_sizes_app, sum_sizes_reverse in Hsum. simpl in Hsum. lia.
  - destruct Hend as [Hr|Hfit].
    + left. by rewrite Hr.
    + right. rewrite sum_sizes_reverse. lia.
Qed.

(** The tail alone is evicted when that is enough. *)
Lemma evict_one needed front e :
  sum_sizes (front ++ [e]) + needed > MAX_CACHE_SIZE →
  sum_sizes front + needed <= MAX_CACHE_SIZE →
  Spec.evict needed (front ++ [e]) = front.
Proof.
  intros Hgt Hle. unfold Spec.evict.
  rewrite reverse_app. simpl.
  rewrite decide_False by lia.
  rewrite sum_sizes_app. simpl.
  replace (sum_sizes front + (vsize e + 0) - vsize e) with (sum_sizes front)
    by lia.
  destruct (reverse front) as [|e' rl] eqn:Hrev.
  - simpl. by rewrite <- (reverse_involutive front), Hrev.
  - simpl. rewrite decide_True by lia.
    by rewrite <- Hrev, reverse_involutive.
Qed.

Lemma find_None_remove k l : Spec.find k l = None → Spec.remove k l = l.
Proof.
  induction l as [|e l IH]; simpl; [done|].
  destruct (decide (vkey e = k)); [done|]. intros H. by rewrite IH.
Qed.

Lemma find_Some_key k l e : Spec.find k l = Some e → vkey e = k.
Proof.
  induction l as [|e' l IH]; simpl; [done|].
  destruct (decide (vkey e' = k)); [congruence|done].
Qed.

End spec_lemmas.

End CacheProofs.

(** * The properties of the object cache *)

Module CacheClaims.
Import Cache CacheProofs.

Section claims.
Implicit Types (s : state) (k : string) (p : list byte).

(** C1, cache accounting invariant.  Starting from the empty cache, after any
    sequence of lookups and inserts (each insert on a buffer that holds the
    bytes it announces) the operations have all completed, the sizes of the
    entries reached from [cache_head] add up to [cache_bytes], and
    [cache_bytes] is at most [MAX_CACHE_SIZE]. *)
Theorem cache_accounting (ops : list op) :
  Forall op_ok ops →
  ∃ s, run ops init = Some s
       ∧ sum_sizes (entries s) = cache_bytes s
       ∧ cache_bytes s <= MAX_CACHE_SIZE.
Proof.
  intros Hok.
  destruct (inv_run ops init [] inv_init Hok) as (s & al & Hs & Hi & _).
  exists s. split; [done|]. split.
  - rewrite (rep_entries _ _ (inv_rep _ _ Hi)), sum_sizes_to_view.
    symmetry. apply (inv_bytes _ _ Hi).
  - apply (inv_bound _ _ Hi).
Qed.

(** C5, no-op on refusal.  When the announced size is zero (or negative) or
    exceeds [MAX_OBJECT_SIZE], [cache_insert] returns the state it was given:
    same nodes, same buffers, same head and tail, same [cache_bytes]. *)
Theorem insert_refused_noop s k p :
  len p = 0 ∨ len p > MAX_OBJECT_SIZE → insert k p s = Some s.
Proof. intros H. apply cache_insert_refused. unfold len in *. lia. Qed.

(** C10, accepted inserts always complete.  On a reachable cache, for a
    payload of size in (0, MAX_OBJECT_SIZE]: the removal loop and the eviction
    loop both end, after them the payload fits, the test
    [size > MAX_CACHE_SIZE] that abandons the insert is false, and
    [cache_insert] ends with the new entry at the head of the list and
    [cache_bytes] increased by its size. *)
Theorem accepted_insert_completes s k p :
  reachable s → 0 < len p <= MAX_OBJECT_SIZE →
  ∃ s1 s2 s',
    remove_key_loop (base.size (nodes s)) k (cache_head s) s = Some s1
    ∧ cache_evict_until_fit (len p) s1 = Some s2
    ∧ cache_bytes s2 + len p <= MAX_CACHE_SIZE
    ∧ ¬ (len p > MAX_CACHE_SIZE)
    ∧ insert k p s = Some s'
    ∧ head (entries s') = Some (mk_view k p (len p))
    ∧ cache_bytes s' = cache_bytes s2 + len p.
Proof.
  intros Hreach Hlen. unfold insert, len in *.
  destruct (reachable_inv s Hreach) as [al Hi].
  destruct (inv_remove_key s al k Hi) as (s1 & Hs1 & Hi1 & _).
  destruct (inv_evict s1 _ _ Hi1 Hlen) as (s2 & Hs2 & Hi2 & Hfit & _).
  destruct (cache_insert_spec s al k p _ Hi Hlen)
    as (s' & e & d & Hs' & Hi' & _); [lia|].
  cbn zeta in *. rewrite take_length_all in Hi'.
  exists s1, s2, s'. repeat split; try done.
  - unfold MAX_CACHE_SIZE, MAX_OBJECT_SIZE in *. lia.
  - by rewrite (rep_entries _ _ (inv_rep _ _ Hi')), fmap_cons.
  - rewrite (inv_bytes _ _ Hi'), (inv_bytes _ _ Hi2). simpl. lia.
Qed.

(** C2, round-trip fidelity.  On a reachable cache, for a payload [p] of size
    in (0, MAX_OBJECT_SIZE]: [insert(k, p)] completes, the [lookup(k)] that
    follows is a hit with the size and the bytes of [p], and the bytes come
    in a buffer of their own: its address [c] is not the buffer of any entry
    of the cache, the entry still holds [p], and whatever operations the cache
    performs afterwards (evicting the entry included) the buffer at [c] is
    neither freed nor changed. *)
Theorem round_trip s k p :
  reachable s → 0 < len p <= MAX_OBJECT_SIZE →
  ∃ s1 s2 c,
    insert k p s = Some s1
    ∧ cache_get_copy k s1 = Some (Some (c, len p), s2)
    ∧ lookup k s1 = Some (Some p, s2)
    ∧ bufs s2 !! c = Some p
    ∧ (c ∉ owned s2)
    ∧ head (entries s2) = Some (mk_view k p (len p))
    ∧ ∀ ops, Forall op_ok ops →
        ∃ s3, run ops s2 = Some s3 ∧ bufs s3 !! c = Some p.
Proof.
  intros Hreach Hlen. unfold insert, len in *.
  destruct (reachable_inv s Hreach) as [al Hi].
  destruct (cache_insert_spec s al k p _ Hi Hlen)
    as (s1 & e & d & Hs1 & Hi1 & _); [lia|].
  cbn zeta in *. rewrite take_length_all in Hi1.
  set (new := mk_a e k d p (Z.of_nat (length p))) in *.
  set (rest := l_evict (Z.of_nat (length p)) (l_remove_key k al)) in *.
  assert (l_find k (new :: rest) = Some new) as Hf.
  { simpl. by rewrite decide_True. }
  destruct (cache_get_copy_hit s1 _ k new Hi1 Hf) as (s2 & Hs2 & Hi2 & Hb2).
  assert (l_remove_key k (new :: rest) = rest) as Hrm.
  { simpl. by rewrite decide_True. }
  rewrite Hrm in Hi2. cbn [asize abytes new] in Hs2, Hb2.
  set (c := fresh (dom (bufs s1))) in *.
  assert (bufs s2 !! c = Some p) as Hc by (by rewrite Hb2, lookup_insert_eq).
  assert (outside s2 (new :: rest) c) as Hout.
  { split; [rewrite Hc; eauto|].
    intros (a & Heq & Ha)%list_elem_of_fmap.
    by apply (rep_fresh_buf s1 _ a (inv_rep _ _ Hi1) Ha). }
  exists s1, s2, c. split; [done|]. split; [done|]. split.
  { unfold lookup. rewrite Hs2. cbn [mbind option_bind]. rewrite Hc.
    cbn [mbind option_bind]. by rewrite take_length_all. }
  split; [done|]. split.
  { rewrite (rep_owned _ _ (inv_rep _ _ Hi2)). apply Hout. }
  split.
  { by rewrite (rep_entries _ _ (inv_rep _ _ Hi2)), fmap_cons. }
  intros ops Hok.
  destruct (inv_run ops s2 _ Hi2 Hok) as (s3 & al3 & Hs3 & _ & Hout3).
  exists s3. split; [done|]. destruct (Hout3 c Hout) as [_ ->]. done.
Qed.

(** C3, strict LRU order.  On a reachable cache:
    - a lookup of a key that is present is a hit and moves the entry to the
      head, the other entries keeping their order; a lookup of a key that is
      absent changes nothing;
    - an accepted insert puts the new entry at the head; behind it are the
      entries [kept] of the former list (without the entry it replaces),
      where the entries [evicted] form the tail end of that list, each one
      evicted because the payload did not fit before it went, and eviction
      stopped as soon as the payload fitted or the list was empty;
    - in particular, when [A] is the tail, the key is new and evicting [A]
      alone makes room, the insert removes [A] and nothing else. *)
Theorem lru_order s :
  reachable s →
  (∀ k,
     match Spec.find k (entries s) with
     | Some e =>
       ∃ s' c, cache_get_copy k s = Some (Some (c, vsize e), s')
               ∧ entries s' = e :: Spec.remove k (entries s)
     | None => cache_get_copy k s = Some (None, s)
     end)
  ∧ (∀ k p, 0 < len p <= MAX_OBJECT_SIZE →
       ∃ s' kept evicted,
         insert k p s = Some s'
         ∧ entries s' = mk_view k p (len p) :: kept
         ∧ Spec.remove k (entries s) = kept ++ evicted
         ∧ (∀ e rest, evicted = e :: rest →
                      sum_sizes (kept ++ [e]) + len p > MAX_CACHE_SIZE)
         ∧ (kept = [] ∨ sum_sizes kept + len p <= MAX_CACHE_SIZE))
  ∧ (∀ k p front A, 0 < len p <= MAX_OBJECT_SIZE →
       Spec.find k (entries s) = None →
       entries s = front ++ [A] →
       sum_sizes (entries s) + len p > MAX_CACHE_SIZE →
       sum_sizes front + len p <= MAX_CACHE_SIZE →
       ∃ s', insert k p s = Some s'
             ∧ entries s' = mk_view k p (len p) :: front).
Proof.
  intros Hreach. destruct (reachable_inv s Hreach) as [al Hi].
  pose proof (rep_entries _ _ (inv_rep _ _ Hi)) as Hent.
  assert (∀ k p, 0 < len p <= MAX_OBJECT_SIZE →
            ∃ s', insert k p s = Some s'
                  ∧ entries s' = mk_view k p (len p)
                                 :: Spec.evict (len p) (Spec.remove k (entries s)))
    as Hins.
  { intros k p Hlen. unfold insert, len in *.
    destruct (cache_insert_spec s al k p _ Hi Hlen)
      as (s' & e & d & Hs' & Hi' & _); [lia|].
    cbn zeta in *. rewrite take_length_all in Hi'.
    exists s'. split; [done|].
    rewrite (rep_entries _ _ (inv_rep _ _ Hi')), Hent, fmap_cons.
    by rewrite remove_to_view, evict_to_view. }
  split; [|split].
  - intros k. rewrite Hent, find_to_view.
    destruct (l_find k al) as [a|] eqn:Hf; cbn [fmap option_fmap option_map].
    + destruct (cache_get_copy_hit s al k a Hi Hf) as (s' & Hs' & Hi' & _).
      exists s', (fresh (dom (bufs s))). split; [done|].
      rewrite (rep_entries _ _ (inv_rep _ _ Hi')), fmap_cons.
      by rewrite remove_to_view.
    + apply (cache_get_copy_miss s al); [apply (inv_rep _ _ Hi)|done].
  - intros k p Hlen. destruct (Hins k p Hlen) as (s' & Hs' & He').
    destruct (evict_split (len p) (Spec.remove k (entries s)))
      as (evicted & Hsplit & Hmin & Hend).
    exists s', (Spec.evict (len p) (Spec.remove k (entries s))), evicted.
    done.
  - intros k p front A Hlen Hfind Hfront Hgt Hle.
    destruct (Hins k p Hlen) as (s' & Hs' & He').
    exists s'. split; [done|].
    rewrite He', (find_None_remove _ _ Hfind), Hfront.
    rewrite evict_one; [done| |done]. by rewrite <- Hfront.
Qed.

Lemma filter_key_nil k (al : list aentry) :
  (∀ a, a ∈ al → akey a ≠ k) →
  filter (λ e, vkey e = k) (to_view <$> al) = [].
Proof.
  induction al as [|a al IH]; intros Hne; [done|].
  rewrite fmap_cons, filter_cons_False.
  - apply IH. intros b Hb. apply Hne. by right.
  - simpl. apply Hne. by left.
Qed.

(** C4, overwrite.  On a reachable cache, for payloads [p1] and [p2] of size
    in (0, MAX_OBJECT_SIZE]: after [insert(k, p1)] and [insert(k, p2)] the
    entries under [k] are exactly one, with the bytes and the size of [p2].
    The entry of [p1] was removed before eviction ran and before the new entry
    was created: eviction worked on the list without it, and [cache_bytes] is
    again the sum of the sizes of the entries there are. *)
Theorem overwrite s k p1 p2 :
  reachable s →
  0 < len p1 <= MAX_OBJECT_SIZE → 0 < len p2 <= MAX_OBJECT_SIZE →
  ∃ s1 s2 rest1,
    insert k p1 s = Some s1
    ∧ entries s1 = mk_view k p1 (len p1) :: rest1
    ∧ insert k p2 s1 = Some s2
    ∧ entries s2 = mk_view k p2 (len p2) :: Spec.evict (len p2) rest1
    ∧ filter (λ e, vkey e = k) (entries s2) = [mk_view k p2 (len p2)]
    ∧ sum_sizes (entries s2) = cache_bytes s2.
Proof.
  intros Hreach Hlen1 Hlen2. unfold insert, len in *.
  destruct (reachable_inv s Hreach) as [al Hi].
  destruct (cache_insert_spec s al k p1 _ Hi Hlen1)
    as (s1 & e1 & d1 & Hs1 & Hi1 & _); [lia|].
  cbn zeta in *. rewrite take_length_all in Hi1.
  set (rest1 := l_evict (Z.of_nat (length p1)) (l_remove_key k al)) in *.
  destruct (cache_insert_spec s1 _ k p2 _ Hi1 Hlen2)
    as (s2 & e2 & d2 & Hs2 & Hi2 & _); [lia|].
  cbn zeta in *. rewrite take_length_all in Hi2.
  cbn [l_remove_key akey] in Hi2. rewrite decide_True in Hi2 by done.
  exists s1, s2, (to_view <$> rest1).
  split; [done|]. split.
  { by rewrite (rep_entries _ _ (inv_rep _ _ Hi1)), fmap_cons. }
  split; [done|].
  pose proof (rep_entries _ _ (inv_rep _ _ Hi2)) as He2.
  rewrite fmap_cons in He2. rewrite He2. split.
  { by rewrite evict_to_view. }
  split.
  - rewrite filter_cons_True by done. f_equal.
    apply filter_key_nil. intros a Ha Hk.
    pose proof (inv_keys _ _ Hi2) as Hnd.
    rewrite fmap_cons in Hnd. apply NoDup_cons in Hnd as [Hnin _].
    apply Hnin. cbn [akey]. rewrite <- Hk. by apply list_elem_of_fmap_2.
  - rewrite <- fmap_cons, sum_sizes_to_view. symmetry.
    apply (inv_bytes _ _ Hi2).
Qed.

End claims.

(** *** The theorems at work on the small run *)

Lemma demo_ops_ok : Forall op_ok demo_ops.
Proof. repeat constructor; simpl; lia. Defined.

Lemma demo_reachable : reachable demo_state.
Proof. exists demo_ops. split; [exact demo_ops_ok|]. by vm_compute. Defined.

Example demo_entries :
  entries demo_state =
  [ mk_view "a.com:80/" [x41; x42; x43]%byte 3;
    mk_view "c.com:8080/x" [x46]%byte 1;
    mk_view "b.com:80/" [x44; x45]%byte 2 ].
Proof. by vm_compute. Qed.

Lemma cache_accounting_witness :
  Forall op_ok demo_ops
  ∧ ∃ s, run demo_ops init = Some s
         ∧ sum_sizes (entries s) = cache_bytes s
         ∧ cache_bytes s <= MAX_CACHE_SIZE.
Proof. split; [exact demo_ops_ok|apply cache_accounting, demo_ops_ok]. Defined.

Lemma insert_refused_noop_witness :
  (len [] = 0 ∨ len [] > MAX_OBJECT_SIZE)
  ∧ insert "a.com:80/" [] demo_state = Some demo_state.
Proof.
  split; [left; reflexivity|].
  apply insert_refused_noop. left. reflexivity.
Defined.

Lemma accepted_insert_completes_witness :
  reachable demo_state
  ∧ 0 < len [x47; x48]%byte <= MAX_OBJECT_SIZE
  ∧ ∃ s1 s2 s',
      remove_key_loop (base.size (nodes demo_state)) "b.com:80/"
        (cache_head demo_state) demo_state = Some s1
      ∧ cache_evict_until_fit (len [x47; x48]%byte) s1 = Some s2
      ∧ cache_bytes s2 + len [x47; x48]%byte <= MAX_CACHE_SIZE
      ∧ ¬ (len [x47; x48]%byte > MAX_CACHE_SIZE)
      ∧ insert "b.com:80/" [x47; x48]%byte demo_state = Some s'
      ∧ head (entries s') = Some (mk_view "b.com:80/" [x47; x48]%byte
                                    (len [x47; x48]%byte))
      ∧ cache_bytes s' = cache_bytes s2 + len [x47; x48]%byte.
Proof.
  split; [exact demo_reachable|].
  split; [by vm_compute|].
  apply accepted_insert_completes; [exact demo_reachable|by vm_compute].
Defined.

Lemma round_trip_witness :
  reachable demo_state
  ∧ 0 < len [x47; x48]%byte <= MAX_OBJECT_SIZE
  ∧ ∃ s1 s2 c,
      insert "d.com:80/" [x47; x48]%byte demo_state = Some s1
      ∧ cache_get_copy "d.com:80/" s1
        = Some (Some (c, len [x47; x48]%byte), s2)
      ∧ lookup "d.com:80/" s1 = Some (Some [x47; x48]%byte, s2)
      ∧ bufs s2 !! c = Some [x47; x48]%byte
      ∧ (c ∉ owned s2)
      ∧ head (entries s2)
        = Some (mk_view "d.com:80/" [x47; x48]%byte (len [x47; x48]%byte))
      ∧ ∀ ops, Forall op_ok ops →
          ∃ s3, run ops s2 = Some s3 ∧ bufs s3 !! c = Some [x47; x48]%byte.
Proof.
  split; [exact demo_reachable|].
  split; [by vm_compute|].
  apply round_trip; [exact demo_reachable|by vm_compute].
Defined.

Lemma lru_order_witness :
  reachable demo_state
  ∧ (∀ k,
       match Spec.find k (entries demo_state) with
       | Some e =>
         ∃ s' c, cache_get_copy k demo_state = Some (Some (c, vsize e), s')
                 ∧ entries s' = e :: Spec.remove k (entries demo_state)
       | None => cache_get_copy k demo_state = Some (None, demo_state)
       end)
  ∧ (∀ k p, 0 < len p <= MAX_OBJECT_SIZE →
       ∃ s' kept evicted,
         insert k p demo_state = Some s'
         ∧ entries s' = mk_view k p (len p) :: kept
         ∧ Spec.remove k (entries demo_state) = kept ++ evicted
         ∧ (∀ e rest, evicted = e :: rest →
                      sum_sizes (kept ++ [e]) + len p > MAX_CACHE_SIZE)
         ∧ (kept = [] ∨ sum_sizes kept + len p <= MAX_CACHE_SIZE))
  ∧ (∀ k p front A, 0 < len p <= MAX_OBJECT_SIZE →
       Spec.find k (entries demo_state) = None →
       entries demo_state = front ++ [A] →
       sum_sizes (entries demo_state) + len p > MAX_CACHE_SIZE →
       sum_sizes front + len p <= MAX_CACHE_SIZE →
       ∃ s', insert k p demo_state = Some s'
             ∧ entries s' = mk_view k p (len p) :: front).
Proof. split; [exact demo_reachable|apply lru_order, demo_reachable]. Defined.

Lemma overwrite_witness :
  reachable demo_state
  ∧ 0 < len [x47; x48]%byte <= MAX_OBJECT_SIZE
  ∧ 0 < len [x49]%byte <= MAX_OBJECT_SIZE
  ∧ ∃ s1 s2 rest1,
      insert "b.com:80/" [x47; x48]%byte demo_state = Some s1
      ∧ entries s1
        = mk_view "b.com:80/" [x47; x48]%byte (len [x47; x48]%byte) :: rest1
      ∧ insert "b.com:80/" [x49]%byte s1 = Some s2
      ∧ entries s2
        = mk_view "b.com:80/" [x49]%byte (len [x49]%byte)
          :: Spec.evict (len [x49]%byte) rest1
      ∧ filter (λ e, vkey e = "b.com:80/") (entries s2)
        = [mk_view "b.com:80/" [x49]%byte (len [x49]%byte)]
      ∧ sum_sizes (entries s2) = cache_bytes s2.
Proof.
  split; [exact demo_reachable|].
  split; [by vm_compute|]. split; [by vm_compute|].
  apply overwrite; [exact demo_reachable|by vm_compute|by vm_compute].
Defined.

(** The overwrite, computed: the entry under the key is replaced and moves to
    the head, the two other entries stay. *)
Example demo_overwrite :
  entries <$> (s1 ← insert "b.com:80/" [x47; x48]%byte demo_state;
               insert "b.com:80/" [x49]%byte s1)
  = Some [ mk_view "b.com:80/" [x49]%byte 1;
           mk_view "a.com:80/" [x41; x42; x43]%byte 3;
           mk_view "c.com:8080/x" [x46]%byte 1 ].
Proof. by vm_compute. Qed.

(** Eviction, computed on the full cache.  After the ten inserts [A] is the
    tail.  An object of 30,000 bytes does not fit (1,024,000 + 30,000 exceeds
    1,049,000) and fits once one entry is gone: the insert evicts [A] and
    nothing else.  When [A] is looked up first, it is the head, and the same
    insert evicts [B]. *)
Example demo_eviction :
  summary <$> run fill_ops init
  = Some ([("J", 102400); ("I", 102400); ("H", 102400); ("G", 102400);
           ("F", 102400); ("E", 102400); ("D", 102400); ("C", 102400);
           ("B", 102400); ("A", 102400)], 1024000)
  ∧ summary <$> run (fill_ops ++ [Insert "new" (full_object x2b) 30000]) init
    = Some ([("new", 30000);
             ("J", 102400); ("I", 102400); ("H", 102400); ("G", 102400);
             ("F", 102400); ("E", 102400); ("D", 102400); ("C", 102400);
             ("B", 102400)], 951600)
  ∧ summary <$> run (fill_ops ++ [Lookup "A";
                                  Insert "new" (full_object x2b) 30000]) init
    = Some ([("new", 30000); ("A", 102400);
             ("J", 102400); ("I", 102400); ("H", 102400); ("G", 102400);
             ("F", 102400); ("E", 102400); ("D", 102400); ("C", 102400)],
            951600).
Proof. split; [|split]; vm_compute; reflexivity. Qed.

End CacheClaims.

(** * Proofs: the string functions *)

Module HttpProofs.
Import Http.

Local Open Scope string_scope.
Local Open Scope nat_scope.

Section string_lemmas.
Implicit Types (s t : string) (c : ascii) (n : nat).

Lemma stake_all n s : String.length s ≤ n → stake n s = s.
Proof.
  revert n. induction s as [|c s IH]; intros n Hn; destruct n; simpl in *;
    try done; try lia.
  f_equal. apply IH. lia.
Qed.

Lemma append_cons c s t : String c s ++ t = String c (s ++ t).
Proof. reflexivity. Qed.

Lemma append_nil t : "" ++ t = t.
Proof. reflexivity. Qed.

Lemma length_app s t :
  String.length (s ++ t) = String.length s + String.length t.
Proof.
  induction s as [|c s IH]; [done|].
  rewrite append_cons; cbn [String.length]. by rewrite IH.
Qed.

Lemma app_empty_r s : s ++ "" = s.
Proof. induction s as [|c s IH]; [done|]. rewrite !append_cons. by f_equal. Qed.

Lemma app_assoc s t u : (s ++ t) ++ u = s ++ t ++ u.
Proof. induction s as [|c s IH]; [done|]. rewrite !append_cons. by f_equal. Qed.

Lemma stake_app_length s t : stake (String.length s) (s ++ t) = s.
Proof.
  induction s as [|c s IH]; [by destruct t|].
  rewrite append_cons; cbn [String.length stake]. by f_equal.
Qed.

Lemma sdrop_app_length s t : sdrop (String.length s) (s ++ t) = t.
Proof.
  induction s as [|c s IH]; [by destruct t|].
  rewrite append_cons; cbn [String.length sdrop]. done.
Qed.

Lemma strchr_app_None s t c :
  strchr s c = None →
  strchr (s ++ t) c = (λ i, String.length s + i) <$> strchr t c.
Proof.
  induction s as [|d s IH].
  - intros _. rewrite append_nil. by destruct (strchr t c).
  - rewrite append_cons. cbn [strchr String.length].
    destruct (Ascii.eqb d c); [done|].
    destruct (strchr s c) eqn:Hs; [done|]. intros _.
    rewrite IH by done. by destruct (strchr t c).
Qed.

Lemma strchr_first s c : first_is s c = true → strchr s c = Some 0.
Proof. destruct s as [|d s]; simpl; [done|]. by intros ->. Qed.

Lemma first_is_app s t c :
  first_is (s ++ t) c = match s with "" => first_is t c | _ => first_is s c end.
Proof. destruct s; reflexivity. Qed.

Lemma strchr_None_first s c : strchr s c = None → first_is s c = false.
Proof.
  destruct s as [|d s]; simpl; [done|]. by destruct (Ascii.eqb d c).
Qed.

(** A string that equals ["http://"] up to case is a prefix
    [starts_with_icase] accepts, seven characters long. *)
Lemma strcasecmp_eq_prefix scheme pre rest :
  strcasecmp_eq scheme pre = true →
  starts_with_icase (scheme ++ rest) pre = true
  ∧ String.length scheme = String.length pre.
Proof.
  revert pre. induction scheme as [|c scheme IH]; intros [|d pre];
    rewrite ?append_cons, ?append_nil; cbn [strcasecmp_eq starts_with_icase];
    try done.
  intros [Hc Hs]%andb_prop. rewrite Hc.
  destruct (IH pre Hs) as [-> Hl]. simpl. by rewrite Hl.
Qed.

End string_lemmas.

(** C6, the URI parsing table.  Whatever [MAXLINE] is, from 32 on (it is 8192
    in CS:APP's [csapp.h]), the target of the request line, completed from the
    [Host] header buffer as [forward_request] does it, is:
    - ["http://example.com/index.html"] with no [Host] header (the header
      buffer stays empty): host [example.com], port [80], path [/index.html];
    - ["example.com:8080/a/b"], whatever the header: host [example.com],
      port [8080], path [/a/b];
    - ["/relative"] with the header value [example.com:8080], bare or as
      [read_request_headers] captures it from the line (leading space and
      line terminator included): host [example.com], port [8080],
      path [/relative];
    - ["example.com"], whatever the header: host [example.com], port [80],
      path [/]. *)
Theorem uri_table (MAXLINE : nat) :
  32 ≤ MAXLINE →
  resolve MAXLINE "http://example.com/index.html" ""
  = Some (mk_target "example.com" "80" "/index.html")
  ∧ (∀ host_hdr, resolve MAXLINE "example.com:8080/a/b" host_hdr
                 = Some (mk_target "example.com" "8080" "/a/b"))
  ∧ resolve MAXLINE "/relative" "example.com:8080"
    = Some (mk_target "example.com" "8080" "/relative")
  ∧ resolve MAXLINE "/relative" (" example.com:8080" ++ CRLF)
    = Some (mk_target "example.com" "8080" "/relative")
  ∧ snd (fst (read_request_headers OTHER_HDRS_SIZE MAXLINE
                ["Host: example.com:8080" ++ CRLF; CRLF]))
    = " example.com:8080" ++ CRLF
  ∧ (∀ host_hdr, resolve MAXLINE "example.com" host_hdr
                 = Some (mk_target "example.com" "80" "/")).
Proof.
  intros Hmax.
  destruct (Nat.le_exists_sub 32 MAXLINE Hmax) as [m [-> _]].
  rewrite (Nat.add_comm m 32).
  repeat split; intros; reflexivity.
Qed.

Lemma uri_table_witness :
  32 ≤ csapp_MAXLINE
  ∧ resolve csapp_MAXLINE "http://example.com/index.html" ""
    = Some (mk_target "example.com" "80" "/index.html")
  ∧ (∀ host_hdr, resolve csapp_MAXLINE "example.com:8080/a/b" host_hdr
                 = Some (mk_target "example.com" "8080" "/a/b"))
  ∧ resolve csapp_MAXLINE "/relative" "example.com:8080"
    = Some (mk_target "example.com" "8080" "/relative")
  ∧ resolve csapp_MAXLINE "/relative" (" example.com:8080" ++ CRLF)
    = Some (mk_target "example.com" "8080" "/relative")
  ∧ snd (fst (read_request_headers OTHER_HDRS_SIZE csapp_MAXLINE
                ["Host: example.com:8080" ++ CRLF; CRLF]))
    = " example.com:8080" ++ CRLF
  ∧ (∀ host_hdr, resolve csapp_MAXLINE "example.com" host_hdr
                 = Some (mk_target "example.com" "80" "/")).
Proof.
  assert (32 ≤ csapp_MAXLINE) as H by (apply Nat.leb_le; vm_compute; reflexivity).
  split; [exact H|apply uri_table, H].
Defined.

(** C7 as the specification states it fails: on ["a:b:80/x"] the host and port
    segment is ["a:b:80"]; split on its last colon it would give host [a:b]
    and port [80], and [parse_uri] gives host [a] and port [b:80].  The same
    on the IPv6 literal of ["[::1]:8080/"]. *)
Lemma last_colon_split_counterexample :
  HttpSpec.split_last_colon "a:b:80" = ("a:b", Some "80")
  ∧ parse_uri csapp_MAXLINE "a:b:80/x" = mk_target "a" "b:80" "/x"
  ∧ (hostname (parse_uri csapp_MAXLINE "a:b:80/x"),
     Some (port (parse_uri csapp_MAXLINE "a:b:80/x")))
    ≠ HttpSpec.split_last_colon "a:b:80"
  ∧ HttpSpec.split_last_colon "[::1]:8080" = ("[::1]", Some "8080")
  ∧ parse_uri csapp_MAXLINE "http://[::1]:8080/" = mk_target "[" ":1]:8080" "/".
Proof.
  split; [reflexivity|]. split; [reflexivity|].
  split; [by vm_compute|]. split; reflexivity.
Qed.

(** The second half of [parse_uri], on a host and port segment with a
    colon: the split is at the first one. *)
Lemma split_hostport (MAXLINE : nat) (h pt pa : string) :
  strchr h ":" = None →
  String.length (h ++ ":" ++ pt) < MAXLINE →
  match strchr (h ++ ":" ++ pt) ":" with
  | Some j =>
    mk_target (stake (if MAXLINE <=? j then MAXLINE - 1 else j) (h ++ ":" ++ pt))
              (stake (MAXLINE - 1) (sdrop (S j) (h ++ ":" ++ pt)))
              pa
  | None => mk_target (stake (MAXLINE - 1) (h ++ ":" ++ pt)) "80" pa
  end = mk_target h pt pa.
Proof.
  intros Hhc Hlen.
  assert (strchr (h ++ ":" ++ pt) ":" = Some (String.length h)) as ->.
  { rewrite strchr_app_None by done. rewrite append_cons. simpl.
    f_equal. lia. }
  rewrite !length_app in Hlen. cbn [String.length] in Hlen.
  rewrite (proj2 (Nat.leb_gt _ _)) by lia.
  rewrite stake_app_length.
  replace (S (String.length h)) with (String.length (h ++ ":"))
    by (rewrite length_app; simpl; lia).
  rewrite <- (app_assoc h ":" pt), sdrop_app_length.
  rewrite stake_all by lia. done.
Qed.

(** C7, amended: the split is on the FIRST colon.  For every request target
    [scheme ++ h ++ ":" ++ pt ++ pa] that fits the line buffer, where [scheme]
    is ["http://"] in any case or absent, [h] has no colon and no slash, [pt]
    has no slash (it may have colons), and [pa] is empty or begins with a
    slash: the host name is [h], all that precedes the first colon; the port
    is [pt], all that follows it up to the path; the path is [pa], or [/] when
    there is none. *)
Theorem first_colon_split (MAXLINE : nat) (scheme h pt pa : string) :
  (strcasecmp_eq scheme "http://" = true
   ∨ (scheme = "" ∧ starts_with_icase (h ++ ":" ++ pt ++ pa) "http://" = false)) →
  strchr h ":" = None → strchr h "/" = None → strchr pt "/" = None →
  (pa = "" ∨ first_is pa "/" = true) →
  String.length (h ++ ":" ++ pt ++ pa) < MAXLINE →
  parse_uri MAXLINE (scheme ++ h ++ ":" ++ pt ++ pa)
  = mk_target h pt (match pa with "" => "/" | _ => pa end)
  ∧ HttpSpec.split_first_colon (h ++ ":" ++ pt) = (h, Some pt).
Proof.
  intros Hscheme Hhc Hhs Hpts Hpa Hlen. split.
  - unfold parse_uri.
    assert (h ++ ":" ++ pt ++ pa = (h ++ ":" ++ pt) ++ pa) as Hp
      by (by rewrite !app_assoc).
    rewrite Hp in *.
    set (hp := h ++ ":" ++ pt) in *.
    assert ((if starts_with_icase (scheme ++ hp ++ pa) "http://"
             then sdrop 7 (scheme ++ hp ++ pa) else scheme ++ hp ++ pa)
            = hp ++ pa) as ->.
    { destruct Hscheme as [Hs|[-> Hs]].
      - destruct (strcasecmp_eq_prefix scheme "http://" (hp ++ pa) Hs)
          as [-> Hl].
        change 7 with (String.length "http://"). rewrite <- Hl.
        apply sdrop_app_length.
      - by rewrite !append_nil, Hs. }
    assert (first_is (hp ++ pa) "/" = false) as ->.
    { unfold hp. rewrite app_assoc, first_is_app. destruct h; [done|].
      by apply strchr_None_first. }
    assert (strchr hp "/" = None) as Hhps.
    { unfold hp. rewrite strchr_app_None by done.
      rewrite append_cons, append_nil. cbn [strchr Ascii.eqb Bool.eqb].
      by rewrite Hpts. }
    rewrite length_app in Hlen.
    destruct Hpa as [->|Hpa].
    + rewrite app_empty_r, Hhps, stake_all by lia.
      apply split_hostport; [done|]. fold hp. simpl in Hlen. lia.
    + rewrite strchr_app_None, (strchr_first _ _ Hpa) by done.
      cbn [fmap option_fmap option_map]. rewrite Nat.add_0_r.
      rewrite (proj2 (Nat.leb_gt _ _)) by lia.
      rewrite stake_app_length, sdrop_app_length.
      rewrite (stake_all _ pa) by lia.
      subst hp.
      rewrite (split_hostport MAXLINE h pt pa Hhc) by lia.
      by destruct pa.
  - clear -Hhc. induction h as [|c h IH]; [done|].
    rewrite append_cons. cbn [HttpSpec.split_first_colon strchr] in *.
    destruct (Ascii.eqb c ":"); [done|].
    destruct (strchr h ":") eqn:Hs; [done|]. by rewrite IH.
Qed.

Lemma first_colon_split_witness :
  (strcasecmp_eq "HTTP://" "http://" = true
   ∨ ("HTTP://" = "" ∧ starts_with_icase ("a" ++ ":" ++ "b:80" ++ "/x") "http://" = false))
  ∧ strchr "a" ":" = None ∧ strchr "a" "/" = None ∧ strchr "b:80" "/" = None
  ∧ ("/x" = "" ∨ first_is "/x" "/" = true)
  ∧ String.length ("a" ++ ":" ++ "b:80" ++ "/x") < csapp_MAXLINE
  ∧ parse_uri csapp_MAXLINE ("HTTP://" ++ "a" ++ ":" ++ "b:80" ++ "/x")
    = mk_target "a" "b:80" "/x"
  ∧ HttpSpec.split_first_colon ("a" ++ ":" ++ "b:80") = ("a", Some "b:80").
Proof.
  assert (String.length ("a" ++ ":" ++ "b:80" ++ "/x") < csapp_MAXLINE) as H
    by (apply Nat.ltb_lt; vm_compute; reflexivity).
  repeat (split; [first [reflexivity | exact H | left; reflexivity
                        | right; reflexivity]|]).
  apply (first_colon_split csapp_MAXLINE "HTTP://" "a" "b:80" "/x");
    first [reflexivity | exact H | left; reflexivity | right; reflexivity].
Defined.

(** *** The header filter *)

Section header_lemmas.
Implicit Types (s t line : string) (c : ascii) (lines : list string).



Lemma length_sdrop n s : String.length (sdrop n s) ≤ String.length s.
Proof.
  revert n. induction s as [|c s IH]; intros [|n]; simpl; try lia.
  specialize (IH n). lia.
Qed.




End header_lemmas.





(** The example of the specification: of a block with [Host],
    [User-Agent], [Connection], [Proxy-Connection] and [Accept: text/html],
    only the [Accept] line is forwarded, and the value after [Host:] is
    captured. *)
Example demo_headers_filtered :
  read_request_headers OTHER_HDRS_SIZE csapp_MAXLINE demo_headers
  = ("Accept: text/html" ++ CRLF, " example.com" ++ CRLF, [])
  ∧ HttpSpec.kept (HttpSpec.header_block demo_headers)
    = ["Accept: text/html" ++ CRLF].
Proof. split; by vm_compute. Qed.

End HttpProofs.

(** * Proofs: the request handler *)

Module ProxyProofs.
Import Http Proxy.

Local Open Scope string_scope.

Section scan_lemmas.
Implicit Types (s buf : string) (c : ascii).

Lemma tokens_cons_nonspace c s :
  isspace c = false →
  HttpSpec.tokens (String c s)
  = match s with
    | EmptyString => [String c EmptyString]
    | String d _ =>
      if isspace d then String c EmptyString :: HttpSpec.tokens s
      else match HttpSpec.tokens s with
           | t :: ts => String c t :: ts
           | [] => [String c EmptyString]
           end
    end.
Proof. intros Hc. destruct s; simpl; by rewrite Hc. Qed.

(** A token that starts at a character that is not white space. *)
Lemma tokens_token s : ∀ c,
  isspace c = false →
  HttpSpec.tokens (String c s)
  = String c (fst (token s)) :: HttpSpec.tokens (snd (token s)).
Proof.
  induction s as [|d s IH]; intros c Hc.
  - simpl. by rewrite Hc.
  - rewrite tokens_cons_nonspace by done. cbn [token].
    destruct (isspace d) eqn:Hd; [done|].
    rewrite (IH d Hd). by destruct (token s).
Qed.

(** One [%s] reads the first token of the line and leaves what follows it. *)
Lemma scan_s_tokens s :
  match scan_s s with
  | None => HttpSpec.tokens s = []
  | Some (t, rest) => HttpSpec.tokens s = t :: HttpSpec.tokens rest
  end.
Proof.
  unfold scan_s. induction s as [|c s IH]; [done|].
  destruct (isspace c) eqn:Hc.
  - cbn [skip_while HttpSpec.tokens]. rewrite Hc. exact IH.
  - cbn [skip_while]. rewrite Hc, (tokens_token s c Hc).
    cbn [token]. rewrite Hc. by destruct (token s).
Qed.

(** [sscanf] returns 3 exactly when the line has three tokens or more, and
    then gives the first three. *)
Lemma sscanf3_tokens buf :
  sscanf3 buf = match HttpSpec.tokens buf with
                | m :: u :: v :: _ => Some (m, u, v)
                | _ => None
                end.
Proof.
  unfold sscanf3.
  pose proof (scan_s_tokens buf) as H1.
  destruct (scan_s buf) as [[m r1]|]; [|by rewrite H1].
  rewrite H1. pose proof (scan_s_tokens r1) as H2.
  destruct (scan_s r1) as [[u r2]|]; [|by rewrite H2].
  rewrite H2. pose proof (scan_s_tokens r2) as H3.
  destruct (scan_s r2) as [[v r3]|]; [|by rewrite H3].
  by rewrite H3.
Qed.

(** [strcasecmp(a, b) == 0] compares the two strings in lower case. *)
Lemma strcasecmp_eq_lower s : ∀ t,
  strcasecmp_eq s t = true ↔ HttpSpec.lower s = HttpSpec.lower t.
Proof.
  induction s as [|c s IH]; intros [|d t]; simpl; try done.
  rewrite andb_true_iff, Ascii.eqb_eq, IH. split.
  - by intros [-> ->].
  - intros [= -> ->]. done.
Qed.

End scan_lemmas.

(** C9, silent rejection.  When the client connection ends before a line is
    read, when the request line has fewer than three tokens separated by
    white space, or when its first token, the method, is not [GET] compared
    without case, [forward_request] returns with an empty trace: nothing is
    written to the client, [Open_clientfd] is not called, neither
    [cache_get_copy] nor [cache_insert] is called, and the cache is the one it
    was; [thread_main] then only closes the client connection.  This holds
    whatever the origin servers and the rest of the client's input are. *)
Theorem silent_rejection (MAXLINE : nat)
  (connect : string → string → option (list (list byte)))
  (client : list string) (cache : Cache.state) :
  match client with
  | [] => True
  | buf :: _ =>
    (length (HttpSpec.tokens buf) < 3)%nat
    ∨ ∃ method rest, HttpSpec.tokens buf = method :: rest
                     ∧ HttpSpec.lower method ≠ "get"
  end →
  forward_request MAXLINE connect client cache = Some ([], cache)
  ∧ thread_main MAXLINE connect client cache = Some ([Client_close], cache).
Proof.
  intros Hrej.
  assert (forward_request MAXLINE connect client cache = Some ([], cache))
    as Hfr.
  { destruct client as [|buf client]; [done|].
    cbn [forward_request]. rewrite sscanf3_tokens.
    destruct Hrej as [Hfew|(method & rest & Htok & Hm)].
    - destruct (HttpSpec.tokens buf) as [|m [|u [|v ts]]]; try done.
      simpl in Hfew. lia.
    - rewrite Htok. destruct rest as [|u [|v ts]]; try done.
      destruct (strcasecmp_eq method "GET") eqn:Hcmp; [|done].
      apply strcasecmp_eq_lower in Hcmp. done. }
  split; [done|]. unfold thread_main. by rewrite Hfr.
Qed.

Lemma silent_rejection_witness :
  ((length (HttpSpec.tokens ("POST / HTTP/1.0" ++ CRLF)) < 3)%nat
   ∨ ∃ method rest,
       HttpSpec.tokens ("POST / HTTP/1.0" ++ CRLF) = method :: rest
       ∧ HttpSpec.lower method ≠ "get")
  ∧ forward_request csapp_MAXLINE (λ _ _, Some [[x41]%byte])
      ["POST / HTTP/1.0" ++ CRLF; CRLF] Cache.demo_state
    = Some ([], Cache.demo_state)
  ∧ thread_main csapp_MAXLINE (λ _ _, Some [[x41]%byte])
      ["POST / HTTP/1.0" ++ CRLF; CRLF] Cache.demo_state
    = Some ([Client_close], Cache.demo_state).
Proof.
  assert ((length (HttpSpec.tokens ("POST / HTTP/1.0" ++ CRLF)) < 3)%nat
          ∨ ∃ method rest,
              HttpSpec.tokens ("POST / HTTP/1.0" ++ CRLF) = method :: rest
              ∧ HttpSpec.lower method ≠ "get") as H.
  { right. exists "POST", ["/"; "HTTP/1.0"]. split; [reflexivity|].
    intros Heq. discriminate Heq. }
  split; [exact H|].
  exact (silent_rejection csapp_MAXLINE (λ _ _, Some [[x41]%byte])
           ["POST / HTTP/1.0" ++ CRLF; CRLF] Cache.demo_state H).
Defined.

(** The rejections, computed: [POST], a request line of two tokens and an
    empty connection all leave the trace empty; [get] in lower case is let
    through, here up to the failure to connect. *)
Example demo_rejections :
  thread_main csapp_MAXLINE (λ _ _, None)
    ["POST / HTTP/1.0" ++ CRLF; CRLF] Cache.init
  = Some ([Client_close], Cache.init)
  ∧ thread_main csapp_MAXLINE (λ _ _, None) ["GET /" ++ CRLF; CRLF] Cache.init
    = Some ([Client_close], Cache.init)
  ∧ thread_main csapp_MAXLINE (λ _ _, None) [] Cache.init
    = Some ([Client_close], Cache.init)
  ∧ thread_main csapp_MAXLINE (λ _ _, None)
      ["get http://example.com/ HTTP/1.0" ++ CRLF; CRLF] Cache.init
    = Some ([Cache_lookup "example.com:80/"; Connect "example.com" "80";
             Client_close], Cache.init).
Proof. split; [|split; [|split]]; vm_compute; reflexivity. Qed.

(** The scenario of the specification, computed.  The first request misses
    the cache: the handler connects to the origin server, sends its own
    request, relays the two reads to the client as they come, and caches the
    200 bytes under the key [example.com:80/].  The second, identical request
    is served from the cache, the same 200 bytes in one write, without any
    connection to the origin server. *)
Example demo_end_to_end :
  let first := thread_main csapp_MAXLINE demo_origin demo_request Cache.init in
  fst <$> first
  = Some [ Cache_lookup "example.com:80/";
           Connect "example.com" "80";
           Server_write ("GET / HTTP/1.0" ++ CRLF
                         ++ "Host: example.com" ++ CRLF
                         ++ user_agent_hdr
                         ++ "Connection: close" ++ CRLF
                         ++ "Proxy-Connection: close" ++ CRLF
                         ++ CRLF);
           Client_write (replicate 120 x2a);
           Client_write (replicate 80 x2b);
           Cache_insert "example.com:80/" 200;
           Server_close;
           Client_close ]
  ∧ (Cache.summary ∘ snd) <$> first = Some ([("example.com:80/", 200%Z)], 200%Z)
  ∧ (first ≫= λ '(_, cache),
       fst <$> thread_main csapp_MAXLINE demo_origin demo_request cache)
    = Some [ Cache_lookup "example.com:80/";
             Client_write (replicate 120 x2a ++ replicate 80 x2b)%list;
             Client_close ].
Proof. split; [|split]; vm_compute; reflexivity. Qed.

End ProxyProofs.

(** * Further properties of the object cache *)

Module CacheExtra.
Import Cache CacheMore CacheProofs.

Section structure.
Implicit Types (m : gmap loc cache_entry_t) (s : state) (al : list aentry).

Lemma walk_prev_seg m ps : ∀ nx fuel,
  seg m None ps nx → (length ps ≤ fuel)%nat →
  walk_prev fuel m (last ps) = reverse ps.
Proof.
  induction ps as [|q l IH] using rev_ind; intros nx fuel Hs Hlen.
  - by destruct fuel.
  - rewrite last_snoc, reverse_snoc. rewrite length_app in Hlen. simpl in Hlen.
    destruct fuel as [|fuel]; [lia|].
    apply seg_snoc in Hs as [Hs (n & Hq & Hp & _)].
    cbn [walk_prev]. rewrite Hq, Hp, last_or_None. f_equal.
    apply (IH (Some q)); [done|lia].
Qed.

Lemma split_at_ptr al l1 p l2 :
  aptr <$> al = l1 ++ p :: l2 →
  ∃ al1 a al2, al = al1 ++ a :: al2 ∧ l1 = aptr <$> al1 ∧ p = aptr a
               ∧ l2 = aptr <$> al2.
Proof.
  intros H. apply fmap_app_inv in H as (al1 & al' & -> & H & ->).
  symmetry in H. apply fmap_cons_inv in H as (a & al2 & -> & -> & ->).
  by exists al1, a, al2.
Qed.

(** X1.  The entries of a reachable cache: no two have the same key, each
    has a size within (0, MAX_OBJECT_SIZE] that is the length of its payload,
    every node of the list has its buffer, and [cache_bytes] is a
    non-negative [int]. *)
Theorem reachable_entries_wf s :
  reachable s →
  NoDup (vkey <$> entries s)
  ∧ (∀ e, e ∈ entries s →
          0 < vsize e <= MAX_OBJECT_SIZE ∧ len (vdata e) = vsize e)
  ∧ length (entries s) = length (cache_list s)
  ∧ 0 <= cache_bytes s ∧ in_int (cache_bytes s).
Proof.
  intros Hreach. destruct (reachable_inv s Hreach) as [al Hi].
  pose proof (inv_rep _ _ Hi) as Hr.
  rewrite (rep_entries _ _ Hr), (dll_cache_list _ _ (rep_dll _ _ Hr)).
  split; [|split; [|split; [|split]]].
  - rewrite <- list_fmap_compose. apply (inv_keys _ _ Hi).
  - intros e (a & -> & Ha)%list_elem_of_fmap. apply (inv_sizes _ _ Hi a Ha).
  - by rewrite !length_fmap.
  - apply (inv_bytes_nonneg _ _ Hi).
  - pose proof (inv_bytes_nonneg _ _ Hi). pose proof (inv_bound _ _ Hi).
    unfold in_int, MAX_CACHE_SIZE in *. lia.
Qed.

(** X2.  The links of a reachable cache: [cache_head] and [cache_tail] are
    the two ends of the list, the [prev] pointers followed from [cache_tail]
    give the list backwards, no node occurs twice, the allocated nodes are
    exactly the nodes of the list, and the entries own distinct, allocated
    buffers. *)
Theorem reachable_links s :
  reachable s →
  cache_head s = head (cache_list s)
  ∧ cache_tail s = last (cache_list s)
  ∧ cache_list_back s = reverse (cache_list s)
  ∧ NoDup (cache_list s)
  ∧ (∀ p, is_Some (nodes s !! p) ↔ p ∈ cache_list s)
  ∧ NoDup (owned s)
  ∧ (∀ c, c ∈ owned s → is_Some (bufs s !! c)).
Proof.
  intros Hreach. destruct (reachable_inv s Hreach) as [al Hi].
  pose proof (inv_rep _ _ Hi) as Hr. pose proof (rep_dll _ _ Hr) as Hd.
  rewrite (rep_owned _ _ Hr). unfold cache_list_back.
  rewrite (dll_cache_list _ _ Hd), (dll_tail _ _ Hd).
  split; [apply (dll_head _ _ Hd)|]. split; [done|]. split.
  { eapply walk_prev_seg; [apply (dll_seg _ _ Hd)|].
    by rewrite (dll_length _ _ Hd). }
  split; [apply (dll_nodup _ _ Hd)|]. split.
  { intros p. symmetry. apply (dll_dom _ _ Hd). }
  split; [apply (rep_bufs_nodup _ _ Hr)|].
  intros c (a & -> & Ha)%list_elem_of_fmap. rewrite (rep_buf _ _ Hr a Ha). eauto.
Qed.

Lemma same_payload_view s s' q :
  same_payload (nodes s) (nodes s') → bufs s' = bufs s → view s' q = view s q.
Proof.
  intros Hsp Hb. unfold view. specialize (Hsp q). rewrite Hb.
  destruct (nodes s' !! q) as [n'|], (nodes s !! q) as [n|]; simpl in *;
    try done.
  injection Hsp as Hk Hd Hz. by rewrite Hk, Hd, Hz.
Qed.

(** X3.  [cache_move_to_front] on any node [p] of a reachable cache: it is
    defined, [p] becomes the head and the other nodes keep their order;
    what every node holds (key, payload, size), the buffers and
    [cache_bytes] are as before. *)
Theorem move_to_front_spec s l1 p l2 :
  reachable s → cache_list s = l1 ++ p :: l2 →
  ∃ s', cache_move_to_front (Some p) s = Some s'
        ∧ cache_list s' = p :: l1 ++ l2
        ∧ cache_head s' = Some p
        ∧ (∀ q, view s' q = view s q)
        ∧ bufs s' = bufs s
        ∧ cache_bytes s' = cache_bytes s.
Proof.
  intros Hreach Hl. destruct (reachable_inv s Hreach) as [al Hi].
  pose proof (rep_dll _ _ (inv_rep _ _ Hi)) as Hd.
  rewrite (dll_cache_list _ _ Hd) in Hl. rewrite Hl in Hd.
  destruct (dll_move_to_front s l1 p l2 Hd) as (s' & Hs' & Hd' & Hsp & Hb & Hc).
  exists s'. split; [done|]. split; [apply (dll_cache_list _ _ Hd')|].
  split; [apply (dll_head _ _ Hd')|]. split; [|done].
  intros q. by apply same_payload_view.
Qed.

(** X4.  [cache_remove_entry] on any node [p] of a reachable cache: it is
    defined, the node leaves the list and the others keep their order, its
    entry leaves the entries, the node and its buffer are freed,
    [cache_bytes] goes down by the size of the entry, without wrapping, and
    is again the sum of the sizes of the entries. *)
Theorem remove_entry_spec s l1 p l2 :
  reachable s → cache_list s = l1 ++ p :: l2 →
  ∃ s' n E1 e E2,
    cache_remove_entry (Some p) s = Some s'
    ∧ nodes s !! p = Some n ∧ view s p = Some e
    ∧ entries s = E1 ++ e :: E2 ∧ length E1 = length l1
    ∧ cache_list s' = l1 ++ l2
    ∧ entries s' = E1 ++ E2
    ∧ nodes s' !! p = None
    ∧ bufs s' = delete (data n) (bufs s)
    ∧ cache_bytes s' = cache_bytes s - vsize e
    ∧ sum_sizes (entries s') = cache_bytes s'.
Proof.
  intros Hreach Hl. destruct (reachable_inv s Hreach) as [al Hi].
  pose proof (inv_rep _ _ Hi) as Hr.
  rewrite (dll_cache_list _ _ (rep_dll _ _ Hr)) in Hl.
  destruct (split_at_ptr _ _ _ _ Hl) as (al1 & a & al2 & -> & -> & -> & ->).
  destruct (inv_remove s al1 a al2 Hi) as (s' & Hs' & Hi' & Hb' & Hc').
  pose proof (inv_rep _ _ Hi') as Hr'.
  destruct (rep_node _ _ Hr a (elem_of_middle _ _ _)) as (n & Hn & [= Hk Hd Hz]).
  exists s', n, (to_view <$> al1), (to_view a), (to_view <$> al2).
  split; [done|]. split; [done|].
  split; [apply (rep_view _ _ _ Hr), elem_of_middle|].
  split; [by rewrite (rep_entries _ _ Hr), fmap_app, fmap_cons|].
  split; [by rewrite !length_fmap|].
  split; [by rewrite (dll_cache_list _ _ (rep_dll _ _ Hr')), fmap_app|].
  split; [by rewrite (rep_entries _ _ Hr'), fmap_app|].
  split.
  { destruct (nodes s' !! aptr a) eqn:Hp; [|done].
    assert (aptr a ∈ aptr <$> (al1 ++ al2)) as Hin
      by (apply (dll_dom _ _ (rep_dll _ _ Hr')); eauto).
    apply list_elem_of_fmap in Hin as (b & Heq & Hb).
    destruct (NoDup_fmap_app_cons aptr al1 a al2) as [_ Hne];
      [apply (dll_nodup _ _ (rep_dll _ _ Hr))|].
    by destruct (Hne b Hb). }
  split; [by rewrite Hd|]. split; [done|].
  rewrite (rep_entries _ _ Hr'), sum_sizes_to_view. symmetry.
  apply (inv_bytes _ _ Hi').
Qed.

End structure.

Section contents.
Implicit Types (s : state) (al : list aentry) (k : string) (p : list byte).

Lemma evict_fits needed (l : list entry_view) :
  sum_sizes l + needed <= MAX_CACHE_SIZE → Spec.evict needed l = l.
Proof.
  intros Hfit. unfold Spec.evict.
  destruct (reverse l) as [|e rl] eqn:Hrev; simpl.
  - by rewrite <- (reverse_involutive l), Hrev.
  - rewrite decide_True by done. by rewrite <- Hrev, reverse_involutive.
Qed.

(** X5.  An accepted insert that fits evicts nothing: when the entries, the
    one under the key apart, leave room for the payload, the new entry is
    put in front of them all, in the order they had. *)
Theorem insert_fits_evicts_nothing s k p :
  reachable s → 0 < len p <= MAX_OBJECT_SIZE →
  sum_sizes (Spec.remove k (entries s)) + len p <= MAX_CACHE_SIZE →
  ∃ s', insert k p s = Some s'
        ∧ entries s' = mk_view k p (len p) :: Spec.remove k (entries s)
        ∧ cache_bytes s' = sum_sizes (Spec.remove k (entries s)) + len p.
Proof.
  intros Hreach Hlen Hfit. destruct (reachable_inv s Hreach) as [al Hi].
  destruct (insert_refines s al k p Hi) as (s' & al' & Hs' & Hi' & He').
  exists s'. split; [done|].
  assert (entries s' = mk_view k p (len p) :: Spec.remove k (entries s)) as He.
  { rewrite He'. unfold Spec.insert. rewrite decide_False by lia.
    cbn zeta. rewrite evict_fits by done. by rewrite decide_True. }
  split; [done|].
  rewrite (inv_bytes _ _ Hi'), <- sum_sizes_to_view.
  rewrite <- (rep_entries _ _ (inv_rep _ _ Hi')), He. simpl. lia.
Qed.

Lemma remove_sublist k (l : list entry_view) : sublist (Spec.remove k l) l.
Proof.
  induction l as [|e l IH]; simpl; [done|].
  destruct (decide (vkey e = k)).
  - by apply sublist_cons.
  - by apply sublist_skip.
Qed.

Lemma remove_key_ne k (l : list entry_view) e :
  NoDup (vkey <$> l) → e ∈ Spec.remove k l → vkey e ≠ k.
Proof.
  induction l as [|e' l IH]; intros Hnd; [by intros ?%elem_of_nil|].
  rewrite fmap_cons in Hnd. apply NoDup_cons in Hnd as [Hnin Hnd].
  cbn [Spec.remove]. destruct (decide (vkey e' = k)) as [Hk|Hk].
  - intros He Heq. apply Hnin. rewrite Hk, <- Heq. by apply list_elem_of_fmap_2.
  - intros [->|He]%elem_of_cons; [done|]. by apply IH.
Qed.

(** X6.  An accepted insert creates one entry and alters no other: behind
    the new entry are entries of the former list, under other keys, with the
    payloads and in the order they had. *)
Theorem insert_preserves_others s k p :
  reachable s → 0 < len p <= MAX_OBJECT_SIZE →
  ∃ s' rest,
    insert k p s = Some s'
    ∧ entries s' = mk_view k p (len p) :: rest
    ∧ sublist rest (entries s)
    ∧ (∀ e, e ∈ rest → vkey e ≠ k).
Proof.
  intros Hreach Hlen. destruct (reachable_inv s Hreach) as [al Hi].
  destruct (insert_refines s al k p Hi) as (s' & al' & Hs' & Hi' & He').
  destruct (evict_split (len p) (Spec.remove k (entries s)))
    as (evicted & Hsplit & _ & _).
  set (kept := Spec.evict (len p) (Spec.remove k (entries s))) in *.
  assert (entries s' = mk_view k p (len p) :: kept) as He.
  { rewrite He'. unfold Spec.insert. rewrite decide_False by lia. cbn zeta.
    fold kept. destruct (decide (sum_sizes kept + len p <= MAX_CACHE_SIZE))
      as [|Hno]; [done|].
    destruct Hno.
    pose proof (inv_bytes _ _ Hi') as Hb. pose proof (inv_bound _ _ Hi') as Hm.
    rewrite <- sum_sizes_to_view, <- (rep_entries _ _ (inv_rep _ _ Hi')) in Hb.
    rewrite He' in Hb. unfold Spec.insert in Hb.
    rewrite decide_False in Hb by lia. cbn zeta in Hb. fold kept in Hb.
    destruct (decide (sum_sizes kept + len p <= MAX_CACHE_SIZE)); [done|].
    pose proof (evict_split (len p) (Spec.remove k (entries s))) as (ev & _ & _ & Hend).
    fold kept in Hend. destruct Hend as [Hnil|Hfit]; [|done].
    rewrite Hnil. simpl. unfold MAX_CACHE_SIZE, MAX_OBJECT_SIZE in *. lia. }
  exists s', kept. split; [done|]. split; [done|]. split.
  - transitivity (Spec.remove k (entries s)); [|apply remove_sublist].
    rewrite Hsplit. by apply sublist_inserts_r.
  - intros e He0. apply (remove_key_ne k (entries s)).
    + rewrite (rep_entries _ _ (inv_rep _ _ Hi)), <- list_fmap_compose.
      apply (inv_keys _ _ Hi).
    + rewrite Hsplit. apply elem_of_app. by left.
Qed.

Lemma total_size_middle al1 (a : aentry) al2 :
  total_size (al1 ++ a :: al2) = total_size (a :: al1 ++ al2).
Proof. rewrite !total_size_app. simpl. rewrite total_size_app. lia. Qed.

Lemma stray_outside s al c : rep s al → c ∈ stray s ↔ outside s al c.
Proof.
  intros Hr. unfold stray, outside.
  rewrite elem_of_difference, elem_of_dom, elem_of_list_to_set.
  by rewrite (rep_owned _ _ Hr).
Qed.

(** X7.  A lookup changes neither what the cache holds nor [cache_bytes]: it
    is defined on every reachable cache, the entries afterwards are the
    entries before in another order, and no node is allocated or freed.  A
    hit allocates one buffer, the copy, at an address that was free, and
    touches no other buffer; a miss returns the state as it was. *)
Theorem lookup_preserves_contents s k :
  reachable s →
  ∃ r s', cache_get_copy k s = Some (r, s')
          ∧ entries s' ≡ₚ entries s
          ∧ cache_bytes s' = cache_bytes s
          ∧ dom (nodes s') = dom (nodes s)
          ∧ match r with
            | Some (c, _) =>
              is_Some (Spec.find k (entries s))
              ∧ bufs s !! c = None
              ∧ stray s' = stray s ∪ {[c]}
              ∧ (∀ c', c' ≠ c → bufs s' !! c' = bufs s !! c')
            | None => Spec.find k (entries s) = None ∧ s' = s
            end.
Proof.
  intros Hreach. destruct (reachable_inv s Hreach) as [al Hi].
  pose proof (inv_rep _ _ Hi) as Hr.
  rewrite (rep_entries _ _ Hr), find_to_view.
  destruct (l_find k al) as [a|] eqn:Hf.
  - destruct (cache_get_copy_hit s al k a Hi Hf) as (s' & Hs' & Hi' & Hb').
    destruct (l_find_Some _ _ _ Hf) as (al1 & al2 & Hal & _ & _ & Hrm).
    pose proof (inv_rep _ _ Hi') as Hr'.
    set (c := fresh (dom (bufs s))) in *.
    assert (bufs s !! c = None) as Hc by apply not_elem_of_dom, is_fresh.
    eexists _, s'. split; [done|].
    rewrite (rep_entries _ _ Hr'), Hrm, Hal. rewrite Hrm in Hr', Hi'.
    split; [|split; [|split; [|split; [|split; [|split]]]]].
    + rewrite fmap_cons, !fmap_app, fmap_cons. apply Permutation_middle.
    + rewrite (inv_bytes _ _ Hi'), (inv_bytes _ _ Hi), Hal.
      symmetry. apply total_size_middle.
    + apply set_eq. intros p. rewrite !elem_of_dom.
      rewrite <- (dll_dom _ _ (rep_dll _ _ Hr')).
      rewrite <- (dll_dom _ _ (rep_dll _ _ Hr)), Hal.
      rewrite fmap_cons, !fmap_app, fmap_cons.
      rewrite elem_of_cons, !elem_of_app, elem_of_cons. tauto.
    + by eexists.
    + done.
    + apply set_eq. intros c'.
      rewrite elem_of_union, elem_of_singleton.
      rewrite (stray_outside _ _ _ Hr'), (stray_outside _ _ _ Hr).
      unfold outside. rewrite Hb', Hal.
      rewrite fmap_cons, !fmap_app, fmap_cons.
      rewrite elem_of_cons, !elem_of_app, elem_of_cons.
      destruct (decide (c' = c)) as [->|Hne].
      * rewrite lookup_insert_eq. split; [by right|]. intros _.
        split; [by eexists|].
        assert (c ∉ adata <$> al1 ++ a :: al2) as Hn.
        { intros (b & Hcb & Hb)%list_elem_of_fmap. rewrite <- Hal in Hb.
          pose proof (rep_buf _ _ Hr b Hb) as Hbb. congruence. }
        rewrite fmap_app, fmap_cons, elem_of_app, elem_of_cons in Hn. tauto.
      * rewrite lookup_insert_ne by done. tauto.
    + intros c' Hne. by rewrite Hb', lookup_insert_ne.
  - rewrite (cache_get_copy_miss s al k Hr Hf). exists None, s.
    split; [done|]. split; [by rewrite (rep_entries _ _ Hr)|]. done.
Qed.

(** A lookup of the key of the head: the copy is made and nothing else
    changes. *)
Lemma cache_get_copy_head s a rest :
  rep s (a :: rest) → Z.of_nat (length (abytes a)) = asize a →
  cache_get_copy (akey a) s
  = Some (Some (fresh (dom (bufs s)), asize a),
          set_bufs (<[fresh (dom (bufs s)) := abytes a]> (bufs s)) s).
Proof.
  intros Hr Hlen. unfold cache_get_copy.
  rewrite (dll_head _ _ (rep_dll _ _ Hr)).
  rewrite (get_copy_loop_spec s (akey a) (a :: rest) [] _ Hr)
    by (by rewrite <- (dll_length _ _ (rep_dll _ _ Hr)), length_fmap).
  cbn [l_find]. rewrite decide_True by done.
  rewrite (rep_buf _ _ Hr a) by (by left). cbn [mbind option_bind].
  assert (read_bytes (abytes a) (asize a) = Some (abytes a)) as ->
    by (rewrite <- Hlen; apply read_bytes_all).
  cbn [mbind option_bind]. unfold alloc_buf, cache_move_to_front.
  cbn [cache_head set_bufs].
  rewrite decide_True by apply (dll_head _ _ (rep_dll _ _ Hr)).
  done.
Qed.

(** X8.  Two lookups of the same key in a row: both are hits with the size
    and the bytes of the entry, in two distinct buffers; the second finds the
    entry at the head and leaves the nodes, [cache_head], [cache_tail] and
    the entries as the first left them. *)
Theorem lookup_twice s k e :
  reachable s → Spec.find k (entries s) = Some e →
  ∃ c1 s1 c2 s2,
    cache_get_copy k s = Some (Some (c1, vsize e), s1)
    ∧ cache_get_copy k s1 = Some (Some (c2, vsize e), s2)
    ∧ c1 ≠ c2
    ∧ bufs s2 !! c1 = Some (vdata e) ∧ bufs s2 !! c2 = Some (vdata e)
    ∧ nodes s2 = nodes s1
    ∧ cache_head s2 = cache_head s1 ∧ cache_tail s2 = cache_tail s1
    ∧ entries s2 = entries s1
    ∧ head (entries s1) = Some e.
Proof.
  intros Hreach Hfind. destruct (reachable_inv s Hreach) as [al Hi].
  rewrite (rep_entries _ _ (inv_rep _ _ Hi)), find_to_view in Hfind.
  destruct (l_find k al) as [a|] eqn:Hf; [|done].
  injection Hfind as <-.
  destruct (cache_get_copy_hit s al k a Hi Hf) as (s1 & Hs1 & Hi1 & Hb1).
  destruct (l_find_Some _ _ _ Hf) as (al1 & al2 & Hal & Hk & _ & Hrm).
  pose proof (inv_rep _ _ Hi1) as Hr1.
  destruct (inv_sizes _ _ Hi1 a) as [_ Hlen]; [by left|].
  pose proof (cache_get_copy_head s1 a _ Hr1 Hlen) as Hs2. rewrite Hk in Hs2.
  set (c1 := fresh (dom (bufs s))) in *.
  set (c2 := fresh (dom (bufs s1))) in *.
  assert (c1 ≠ c2) as Hne.
  { intros Heq. apply (is_fresh (dom (bufs s1))). fold c2. rewrite <- Heq.
    apply elem_of_dom. rewrite Hb1, lookup_insert_eq. eauto. }
  eexists c1, s1, c2, _. split; [exact Hs1|]. split; [exact Hs2|].
  split; [done|]. cbn [bufs nodes cache_head cache_tail set_bufs].
  split; [by rewrite lookup_insert_ne, Hb1, lookup_insert_eq|].
  split; [by rewrite lookup_insert_eq|].
  split; [done|]. split; [done|]. split; [done|]. split.
  - pose proof (rep_alloc_buf s1 _ (abytes a) Hr1) as Hr2.
    unfold alloc_buf in Hr2. cbn [snd] in Hr2. fold c2 in Hr2.
    by rewrite (rep_entries _ _ Hr2), (rep_entries _ _ Hr1).
  - by rewrite (rep_entries _ _ Hr1), fmap_cons.
Qed.

End contents.

Section heap.
Implicit Types (s : state) (al : list aentry).

Lemma stray_remove s al1 a al2 s' :
  inv s (al1 ++ a :: al2) → cache_remove_entry (Some (aptr a)) s = Some s' →
  stray s' = stray s.
Proof.
  intros Hi Hs'.
  destruct (inv_remove _ _ _ _ Hi) as (s'' & Hs'' & Hi' & Hb' & _).
  assert (s'' = s') as -> by congruence.
  apply set_eq. intros c.
  rewrite (stray_outside _ _ _ (inv_rep _ _ Hi')).
  rewrite (stray_outside _ _ _ (inv_rep _ _ Hi)).
  unfold outside. rewrite Hb', lookup_delete_is_Some.
  rewrite !fmap_app, fmap_cons, !elem_of_app, elem_of_cons.
  split.
  - intros [[Hne Hc] Hn]. split; [done|]. intros [?|[?|?]]; [tauto|congruence|tauto].
  - intros [Hc Hn]. split; [split; [|done]|]; [intros <-|]; tauto.
Qed.

Lemma stray_remove_key s al k s' :
  inv s al →
  remove_key_loop (base.size (nodes s)) k (cache_head s) s = Some s' →
  stray s' = stray s.
Proof.
  intros Hi. pose proof (inv_rep _ _ Hi) as Hr.
  rewrite (dll_head _ _ (rep_dll _ _ Hr)).
  rewrite (remove_key_loop_spec s k al [] _ Hr)
    by (by rewrite <- (dll_length _ _ (rep_dll _ _ Hr)), length_fmap).
  destruct (l_find k al) as [a|] eqn:Hf.
  - destruct (l_find_Some _ _ _ Hf) as (al1 & al2 & -> & _).
    intros H. by eapply stray_remove.
  - by intros [= <-].
Qed.

Lemma stray_evict_loop needed rl : ∀ s fuel s',
  inv s (reverse rl) → evict_loop fuel needed s = Some s' → stray s' = stray s.
Proof.
  induction rl as [|a rl IH]; intros s fuel s' Hi.
  - pose proof (dll_tail _ _ (rep_dll _ _ (inv_rep _ _ Hi))) as Ht.
    simpl in Ht. destruct fuel; simpl; rewrite Ht; by intros [= <-].
  - pose proof (dll_tail _ _ (rep_dll _ _ (inv_rep _ _ Hi))) as Ht.
    rewrite reverse_cons, fmap_app in Ht.
    change (aptr <$> [a]) with [aptr a] in Ht. rewrite last_snoc in Ht.
    rewrite reverse_cons in Hi.
    destruct fuel as [|fuel]; cbn [evict_loop]; rewrite Ht;
      destruct (decide _); try done; try (by intros [= <-]).
    destruct (inv_remove _ _ _ _ Hi) as (s1 & Hs1 & Hi1 & _).
    rewrite Hs1. cbn [mbind option_bind]. rewrite app_nil_r in Hi1.
    intros H. rewrite (IH _ _ _ Hi1 H). by eapply stray_remove.
Qed.

(** The buffers after the last part of [cache_insert], lines 134-149. *)
Lemma cache_insert_bufs s al k payload sz s' :
  inv s al → 0 < sz <= MAX_OBJECT_SIZE → sz <= Z.of_nat (length payload) →
  cache_insert k payload sz s = Some s' →
  ∃ s2, stray s2 = stray s ∧ inv s2 (l_evict sz (l_remove_key k al))
        ∧ bufs s' = <[fresh (dom (bufs s2)) := take (Z.to_nat sz) payload]> (bufs s2).
Proof.
  intros Hi Hsz Hlen. unfold cache_insert.
  rewrite decide_False by lia.
  destruct (inv_remove_key s al k Hi) as (s1 & Hs1 & Hi1 & _).
  rewrite Hs1. cbn [mbind option_bind].
  destruct (inv_evict s1 _ sz Hi1 Hsz) as (s2 & Hs2 & Hi2 & _).
  rewrite Hs2. cbn [mbind option_bind].
  rewrite decide_False by (unfold MAX_CACHE_SIZE, MAX_OBJECT_SIZE in *; lia).
  rewrite read_bytes_take by lia. cbn [mbind option_bind].
  intros H. exists s2. split; [|split; [done|]].
  - unfold cache_evict_until_fit in Hs2.
    rewrite <- (reverse_involutive (l_remove_key k al)) in Hi1.
    rewrite (stray_evict_loop _ _ _ _ _ Hi1 Hs2).
    by eapply stray_remove_key.
  - unfold alloc_buf, alloc_node in H.
    cbn [fst snd bufs nodes cache_head set_bufs set_nodes] in H.
    destruct (cache_head s2) as [h|]; cbn [mbind option_bind] in H.
    + unfold store in H. cbn [nodes set_nodes set_bufs] in H.
      destruct (_ !! h); cbn [mbind option_bind] in H; [|done].
      injection H as <-. setters. by destruct (cache_tail s2).
    + injection H as <-. setters. by destruct (cache_tail s2).
Qed.

Lemma stray_insert s al k payload sz s' :
  inv s al → sz <= Z.of_nat (length payload) →
  cache_insert k payload sz s = Some s' → stray s' = stray s.
Proof.
  intros Hi Hlen Hs'.
  destruct (decide (sz <= 0 ∨ sz > MAX_OBJECT_SIZE)) as [Hr|Hr].
  { rewrite cache_insert_refused in Hs' by done. congruence. }
  assert (0 < sz <= MAX_OBJECT_SIZE) as Hsz by lia.
  destruct (cache_insert_spec s al k payload sz Hi Hsz Hlen)
    as (s'' & e & d & Hs'' & Hi' & Hout).
  assert (s'' = s') as -> by congruence.
  destruct (cache_insert_bufs s al k payload sz s' Hi Hsz Hlen Hs')
    as (s2 & Hst2 & Hi2 & Hb').
  set (al2 := l_evict sz (l_remove_key k al)) in *.
  set (d0 := fresh (dom (bufs s2))) in *.
  pose proof (inv_rep _ _ Hi') as Hr'. pose proof (inv_rep _ _ Hi) as Hr0.
  pose proof (inv_rep _ _ Hi2) as Hr2.
  assert (d = d0) as ->.
  { destruct (decide (d = d0)) as [|Hne]; [done|exfalso].
    assert (outside s al d) as Hd.
    { apply (stray_outside _ _ _ Hr0). rewrite <- Hst2.
      apply (stray_outside _ _ _ Hr2). split.
      - pose proof (rep_buf _ _ Hr' _ (list_elem_of_here _ _)) as Hb.
        cbn [adata abytes] in Hb. rewrite Hb', lookup_insert_ne in Hb by done.
        by eexists.
      - pose proof (rep_bufs_nodup _ _ Hr') as Hnd.
        rewrite fmap_cons in Hnd. by apply NoDup_cons in Hnd as [? _]. }
    destruct (Hout d Hd) as [[_ Hn] _]. apply Hn. rewrite fmap_cons. by left. }
  apply set_eq. intros c. split.
  - rewrite (stray_outside _ _ _ Hr'). intros [Hc Hn].
    rewrite fmap_cons, elem_of_cons in Hn. cbn [adata] in Hn.
    rewrite <- Hst2. apply (stray_outside _ _ _ Hr2). split; [|tauto].
    rewrite Hb', lookup_insert_ne in Hc; [done|]. intros <-. tauto.
  - intros Hc. apply (stray_outside _ _ _ Hr').
    apply Hout. by apply (stray_outside _ _ _ Hr0).
Qed.

(** X9.  [cache_insert] leaks no buffer and frees none it does not own:
    whatever it is called with, the allocated buffers that belong to no
    entry are the same before and after, with the same contents.  So the
    buffers of the entries it replaces or evicts are freed, and the only
    buffer it allocates is the one of the new entry. *)
Theorem insert_leaks_nothing s k buf sz :
  reachable s → sz <= len buf →
  ∃ s', cache_insert k buf sz s = Some s'
        ∧ stray s' = stray s
        ∧ (∀ c, c ∈ stray s → bufs s' !! c = bufs s !! c)
        ∧ (∀ c, is_Some (bufs s' !! c) ↔ c ∈ stray s ∨ c ∈ owned s')
        ∧ (∀ p, is_Some (nodes s' !! p) ↔ p ∈ cache_list s').
Proof.
  intros Hreach Hlen. unfold len in Hlen.
  destruct (reachable_inv s Hreach) as [al Hi].
  destruct (inv_step s al (Insert k buf sz) Hi Hlen)
    as (s' & al' & Hs' & Hi' & Hout).
  cbn [step] in Hs'. exists s'. split; [done|].
  pose proof (stray_insert s al k buf sz s' Hi Hlen Hs') as Hst.
  pose proof (inv_rep _ _ Hi') as Hr'.
  split; [done|]. split; [|split].
  - intros c Hc. apply Hout. by apply (stray_outside _ _ _ (inv_rep _ _ Hi)).
  - intros c. rewrite <- Hst. unfold stray.
    rewrite elem_of_difference, elem_of_dom, elem_of_list_to_set.
    split.
    + intros Hc. destruct (decide (c ∈ owned s')); tauto.
    + intros [[? _]|Hc]; [done|]. rewrite (rep_owned _ _ Hr') in Hc.
      apply list_elem_of_fmap in Hc as (a & -> & Ha).
      rewrite (rep_buf _ _ Hr' a Ha). by eexists.
  - intros p. rewrite (dll_cache_list _ _ (rep_dll _ _ Hr')).
    symmetry. apply (dll_dom _ _ (rep_dll _ _ Hr')).
Qed.

(** X25.  [cache_evict_until_fit] on a reachable cache, for a size
    [cache_insert] accepts.  The loop ends; it leaves the entries the
    specification keeps, a front part of the list; then [needed] more bytes
    fit.  When they fit from the start nothing changes.  The buffers of the
    evicted entries are freed and no other buffer is touched, and
    [cache_bytes] is again the sum of the sizes. *)
Theorem evict_until_fit_spec s needed :
  reachable s → 0 < needed <= MAX_OBJECT_SIZE →
  ∃ s' evicted,
    cache_evict_until_fit needed s = Some s'
    ∧ entries s' = Spec.evict needed (entries s)
    ∧ entries s = entries s' ++ evicted
    ∧ cache_bytes s' + needed <= MAX_CACHE_SIZE
    ∧ cache_bytes s' = sum_sizes (entries s')
    ∧ (cache_bytes s + needed <= MAX_CACHE_SIZE → s' = s)
    ∧ stray s' = stray s
    ∧ (∀ c, is_Some (bufs s' !! c) ↔ c ∈ stray s ∨ c ∈ owned s').
Proof.
  intros Hreach Hneeded. destruct (reachable_inv s Hreach) as [al Hi].
  destruct (inv_evict s al needed Hi Hneeded) as (s' & Hs' & Hi' & Hfit & _).
  pose proof (inv_rep _ _ Hi') as Hr'.
  assert (entries s' = Spec.evict needed (entries s)) as He.
  { rewrite (rep_entries _ _ Hr'), (rep_entries _ _ (inv_rep _ _ Hi)).
    by rewrite evict_to_view. }
  destruct (evict_split needed (entries s)) as (evicted & Hsplit & _).
  assert (stray s' = stray s) as Hst.
  { unfold cache_evict_until_fit in Hs'.
    rewrite <- (reverse_involutive al) in Hi.
    apply (stray_evict_loop _ _ _ _ _ Hi Hs'). }
  exists s', evicted. split; [done|]. split; [done|].
  split; [by rewrite He|]. split; [done|].
  split; [|split; [|split; [done|]]].
  - rewrite (rep_entries _ _ Hr'), sum_sizes_to_view. apply (inv_bytes _ _ Hi').
  - intros Hroom. unfold cache_evict_until_fit in Hs'.
    pose proof (inv_bytes_nonneg _ _ Hi) as Hnn.
    assert (int_add (cache_bytes s) needed = cache_bytes s + needed) as Hadd.
    { unfold int_add. apply wrap_int_id. unfold in_int.
      unfold MAX_CACHE_SIZE, MAX_OBJECT_SIZE in *. lia. }
    destruct (base.size (nodes s)); cbn [evict_loop] in Hs';
      destruct (cache_tail s); rewrite ?Hadd, ?decide_False in Hs' by lia;
      congruence.
  - intros c. rewrite <- Hst. unfold stray.
    rewrite elem_of_difference, elem_of_dom, elem_of_list_to_set.
    split.
    + intros Hc. destruct (decide (c ∈ owned s')); tauto.
    + intros [[? _]|Hc]; [done|]. rewrite (rep_owned _ _ Hr') in Hc.
      apply list_elem_of_fmap in Hc as (a & -> & Ha).
      rewrite (rep_buf _ _ Hr' a Ha). by eexists.
Qed.

End heap.

(** *** The properties on the run of the examples *)

Section examples.

Lemma reachable_entries_wf_witness :
  reachable demo_state
  ∧ NoDup (vkey <$> entries demo_state)
  ∧ (∀ e, e ∈ entries demo_state →
          0 < vsize e <= MAX_OBJECT_SIZE ∧ len (vdata e) = vsize e)
  ∧ length (entries demo_state) = length (cache_list demo_state)
  ∧ 0 <= cache_bytes demo_state ∧ in_int (cache_bytes demo_state).
Proof.
  split; [exact CacheClaims.demo_reachable|].
  apply reachable_entries_wf, CacheClaims.demo_reachable.
Defined.

Lemma reachable_links_witness :
  reachable demo_state
  ∧ cache_head demo_state = head (cache_list demo_state)
  ∧ cache_tail demo_state = last (cache_list demo_state)
  ∧ cache_list_back demo_state = reverse (cache_list demo_state)
  ∧ NoDup (cache_list demo_state)
  ∧ (∀ p, is_Some (nodes demo_state !! p) ↔ p ∈ cache_list demo_state)
  ∧ NoDup (owned demo_state)
  ∧ (∀ c, c ∈ owned demo_state → is_Some (bufs demo_state !! c)).
Proof.
  split; [exact CacheClaims.demo_reachable|].
  apply reachable_links, CacheClaims.demo_reachable.
Defined.

Lemma move_to_front_spec_witness :
  reachable demo_state
  ∧ cache_list demo_state = [1%positive; 3%positive] ++ 2%positive :: []
  ∧ ∃ s', cache_move_to_front (Some 2%positive) demo_state = Some s'
          ∧ cache_list s' = 2%positive :: [1%positive; 3%positive] ++ []
          ∧ cache_head s' = Some 2%positive
          ∧ (∀ q, view s' q = view demo_state q)
          ∧ bufs s' = bufs demo_state
          ∧ cache_bytes s' = cache_bytes demo_state.
Proof.
  split; [exact CacheClaims.demo_reachable|].
  split; [vm_compute; reflexivity|].
  apply move_to_front_spec; [exact CacheClaims.demo_reachable|].
  vm_compute; reflexivity.
Defined.

Lemma remove_entry_spec_witness :
  reachable demo_state
  ∧ cache_list demo_state = [1%positive] ++ 3%positive :: [2%positive]
  ∧ ∃ s' n E1 e E2,
      cache_remove_entry (Some 3%positive) demo_state = Some s'
      ∧ nodes demo_state !! 3%positive = Some n
      ∧ view demo_state 3%positive = Some e
      ∧ entries demo_state = E1 ++ e :: E2
      ∧ length E1 = length [1%positive]
      ∧ cache_list s' = [1%positive] ++ [2%positive]
      ∧ entries s' = E1 ++ E2
      ∧ nodes s' !! 3%positive = None
      ∧ bufs s' = delete (data n) (bufs demo_state)
      ∧ cache_bytes s' = cache_bytes demo_state - vsize e
      ∧ sum_sizes (entries s') = cache_bytes s'.
Proof.
  split; [exact CacheClaims.demo_reachable|].
  split; [vm_compute; reflexivity|].
  apply remove_entry_spec; [exact CacheClaims.demo_reachable|].
  vm_compute; reflexivity.
Defined.

Lemma insert_fits_evicts_nothing_witness :
  reachable demo_state
  ∧ 0 < len [x47; x48]%byte <= MAX_OBJECT_SIZE
  ∧ sum_sizes (Spec.remove "b.com:80/" (entries demo_state))
    + len [x47; x48]%byte <= MAX_CACHE_SIZE
  ∧ ∃ s', insert "b.com:80/" [x47; x48]%byte demo_state = Some s'
          ∧ entries s'
            = mk_view "b.com:80/" [x47; x48]%byte (len [x47; x48]%byte)
              :: Spec.remove "b.com:80/" (entries demo_state)
          ∧ cache_bytes s'
            = sum_sizes (Spec.remove "b.com:80/" (entries demo_state))
              + len [x47; x48]%byte.
Proof.
  split; [exact CacheClaims.demo_reachable|].
  split; [by vm_compute|]. split; [by vm_compute|].
  apply insert_fits_evicts_nothing;
    [exact CacheClaims.demo_reachable|by vm_compute|by vm_compute].
Defined.

Lemma insert_preserves_others_witness :
  reachable demo_state
  ∧ 0 < len [x47; x48]%byte <= MAX_OBJECT_SIZE
  ∧ ∃ s' rest,
      insert "b.com:80/" [x47; x48]%byte demo_state = Some s'
      ∧ entries s'
        = mk_view "b.com:80/" [x47; x48]%byte (len [x47; x48]%byte) :: rest
      ∧ sublist rest (entries demo_state)
      ∧ (∀ e, e ∈ rest → vkey e ≠ "b.com:80/").
Proof.
  split; [exact CacheClaims.demo_reachable|].
  split; [by vm_compute|].
  apply insert_preserves_others; [exact CacheClaims.demo_reachable|by vm_compute].
Defined.

Lemma lookup_preserves_contents_witness :
  reachable demo_state
  ∧ ∃ r s', cache_get_copy "b.com:80/" demo_state = Some (r, s')
            ∧ entries s' ≡ₚ entries demo_state
            ∧ cache_bytes s' = cache_bytes demo_state
            ∧ dom (nodes s') = dom (nodes demo_state)
            ∧ match r with
              | Some (c, _) =>
                is_Some (Spec.find "b.com:80/" (entries demo_state))
                ∧ bufs demo_state !! c = None
                ∧ stray s' = stray demo_state ∪ {[c]}
                ∧ (∀ c', c' ≠ c → bufs s' !! c' = bufs demo_state !! c')
              | None =>
                Spec.find "b.com:80/" (entries demo_state) = None
                ∧ s' = demo_state
              end.
Proof.
  split; [exact CacheClaims.demo_reachable|].
  apply lookup_preserves_contents, CacheClaims.demo_reachable.
Defined.

Lemma lookup_twice_witness :
  reachable demo_state
  ∧ Spec.find "b.com:80/" (entries demo_state)
    = Some (mk_view "b.com:80/" [x44; x45]%byte 2)
  ∧ ∃ c1 s1 c2 s2,
      cache_get_copy "b.com:80/" demo_state = Some (Some (c1, 2), s1)
      ∧ cache_get_copy "b.com:80/" s1 = Some (Some (c2, 2), s2)
      ∧ c1 ≠ c2
      ∧ bufs s2 !! c1 = Some [x44; x45]%byte
      ∧ bufs s2 !! c2 = Some [x44; x45]%byte
      ∧ nodes s2 = nodes s1
      ∧ cache_head s2 = cache_head s1 ∧ cache_tail s2 = cache_tail s1
      ∧ entries s2 = entries s1
      ∧ head (entries s1) = Some (mk_view "b.com:80/" [x44; x45]%byte 2).
Proof.
  split; [exact CacheClaims.demo_reachable|].
  split; [vm_compute; reflexivity|].
  apply (lookup_twice demo_state "b.com:80/"
           (mk_view "b.com:80/" [x44; x45]%byte 2));
    [exact CacheClaims.demo_reachable|vm_compute; reflexivity].
Defined.

Lemma insert_leaks_nothing_witness :
  reachable demo_state
  ∧ 2 <= len [x47; x48]%byte
  ∧ ∃ s', cache_insert "b.com:80/" [x47; x48]%byte 2 demo_state = Some s'
          ∧ stray s' = stray demo_state
          ∧ (∀ c, c ∈ stray demo_state → bufs s' !! c = bufs demo_state !! c)
          ∧ (∀ c, is_Some (bufs s' !! c) ↔ c ∈ stray demo_state ∨ c ∈ owned s')
          ∧ (∀ p, is_Some (nodes s' !! p) ↔ p ∈ cache_list s').
Proof.
  split; [exact CacheClaims.demo_reachable|].
  split; [by vm_compute|].
  apply insert_leaks_nothing; [exact CacheClaims.demo_reachable|by vm_compute].
Defined.

Lemma evict_until_fit_spec_witness :
  reachable demo_state
  ∧ 0 < 5 <= MAX_OBJECT_SIZE
  ∧ ∃ s' evicted,
      cache_evict_until_fit 5 demo_state = Some s'
      ∧ entries s' = Spec.evict 5 (entries demo_state)
      ∧ entries demo_state = entries s' ++ evicted
      ∧ cache_bytes s' + 5 <= MAX_CACHE_SIZE
      ∧ cache_bytes s' = sum_sizes (entries s')
      ∧ (cache_bytes demo_state + 5 <= MAX_CACHE_SIZE → s' = demo_state)
      ∧ stray s' = stray demo_state
      ∧ (∀ c, is_Some (bufs s' !! c) ↔ c ∈ stray demo_state ∨ c ∈ owned s').
Proof.
  split; [exact CacheClaims.demo_reachable|].
  split; [by vm_compute|].
  apply evict_until_fit_spec; [exact CacheClaims.demo_reachable|by vm_compute].
Defined.

End examples.

End CacheExtra.
(** * Further properties of the string functions *)

Module HttpExtra.
Import Http HttpMore HttpProofs.

Local Open Scope string_scope.
Local Open Scope nat_scope.

Section more_string_lemmas.
Implicit Types (s t : string) (c : ascii) (n : nat).

Lemma length_stake n s : String.length (stake n s) = n `min` String.length s.
Proof.
  revert n. induction s as [|c s IH]; intros [|n]; simpl; try done.
  by rewrite IH.
Qed.

Lemma stake_app n s t :
  String.length s ≤ n → stake n (s ++ t) = s ++ stake (n - String.length s) t.
Proof.
  revert n. induction s as [|c s IH]; intros n Hn.
  - rewrite !append_nil. simpl. by rewrite Nat.sub_0_r.
  - destruct n as [|n]; simpl in Hn; [lia|].
    rewrite !append_cons. cbn [stake String.length Nat.sub].
    rewrite IH by lia. done.
Qed.

Lemma strchr_lt s c i : strchr s c = Some i → i < String.length s.
Proof.
  revert i. induction s as [|d s IH]; intros i; simpl; [done|].
  destruct (Ascii.eqb d c); [intros [= <-]; lia|].
  destruct (strchr s c) as [j|]; [|done]. intros [= <-].
  specialize (IH j eq_refl). lia.
Qed.

Lemma strchr_stake n s c :
  strchr (stake n s) c
  = match strchr s c with
    | Some i => if i <? n then Some i else None
    | None => None
    end.
Proof.
  revert n. induction s as [|d s IH]; intros [|n]; simpl; try done.
  - destruct (Ascii.eqb d c); [done|]. by destruct (strchr s c).
  - destruct (Ascii.eqb d c); [done|]. rewrite IH.
    destruct (strchr s c) as [i|]; [|done].
    change (S i <? S n) with (i <? n). by destruct (i <? n).
Qed.

Lemma strchr_stake_None n s c :
  (match strchr s c with Some i => n ≤ i | None => True end) →
  strchr (stake n s) c = None.
Proof.
  rewrite strchr_stake. destruct (strchr s c) as [i|]; [|done].
  intros Hn. by rewrite (proj2 (Nat.ltb_ge i n)).
Qed.

Lemma strchr_sdrop_None n s c :
  strchr s c = None → strchr (sdrop n s) c = None.
Proof.
  revert n. induction s as [|d s IH]; intros [|n]; simpl; try done.
  destruct (Ascii.eqb d c); [done|].
  destruct (strchr s c) eqn:Hs; [done|]. intros _. by apply IH.
Qed.

Lemma first_is_sdrop s c i : strchr s c = Some i → first_is (sdrop i s) c = true.
Proof.
  revert i. induction s as [|d s IH]; intros i; simpl; [done|].
  destruct (Ascii.eqb d c) eqn:Hd; [by intros [= <-]|].
  destruct (strchr s c) as [j|]; [|done]. intros [= <-]. by apply IH.
Qed.

Lemma first_is_stake n s c :
  first_is s c = true → 0 < n → first_is (stake n s) c = true.
Proof. destruct s, n; simpl; try done. lia. Qed.

End more_string_lemmas.

(** X10.  The buffers of [parse_uri] and [build_cache_key] hold what is
    written to them.  With [MAXLINE] at least 3 (one needs room for ["80"]),
    whatever the request target is, the host name, the port and the path
    [parse_uri] produces are each shorter than [MAXLINE], the size of their
    buffers, and so is the cache key, whatever the target. *)
Theorem parse_uri_fits (MAXLINE : nat) (uri : string) :
  3 ≤ MAXLINE →
  String.length (hostname (parse_uri MAXLINE uri)) < MAXLINE
  ∧ String.length (port (parse_uri MAXLINE uri)) < MAXLINE
  ∧ String.length (path (parse_uri MAXLINE uri)) < MAXLINE
  ∧ (∀ t, String.length (build_cache_key MAXLINE t) < MAXLINE).
Proof.
  intros HM. unfold parse_uri, build_cache_key.
  set (p := if starts_with_icase uri "http://" then sdrop 7 uri else uri).
  split; [|split; [|split]].
  - destruct (first_is p "/"); [simpl; lia|].
    destruct (strchr p "/") as [i|];
      match goal with |- context [strchr ?hp ":"] =>
        destruct (strchr hp ":") as [j|] end;
      cbn [hostname]; rewrite length_stake;
      try destruct (Nat.leb_spec MAXLINE j); lia.
  - destruct (first_is p "/"); [simpl; lia|].
    destruct (strchr p "/") as [i|];
      match goal with |- context [strchr ?hp ":"] =>
        destruct (strchr hp ":") as [j|] end;
      cbn [port]; try rewrite length_stake; simpl; lia.
  - destruct (first_is p "/"); [cbn [path]; rewrite length_stake; lia|].
    destruct (strchr p "/") as [i|];
      match goal with |- context [strchr ?hp ":"] =>
        destruct (strchr hp ":") as [j|] end;
      cbn [path]; try rewrite length_stake; simpl; lia.
  - intros t. rewrite length_stake. lia.
Qed.

(** X11.  The shape of what [parse_uri] produces, whatever the request
    target is (and [MAXLINE] at least 2): the host name has no colon and no
    slash, the port has no slash, and the path begins with a slash. *)
Theorem parse_uri_shape (MAXLINE : nat) (uri : string) :
  2 ≤ MAXLINE →
  well_formed (parse_uri MAXLINE uri)
  ∧ strchr (hostname (parse_uri MAXLINE uri)) "/" = None.
Proof.
  intros HM. unfold well_formed, parse_uri.
  set (p := if starts_with_icase uri "http://" then sdrop 7 uri else uri).
  destruct (first_is p "/") eqn:Hfirst.
  { cbn [hostname port path]. split; [split; [done|split; [done|]]|done].
    apply first_is_stake; [done|lia]. }
  assert (∀ hostport pa,
    strchr hostport "/" = None → first_is pa "/" = true →
    let t := match strchr hostport ":" with
             | Some j =>
               mk_target (stake (if MAXLINE <=? j then MAXLINE - 1 else j) hostport)
                 (stake (MAXLINE - 1) (sdrop (S j) hostport)) pa
             | None => mk_target (stake (MAXLINE - 1) hostport) "80" pa
             end in
    (strchr (hostname t) ":" = None ∧ strchr (port t) "/" = None
     ∧ first_is (path t) "/" = true)
    ∧ strchr (hostname t) "/" = None) as Hsplit.
  { intros hostport pa Hslash Hpa. cbn zeta.
    destruct (strchr hostport ":") as [j|] eqn:Hcolon; cbn [hostname port path].
    - split; [split; [|split; [|done]]|].
      + apply strchr_stake_None. rewrite Hcolon.
        destruct (MAXLINE <=? j) eqn:Hj; [|done].
        apply Nat.leb_le in Hj. lia.
      + apply strchr_stake_None. by rewrite strchr_sdrop_None.
      + apply strchr_stake_None. by rewrite Hslash.
    - split; [split; [|done]|].
      + apply strchr_stake_None. by rewrite Hcolon.
      + apply strchr_stake_None. by rewrite Hslash. }
  destruct (strchr p "/") as [i|] eqn:Hslash.
  - apply Hsplit.
    + apply strchr_stake_None. rewrite Hslash.
      destruct (MAXLINE <=? i) eqn:Hi; [|done].
      apply Nat.leb_le in Hi. lia.
    + apply first_is_stake; [by apply first_is_sdrop|lia].
  - apply Hsplit; [|done]. apply strchr_stake_None. by rewrite Hslash.
Qed.

Section key_lemmas.
Implicit Types (s t h r : string) (c : ascii).

Lemma split_unique c h1 : ∀ h2 r1 r2,
  strchr h1 c = None → strchr h2 c = None →
  h1 ++ String c r1 = h2 ++ String c r2 → h1 = h2 ∧ r1 = r2.
Proof.
  induction h1 as [|a h1 IH]; intros [|b h2] r1 r2;
    rewrite ?append_cons, ?append_nil; cbn [strchr].
  - by intros _ _ [= ->].
  - intros _ Hb [= <- _]. by rewrite Ascii.eqb_refl in Hb.
  - intros Ha _ [= -> _]. by rewrite Ascii.eqb_refl in Ha.
  - destruct (Ascii.eqb a c); [done|]. destruct (Ascii.eqb b c); [done|].
    destruct (strchr h1 c) eqn:H1; [done|].
    destruct (strchr h2 c) eqn:H2; [done|].
    intros _ _ [= -> Heq]. destruct (IH h2 r1 r2 eq_refl H2 Heq) as [-> ->]. done.
Qed.

Lemma first_is_cons s c : first_is s c = true → ∃ s', s = String c s'.
Proof.
  destruct s as [|d s]; simpl; [done|].
  intros ->%Ascii.eqb_eq. by eexists.
Qed.

End key_lemmas.

(** X12.  Distinct targets get distinct cache keys.  For two targets of the
    shape [parse_uri] produces (no colon in the host name, no slash in the
    port, a path that begins with a slash) whose keys fit [MAXLINE], so that
    [snprintf] does not cut them: if they differ in the host name, the port
    or the path, [build_cache_key] gives them different keys. *)
Theorem cache_key_injective (MAXLINE : nat) (t1 t2 : target) :
  well_formed t1 → well_formed t2 →
  String.length (hostname t1 ++ ":" ++ port t1 ++ path t1) < MAXLINE →
  String.length (hostname t2 ++ ":" ++ port t2 ++ path t2) < MAXLINE →
  t1 ≠ t2 →
  build_cache_key MAXLINE t1 ≠ build_cache_key MAXLINE t2.
Proof.
  intros (Hh1 & Hp1 & Hs1) (Hh2 & Hp2 & Hs2) Hl1 Hl2 Hne Hkey.
  apply Hne. unfold build_cache_key in Hkey.
  rewrite !stake_all in Hkey by lia.
  destruct t1 as [h1 p1 a1], t2 as [h2 p2 a2]. cbn [hostname port path] in *.
  rewrite !(append_cons ":" "") , !append_nil in Hkey.
  destruct (split_unique _ _ _ _ _ Hh1 Hh2 Hkey) as [-> Hrest].
  destruct (first_is_cons _ _ Hs1) as [a1' ->].
  destruct (first_is_cons _ _ Hs2) as [a2' ->].
  destruct (split_unique _ _ _ _ _ Hp1 Hp2 Hrest) as [-> ->]. done.
Qed.

Lemma cache_key_injective_witness :
  well_formed (mk_target "a.com" "80" "/x")
  ∧ well_formed (mk_target "a.com" "8080" "/x")
  ∧ String.length ("a.com" ++ ":" ++ "80" ++ "/x") < csapp_MAXLINE
  ∧ String.length ("a.com" ++ ":" ++ "8080" ++ "/x") < csapp_MAXLINE
  ∧ mk_target "a.com" "80" "/x" ≠ mk_target "a.com" "8080" "/x"
  ∧ build_cache_key csapp_MAXLINE (mk_target "a.com" "80" "/x")
    ≠ build_cache_key csapp_MAXLINE (mk_target "a.com" "8080" "/x").
Proof.
  assert (well_formed (mk_target "a.com" "80" "/x")) as W1
    by (split; [|split]; reflexivity).
  assert (well_formed (mk_target "a.com" "8080" "/x")) as W2
    by (split; [|split]; reflexivity).
  assert (String.length ("a.com" ++ ":" ++ "80" ++ "/x") < csapp_MAXLINE) as L1
    by (apply Nat.ltb_lt; vm_compute; reflexivity).
  assert (String.length ("a.com" ++ ":" ++ "8080" ++ "/x") < csapp_MAXLINE) as L2
    by (apply Nat.ltb_lt; vm_compute; reflexivity).
  assert (mk_target "a.com" "80" "/x" ≠ mk_target "a.com" "8080" "/x") as N
    by discriminate.
  split; [exact W1|]. split; [exact W2|]. split; [exact L1|].
  split; [exact L2|]. split; [exact N|].
  exact (cache_key_injective csapp_MAXLINE _ _ W1 W2 L1 L2 N).
Defined.

(** X13.  A request target without a port gets port 80.  For every target
    [scheme ++ h ++ pa] that fits the line buffer, where [scheme] is
    ["http://"] in any case or absent, [h] has no colon and no slash, and
    [pa] is empty or begins with a slash: the host name is [h], the port is
    ["80"], the path is [pa], or [/] when there is none.  With [h] empty this
    is the relative target, which leaves the host name empty. *)
Theorem no_port_default (MAXLINE : nat) (scheme h pa : string) :
  (strcasecmp_eq scheme "http://" = true
   ∨ (scheme = "" ∧ starts_with_icase (h ++ pa) "http://" = false)) →
  strchr h ":" = None → strchr h "/" = None →
  (pa = "" ∨ first_is pa "/" = true) →
  String.length (h ++ pa) < MAXLINE →
  parse_uri MAXLINE (scheme ++ h ++ pa)
  = mk_target h "80" (match pa with "" => "/" | _ => pa end).
Proof.
  intros Hscheme Hhc Hhs Hpa Hlen. unfold parse_uri.
  assert ((if starts_with_icase (scheme ++ h ++ pa) "http://"
           then sdrop 7 (scheme ++ h ++ pa) else scheme ++ h ++ pa)
          = h ++ pa) as ->.
  { destruct Hscheme as [Hs|[-> Hs]].
    - destruct (strcasecmp_eq_prefix scheme "http://" (h ++ pa) Hs)
        as [-> Hl].
      change 7 with (String.length "http://"). rewrite <- Hl.
      apply sdrop_app_length.
    - by rewrite !append_nil, Hs. }
  rewrite length_app in Hlen.
  destruct h as [|c h].
  - rewrite append_nil. destruct Hpa as [->|Hpa].
    + simpl. by destruct MAXLINE as [|[|?]].
    + rewrite Hpa. simpl in Hlen. rewrite stake_all by lia. by destruct pa.
  - assert (first_is (String c h ++ pa) "/" = false) as ->.
    { rewrite first_is_app. by apply strchr_None_first. }
    destruct Hpa as [->|Hpa].
    + rewrite app_empty_r, Hhs. simpl in Hlen.
      rewrite stake_all by (simpl; lia). rewrite Hhc.
      rewrite stake_all by (simpl; lia). done.
    + rewrite strchr_app_None, (strchr_first _ _ Hpa) by done.
      cbn [fmap option_fmap option_map]. rewrite Nat.add_0_r.
      rewrite (proj2 (Nat.leb_gt _ _)) by lia.
      rewrite stake_app_length, sdrop_app_length.
      rewrite (stake_all _ pa) by lia. rewrite Hhc.
      rewrite stake_all by lia. by destruct pa.
Qed.

Lemma no_port_default_witness :
  (strcasecmp_eq "Http://" "http://" = true
   ∨ ("Http://" = "" ∧ starts_with_icase ("a.com" ++ "/x") "http://" = false))
  ∧ strchr "a.com" ":" = None ∧ strchr "a.com" "/" = None
  ∧ ("/x" = "" ∨ first_is "/x" "/" = true)
  ∧ String.length ("a.com" ++ "/x") < csapp_MAXLINE
  ∧ parse_uri csapp_MAXLINE ("Http://" ++ "a.com" ++ "/x")
    = mk_target "a.com" "80" "/x".
Proof.
  assert (String.length ("a.com" ++ "/x") < csapp_MAXLINE) as H
    by (apply Nat.ltb_lt; vm_compute; reflexivity).
  split; [left; reflexivity|]. split; [reflexivity|]. split; [reflexivity|].
  split; [right; reflexivity|]. split; [exact H|].
  apply (no_port_default csapp_MAXLINE "Http://" "a.com" "/x");
    first [reflexivity | exact H | left; reflexivity | right; reflexivity].
Defined.

Section host_lemmas.
Implicit Types (s t b w : string) (c : ascii) (f : ascii → bool).

Lemma match_nonempty {A} s (x y : A) :
  s ≠ "" → match s with "" => x | String _ _ => y end = y.
Proof. by destruct s. Qed.

Lemma app_nonempty s b t : b ≠ "" → s ++ b ++ t ≠ "".
Proof.
  intros Hb Heq. apply (f_equal String.length) in Heq.
  rewrite !length_app in Heq. destruct b; [done|]. simpl in Heq. lia.
Qed.

Lemma first_is_space_app b w :
  b ≠ "" → first_is_space (b ++ w) = first_is_space b.
Proof. by destruct b. Qed.

Lemma skip_space_app w s :
  all_space w = true → first_is_space s = false →
  skip_while isspace (w ++ s) = s.
Proof.
  intros Hw Hs. induction w as [|c w IH].
  - rewrite append_nil. destruct s as [|d s]; [done|].
    simpl in *. by rewrite Hs.
  - rewrite append_cons. simpl in *. apply andb_prop in Hw as [-> Hw].
    by apply IH.
Qed.

Lemma blank_isspace c :
  Ascii.eqb c " " || Ascii.eqb c TAB = true → isspace c = true.
Proof.
  intros [->%Ascii.eqb_eq| ->%Ascii.eqb_eq]%orb_prop; reflexivity.
Qed.

Lemma skip_blank_id s :
  first_is_space s = false →
  skip_while (λ c, Ascii.eqb c " " || Ascii.eqb c TAB) s = s.
Proof.
  destruct s as [|c s]; [done|]. simpl. intros Hc.
  destruct (Ascii.eqb c " " || Ascii.eqb c TAB) eqn:Hb; [|done].
  apply blank_isspace in Hb. congruence.
Qed.

Lemma all_space_stake n w : all_space w = true → all_space (stake n w) = true.
Proof.
  revert n. induction w as [|c w IH]; intros [|n]; simpl; try done.
  intros [-> Hw]%andb_prop. by apply IH.
Qed.

Lemma trim_isspace c :
  Ascii.eqb c CR || Ascii.eqb c LF || isspace c = isspace c.
Proof.
  destruct (isspace c) eqn:Hc; [apply orb_true_r|].
  rewrite orb_false_r.
  destruct (Ascii.eqb c CR) eqn:H1; [apply Ascii.eqb_eq in H1; by subst|].
  destruct (Ascii.eqb c LF) eqn:H2; [apply Ascii.eqb_eq in H2; by subst|].
  done.
Qed.

Lemma trim_end_all f w :
  (∀ c, f c = isspace c) → all_space w = true → trim_end f w = "".
Proof.
  intros Hf. induction w as [|c w IH]; simpl; [done|].
  intros [Hc Hw]%andb_prop. by rewrite IH, Hf, Hc.
Qed.

Lemma trim_end_keep f b :
  (∀ c, f c = isspace c) → last_is_space b = false → trim_end f b = b.
Proof.
  intros Hf. induction b as [|c b IH]; [done|].
  destruct b as [|d b].
  - simpl. intros Hc. by rewrite Hf, Hc.
  - intros Hl. change (last_is_space (String c (String d b)))
      with (last_is_space (String d b)) in Hl.
    change (trim_end f (String c (String d b)))
      with (match trim_end f (String d b) with
            | "" => if f c then "" else String c ""
            | r => String c r
            end).
    by rewrite IH.
Qed.

Lemma trim_end_app f b w :
  trim_end f w = "" → trim_end f (b ++ w) = trim_end f b.
Proof.
  intros Hw. induction b as [|c b IH]; [by rewrite append_nil|].
  rewrite append_cons. simpl. by rewrite IH.
Qed.

Lemma split_first_colon_strchr b :
  HttpSpec.split_first_colon b
  = match strchr b ":" with
    | Some j => (stake j b, Some (sdrop (S j) b))
    | None => (b, None)
    end.
Proof.
  induction b as [|c b IH]; [done|]. cbn [HttpSpec.split_first_colon strchr].
  destruct (Ascii.eqb c ":"); [done|]. rewrite IH.
  by destruct (strchr b ":").
Qed.

(** A [Host] value of white space only leaves the target as it is. *)
Lemma normalize_blank (MAXLINE : nat) w (t : target) :
  all_space w = true → normalize_host_from_header MAXLINE w t = t.
Proof.
  intros Hw. unfold normalize_host_from_header. destruct w as [|c w]; [done|].
  assert (skip_while isspace (String c w) = "") as ->;
    [|by destruct (MAXLINE - 1)].
  revert Hw. generalize (String c w). intros s.
  induction s as [|d s IH]; simpl; [done|].
  intros [-> Hs]%andb_prop. by apply IH.
Qed.

End host_lemmas.

(** X14.  [normalize_host_from_header] on a [Host] value [ws1 ++ b ++ ws2]:
    white space, then a value [b] that neither begins nor ends with white
    space and is shorter than [MAXLINE], then white space (the line
    terminator).  The value is split at its first colon: what precedes it
    is the host name and what follows it the port; without a colon the
    value is the host name and the port stays what it was.  The path is not
    touched. *)
Theorem host_header_split (MAXLINE : nat) (ws1 b ws2 : string) (t : target) :
  all_space ws1 = true → all_space ws2 = true →
  b ≠ "" → first_is_space b = false → last_is_space b = false →
  String.length b < MAXLINE →
  normalize_host_from_header MAXLINE (ws1 ++ b ++ ws2) t
  = match HttpSpec.split_first_colon b with
    | (h, Some pt) => mk_target h pt (path t)
    | (h, None) => mk_target h (port t) (path t)
    end.
Proof.
  intros Hw1 Hw2 Hb Hfirst Hlast Hlen. unfold normalize_host_from_header.
  rewrite (match_nonempty (ws1 ++ b ++ ws2)) by by apply app_nonempty.
  cbv zeta.
  rewrite skip_space_app by (by rewrite ?first_is_space_app).
  rewrite stake_app by lia.
  set (w := stake (MAXLINE - 1 - String.length b) ws2).
  assert (all_space w = true) as Hw by by apply all_space_stake.
  rewrite skip_blank_id by (by rewrite first_is_space_app).
  rewrite (match_nonempty (b ++ w))
    by (rewrite <- (append_nil (b ++ w)); by apply app_nonempty).
  rewrite trim_end_app by (apply trim_end_all; [apply trim_isspace|done]).
  rewrite trim_end_keep by (apply trim_isspace || done).
  rewrite split_first_colon_strchr.
  destruct (strchr b ":") as [j|] eqn:Hcolon.
  - rewrite (stake_all (MAXLINE - 1) (stake j b)) by (rewrite length_stake; lia).
    rewrite (stake_all (MAXLINE - 1))
      by (pose proof (length_sdrop (S j) b); lia).
    done.
  - by rewrite stake_all by lia.
Qed.

Lemma host_header_split_witness :
  all_space " " = true ∧ all_space CRLF = true
  ∧ "example.com:8080" ≠ ""
  ∧ first_is_space "example.com:8080" = false
  ∧ last_is_space "example.com:8080" = false
  ∧ String.length "example.com:8080" < csapp_MAXLINE
  ∧ normalize_host_from_header csapp_MAXLINE
      (" " ++ "example.com:8080" ++ CRLF) (mk_target "" "80" "/x")
    = match HttpSpec.split_first_colon "example.com:8080" with
      | (h, Some pt) => mk_target h pt (path (mk_target "" "80" "/x"))
      | (h, None) =>
        mk_target h (port (mk_target "" "80" "/x")) (path (mk_target "" "80" "/x"))
      end.
Proof.
  assert (String.length "example.com:8080" < csapp_MAXLINE) as H
    by (apply Nat.ltb_lt; vm_compute; reflexivity).
  split; [reflexivity|]. split; [reflexivity|]. split; [discriminate|].
  split; [reflexivity|]. split; [reflexivity|]. split; [exact H|].
  apply (host_header_split csapp_MAXLINE " " "example.com:8080" CRLF);
    first [reflexivity | exact H | discriminate].
Defined.

Section header_loop.
Implicit Types (lines : list string).

(** The loop of [read_request_headers], whatever the lines are and whether
    they fit or not. *)
Lemma read_headers_loop_general other_sz host_sz lines : ∀ other_hdrs host_hdr,
  ∃ forwarded,
    read_headers_loop other_sz host_sz lines other_hdrs host_hdr
    = (other_hdrs ++ HttpSpec.sconcat forwarded,
       match last (filter (λ l, is_host l = true) (HttpSpec.header_block lines)) with
       | Some l => stake (host_sz - 1) (sdrop 5 l)
       | None => host_hdr
       end,
       after_block lines)
    ∧ sublist forwarded (HttpSpec.kept (HttpSpec.header_block lines))
    ∧ (String.length other_hdrs < other_sz →
       String.length (other_hdrs ++ HttpSpec.sconcat forwarded) < other_sz).
Proof.
  induction lines as [|buf lines IH]; intros other_hdrs host_hdr.
  - exists []. simpl. rewrite app_empty_r. done.
  - cbn [read_headers_loop HttpSpec.header_block after_block].
    destruct (String.eqb buf CRLF).
    { exists []. simpl. rewrite app_empty_r. split; [done|].
      split; [apply sublist_nil_l|done]. }
    unfold HttpSpec.kept in *.
    destruct (is_host buf) eqn:Hh.
    { rewrite (filter_cons_False (λ l, is_host l || is_overridden l = false))
        by (simpl; rewrite Hh; done).
      rewrite filter_cons_True by done.
      destruct (IH other_hdrs (stake (host_sz - 1) (sdrop 5 buf)))
        as (fw & -> & Hsub & Hfit).
      exists fw. split; [|done]. rewrite last_cons.
      by destruct (last (filter (λ l, is_host l = true)
                           (HttpSpec.header_block lines))). }
    rewrite (filter_cons_False (λ l, is_host l = true)) by (by rewrite Hh).
    destruct (is_overridden buf) eqn:Ho.
    { rewrite (filter_cons_False (λ l, is_host l || is_overridden l = false))
        by (simpl; rewrite Hh, Ho; done).
      apply IH. }
    rewrite (filter_cons_True (λ l, is_host l || is_overridden l = false))
      by (simpl; rewrite Hh, Ho; done).
    destruct (String.length other_hdrs + String.length buf + 1 <? other_sz)
      eqn:Hroom.
    + apply Nat.ltb_lt in Hroom.
      destruct (IH (other_hdrs ++ buf) host_hdr) as (fw & -> & Hsub & Hfit).
      exists (buf :: fw). cbn [HttpSpec.sconcat foldr].
      fold (HttpSpec.sconcat fw). rewrite <- app_assoc.
      split; [done|]. split; [by apply sublist_skip|].
      intros _. apply Hfit. rewrite length_app. lia.
    + destruct (IH other_hdrs host_hdr) as (fw & -> & Hsub & Hfit).
      exists fw. split; [done|]. split; [by apply sublist_cons|done].
Qed.

End header_loop.

(** X15.  [read_request_headers] on any input, for buffers of any size but
    0.  The forwarded headers are whole lines: a selection, in their order,
    of the lines of the block that are neither captured nor overridden (a
    line that finds no room is left out as a whole), and they fit their
    buffer.  The host header is the value of the last [Host] line of the
    block, cut to its buffer, whether the other lines fit or not.  Reading
    stops after the empty line. *)
Theorem headers_fit_whole_lines (other_sz host_sz : nat) (lines : list string) :
  0 < other_sz → 0 < host_sz →
  ∃ forwarded,
    read_request_headers other_sz host_sz lines
    = (HttpSpec.sconcat forwarded,
       stake (host_sz - 1) (HttpSpec.host_value (HttpSpec.header_block lines)),
       after_block lines)
    ∧ sublist forwarded (HttpSpec.kept (HttpSpec.header_block lines))
    ∧ String.length (HttpSpec.sconcat forwarded) < other_sz
    ∧ String.length
        (stake (host_sz - 1) (HttpSpec.host_value (HttpSpec.header_block lines)))
      < host_sz.
Proof.
  intros Ho Hh. unfold read_request_headers.
  destruct (read_headers_loop_general other_sz host_sz lines "" "")
    as (fw & -> & Hsub & Hfit).
  exists fw. rewrite append_nil in *. split; [|split; [done|split]].
  - f_equal. f_equal. unfold HttpSpec.host_value.
    destruct (last _); [done|]. by destruct (host_sz - 1).
  - apply Hfit. simpl. lia.
  - rewrite length_stake. lia.
Qed.

Lemma headers_fit_whole_lines_witness :
  0 < 40 ∧ 0 < 8
  ∧ ∃ forwarded,
      read_request_headers 40 8
        ["Accept: text/html" ++ CRLF; "Host: example.com" ++ CRLF;
         "Accept-Language: en" ++ CRLF; "X-A: 1" ++ CRLF; CRLF; "body"]
      = (HttpSpec.sconcat forwarded,
         stake (8 - 1)
           (HttpSpec.host_value
              (HttpSpec.header_block
                 ["Accept: text/html" ++ CRLF; "Host: example.com" ++ CRLF;
                  "Accept-Language: en" ++ CRLF; "X-A: 1" ++ CRLF; CRLF;
                  "body"])),
         after_block
           ["Accept: text/html" ++ CRLF; "Host: example.com" ++ CRLF;
            "Accept-Language: en" ++ CRLF; "X-A: 1" ++ CRLF; CRLF; "body"])
      ∧ sublist forwarded
          (HttpSpec.kept
             (HttpSpec.header_block
                ["Accept: text/html" ++ CRLF; "Host: example.com" ++ CRLF;
                 "Accept-Language: en" ++ CRLF; "X-A: 1" ++ CRLF; CRLF;
                 "body"]))
      ∧ String.length (HttpSpec.sconcat forwarded) < 40
      ∧ String.length
          (stake (8 - 1)
             (HttpSpec.host_value
                (HttpSpec.header_block
                   ["Accept: text/html" ++ CRLF; "Host: example.com" ++ CRLF;
                    "Accept-Language: en" ++ CRLF; "X-A: 1" ++ CRLF; CRLF;
                    "body"])))
        < 8.
Proof.
  split; [lia|]. split; [lia|]. apply headers_fit_whole_lines; lia.
Defined.

(** The same input, computed: the third header finds no room in a buffer of
    40 bytes and is left out, the fourth is forwarded; the host value is cut
    to the 7 characters its buffer of 8 bytes holds. *)
Example headers_small_buffers :
  read_request_headers 40 8
    ["Accept: text/html" ++ CRLF; "Host: example.com" ++ CRLF;
     "Accept-Language: en" ++ CRLF; "X-A: 1" ++ CRLF; CRLF; "body"]
  = ("Accept: text/html" ++ CRLF ++ "X-A: 1" ++ CRLF, " exampl", ["body"]).
Proof. vm_compute. reflexivity. Qed.


(** *** The bounds and the shape on a long request target

    With [MAXLINE] 8, a long target is cut to fit: the host and port
    segment to 7 characters before it is split, then the path. *)

Lemma parse_uri_fits_witness :
  3 ≤ 8
  ∧ String.length (hostname (parse_uri 8 "http://a.com:8080/index.html")) < 8
  ∧ String.length (port (parse_uri 8 "http://a.com:8080/index.html")) < 8
  ∧ String.length (path (parse_uri 8 "http://a.com:8080/index.html")) < 8
  ∧ (∀ t, String.length (build_cache_key 8 t) < 8).
Proof. split; [lia|]. apply parse_uri_fits. lia. Defined.

Lemma parse_uri_shape_witness :
  2 ≤ 8
  ∧ well_formed (parse_uri 8 "http://a.com:8080/index.html")
  ∧ strchr (hostname (parse_uri 8 "http://a.com:8080/index.html")) "/" = None.
Proof. split; [lia|]. apply parse_uri_shape. lia. Defined.

Example parse_uri_cut :
  parse_uri 8 "http://a.com:8080/index.html" = mk_target "a.com" "8" "/index."
  ∧ parse_uri 8 "averylonghostname.example.com/x" = mk_target "averylo" "80" "/x".
Proof. split; vm_compute; reflexivity. Qed.

End HttpExtra.
(** * Further properties of the request handler *)

Module ProxyExtra.
Import Http HttpMore Proxy ProxyMore HttpProofs HttpExtra.
Import Cache CacheMore CacheProofs CacheExtra.

Section relay_lemmas.
Implicit Types (chunks : list (list byte)) (buf : list byte).

Local Open Scope Z_scope.

Lemma len_app (a b : list byte) : len (a ++ b) = len a + len b.
Proof. unfold len. rewrite List.length_app. lia. Qed.

Lemma relay_uncacheable chunks : ∀ buf sz,
  relay chunks buf sz false = (Client_write <$> received chunks, buf, sz, false).
Proof.
  induction chunks as [|[|b0 b] chunks IH]; intros buf sz; [done..|].
  cbn [relay received]. by rewrite IH.
Qed.

Lemma relay_cacheable chunks : ∀ buf,
  len buf <= MAX_OBJECT_SIZE →
  ∃ objbuf cacheable,
    relay chunks buf (len buf) true
    = (Client_write <$> received chunks, objbuf, len objbuf, cacheable)
    ∧ (cacheable = true ↔ len (buf ++ concat (received chunks)) <= MAX_OBJECT_SIZE)
    ∧ (cacheable = true → objbuf = buf ++ concat (received chunks))
    ∧ len objbuf <= MAX_OBJECT_SIZE.
Proof.
  induction chunks as [|[|b0 b] chunks IH]; intros buf Hbuf.
  - exists buf, true. simpl. rewrite app_nil_r. done.
  - exists buf, true. simpl. rewrite app_nil_r. done.
  - cbn [relay received concat]. set (c := b0 :: b).
    destruct (decide (len buf + len c <= MAX_OBJECT_SIZE)) as [Hle|Hgt].
    + assert (wrap_int (len buf + len c) = len (buf ++ c)) as ->.
      { rewrite len_app. apply wrap_int_id. unfold in_int, len in *.
        unfold MAX_OBJECT_SIZE in *. lia. }
      destruct (IH (buf ++ c)) as (objbuf & cacheable & -> & Hc & Hb & Hl).
      { by rewrite len_app. }
      exists objbuf, cacheable. rewrite <- !(assoc_L (++)) in *. done.
    + rewrite relay_uncacheable. exists buf, false.
      split; [done|]. split; [|done]. split; [done|].
      rewrite !len_app. unfold len in *. lia.
Qed.

End relay_lemmas.

(** X17.  The relay loop, lines 382-392, on whatever the origin server
    sends.  Every read is written to the client, as it is and in order, up
    to the first read that returns 0.  The object stays cacheable exactly
    when all that was received is at most [MAX_OBJECT_SIZE] bytes long, and
    [objbuf] then holds all of it.  In every case [objsize] is the number of
    bytes in [objbuf] and is at most [MAX_OBJECT_SIZE]: the buffer does not
    overflow and the [int] does not wrap. *)
Theorem relay_spec (chunks : list (list byte)) :
  ∃ objbuf cacheable,
    relay chunks [] 0 true
    = (Client_write <$> received chunks, objbuf, len objbuf, cacheable)
    ∧ (cacheable = true ↔ len (concat (received chunks)) <= MAX_OBJECT_SIZE)
    ∧ (cacheable = true → objbuf = concat (received chunks))
    ∧ len objbuf <= MAX_OBJECT_SIZE.
Proof. by apply (relay_cacheable chunks []). Qed.

Section request_lemmas.

Local Open Scope string_scope.
Local Open Scope nat_scope.

Lemma stake_app_ge n (s t : string) :
  n ≤ String.length s → stake n (s ++ t) = stake n s.
Proof.
  revert n. induction s as [|c s IH]; intros [|n] Hn; simpl in Hn;
    rewrite ?append_cons, ?append_nil; try done; try lia.
  cbn [stake]. rewrite IH by lia. done.
Qed.

(** Appending to a buffer that holds a text cut to the buffer gives the
    longer text cut to the buffer. *)
Lemma sappend_stake cap (s new : string) :
  sappend cap (stake (cap - 1) s) new = stake (cap - 1) (s ++ new).
Proof.
  unfold sappend. destruct (decide (String.length s ≤ cap - 1)) as [Hle|Hgt].
  - rewrite (stake_all _ s) by done. rewrite stake_app by done.
    f_equal. f_equal. lia.
  - rewrite stake_app_ge by lia. rewrite length_stake.
    replace (cap - (cap - 1) `min` String.length s - 1) with 0 by lia.
    destruct new; simpl; by rewrite app_empty_r.
Qed.

Lemma REQUEST_HDRS_SIZE_pos : 0 < REQUEST_HDRS_SIZE.
Proof. apply Nat.ltb_lt. vm_compute. reflexivity. Qed.

End request_lemmas.

(** X18.  The request sent to the origin server.  The chain of [snprintf]
    and [strncat] of lines 353-371 leaves in [request_hdrs] the full request
    cut to the 40959 characters the buffer holds, and the full request
    itself when it fits: the request line [GET path HTTP/1.0]; a [Host]
    header with the host name, followed by the port unless the port is
    ["80"]; the fixed [User-Agent], [Connection: close] and
    [Proxy-Connection: close] headers; the forwarded headers; the empty
    line. *)
Theorem build_request_spec (t : target) (other_hdrs : string) :
  build_request t other_hdrs
  = stake (REQUEST_HDRS_SIZE - 1) (request_text t other_hdrs)
  ∧ (String.length (build_request t other_hdrs) < REQUEST_HDRS_SIZE)%nat
  ∧ ((String.length (request_text t other_hdrs) < REQUEST_HDRS_SIZE)%nat →
     build_request t other_hdrs = request_text t other_hdrs).
Proof.
  assert (build_request t other_hdrs
          = stake (REQUEST_HDRS_SIZE - 1) (request_text t other_hdrs)) as Heq.
  { unfold build_request, request_text. cbv zeta.
    generalize REQUEST_HDRS_SIZE. intros cap.
    destruct (String.eqb (port t) "80").
    - destruct (String.eqb other_hdrs "") eqn:Ho.
      + apply String.eqb_eq in Ho. subst other_hdrs.
        rewrite !sappend_stake, !app_assoc. done.
      + rewrite !sappend_stake, !app_assoc. done.
    - destruct (String.eqb other_hdrs "") eqn:Ho.
      + apply String.eqb_eq in Ho. subst other_hdrs.
        rewrite !sappend_stake, !app_assoc. done.
      + rewrite !sappend_stake, !app_assoc. done. }
  pose proof REQUEST_HDRS_SIZE_pos as Hpos.
  split; [done|]. split.
  - rewrite Heq, length_stake. lia.
  - intros Hfit. rewrite Heq. apply stake_all. lia.
Qed.

Lemma build_request_spec_witness :
  build_request (mk_target "example.com" "8080" "/a") ("Accept: */*" ++ CRLF)
  = stake (REQUEST_HDRS_SIZE - 1)
      (request_text (mk_target "example.com" "8080" "/a") ("Accept: */*" ++ CRLF))
  ∧ (String.length
       (build_request (mk_target "example.com" "8080" "/a") ("Accept: */*" ++ CRLF))
     < REQUEST_HDRS_SIZE)%nat
  ∧ ((String.length
        (request_text (mk_target "example.com" "8080" "/a") ("Accept: */*" ++ CRLF))
      < REQUEST_HDRS_SIZE)%nat →
     build_request (mk_target "example.com" "8080" "/a") ("Accept: */*" ++ CRLF)
     = request_text (mk_target "example.com" "8080" "/a") ("Accept: */*" ++ CRLF)).
Proof. apply build_request_spec. Defined.

Section handler_lemmas.

Variable MAXLINE : nat.
Implicit Types (connect : string → string → option (list (list byte))).
Implicit Types (cache : state) (al : list aentry) (t : target).

Local Open Scope Z_scope.

(** [forward_request] is its two halves, one after the other. *)
Lemma forward_request_split connect client cache :
  forward_request MAXLINE connect client cache
  = match request_target MAXLINE client with
    | None => Some ([], cache)
    | Some (t, other_hdrs) => serve_target MAXLINE connect t other_hdrs cache
    end.
Proof.
  unfold forward_request, request_target, serve_target.
  destruct client as [|buf client]; [done|].
  destruct (sscanf3 buf) as [[[m u] v]|]; [|done].
  destruct (negb _); [done|].
  destruct (read_request_headers _ _ _) as [[oh hh] rest].
  destruct (String.eqb (hostname (parse_uri MAXLINE u)) "");
    by destruct (String.eqb (hostname _) "").
Qed.

Lemma inv_set_bufs cache al b :
  inv cache al → (∀ a, a ∈ al → b !! adata a = bufs cache !! adata a) →
  inv (set_bufs b cache) al.
Proof.
  intros Hi Hb. constructor.
  - apply rep_set_bufs; [apply (inv_rep _ _ Hi)|done].
  - apply (inv_keys _ _ Hi).
  - apply (inv_sizes _ _ Hi).
  - apply (inv_bytes _ _ Hi).
  - apply (inv_bound _ _ Hi).
Qed.

(** The second half on a hit: the copy is written to the client and freed. *)
Lemma serve_target_hit connect t other_hdrs cache al a :
  inv cache al → l_find (build_cache_key MAXLINE t) al = Some a →
  ∃ cache',
    serve_target MAXLINE connect t other_hdrs cache
    = Some ([Cache_lookup (build_cache_key MAXLINE t); Client_write (abytes a)],
            cache')
    ∧ inv cache' (a :: l_remove_key (build_cache_key MAXLINE t) al)
    ∧ bufs cache' = bufs cache
    ∧ cache_bytes cache' = cache_bytes cache.
Proof.
  intros Hi Hf. unfold serve_target. cbv zeta.
  set (key := build_cache_key MAXLINE t) in *.
  destruct (cache_get_copy_hit cache al key a Hi Hf) as (s1 & Hs1 & Hi1 & Hb1).
  rewrite Hs1. cbn [mbind option_bind].
  set (c := fresh (dom (bufs cache))) in *.
  assert (bufs cache !! c = None) as Hc by apply not_elem_of_dom, is_fresh.
  rewrite Hb1, lookup_insert_eq. cbn [mbind option_bind].
  destruct (inv_sizes _ _ Hi1 a) as [_ Hlen]; [by left|].
  rewrite <- Hlen, read_bytes_all. cbn [mbind option_bind].
  unfold free_buf. rewrite Hb1, lookup_insert_eq. cbn [mbind option_bind].
  rewrite delete_insert_id by done.
  eexists. split; [reflexivity|]. split; [|split].
  - apply inv_set_bufs; [done|]. intros b Hb. rewrite Hb1.
    rewrite lookup_insert_ne; [done|]. intros Heq.
    pose proof (rep_buf _ _ (inv_rep _ _ Hi1) b Hb) as Hbb.
    rewrite Hb1, <- Heq, lookup_insert_eq in Hbb.
    destruct (l_find_Some _ _ _ Hf) as (al1 & al2 & Hal & _ & _ & Hrm).
    assert (b ∈ al) as Hbal.
    { rewrite Hrm in Hb. rewrite Hal.
      apply elem_of_cons in Hb as [->|Hb]; [apply elem_of_middle|].
      by apply elem_of_app_cons_weaken. }
    pose proof (rep_buf _ _ (inv_rep _ _ Hi) b Hbal) as Hbb'.
    rewrite <- Heq in Hbb'. congruence.
  - done.
  - cbn [cache_bytes set_bufs].
    rewrite (inv_bytes _ _ Hi1), (inv_bytes _ _ Hi).
    destruct (l_find_Some _ _ _ Hf) as (al1 & al2 & -> & _ & _ & ->).
    symmetry. apply total_size_middle.
Qed.

(** The second half on a miss. *)
Lemma serve_target_miss connect t other_hdrs cache al :
  inv cache al → l_find (build_cache_key MAXLINE t) al = None →
  serve_target MAXLINE connect t other_hdrs cache
  = match connect (hostname t) (port t) with
    | None =>
      Some ([Cache_lookup (build_cache_key MAXLINE t);
             Connect (hostname t) (port t)], cache)
    | Some chunks =>
      let body := concat (received chunks) in
      let before := [Cache_lookup (build_cache_key MAXLINE t);
                     Connect (hostname t) (port t);
                     Server_write (build_request t other_hdrs)]
                    ++ (Client_write <$> received chunks) in
      if decide (0 < len body <= MAX_OBJECT_SIZE) then
        cache' ← cache_insert (build_cache_key MAXLINE t) body (len body) cache;
        Some (before ++ [Cache_insert (build_cache_key MAXLINE t) (len body);
                         Server_close], cache')
      else Some (before ++ [Server_close], cache)
    end.
Proof.
  intros Hi Hf. unfold serve_target. cbv zeta.
  rewrite (cache_get_copy_miss _ _ _ (inv_rep _ _ Hi) Hf).
  cbn [mbind option_bind].
  destruct (connect (hostname t) (port t)) as [chunks|]; [|done].
  destruct (relay_cacheable chunks []) as (objbuf & cacheable & Hrelay & Hc & Hb & Hl);
    [by vm_compute|].
  change (len []) with 0 in Hrelay. rewrite Hrelay.
  rewrite app_nil_l in Hc, Hb.
  assert (0 <= len (concat (received chunks))) as Hnn by (unfold len; lia).
  destruct cacheable.
  - rewrite Hb by done. cbn [andb].
    destruct (0 <? len (concat (received chunks))) eqn:Hpos.
    + apply Z.ltb_lt in Hpos. rewrite decide_True; [done|].
      split; [done|]. by apply Hc.
    + apply Z.ltb_ge in Hpos. rewrite decide_False; [done|lia].
  - cbn [andb]. rewrite decide_False; [done|].
    intros [_ Hle]. apply Hc in Hle. done.
Qed.

Lemma sound_find cache al k :
  inv cache al → Spec.find k (entries cache) = to_view <$> l_find k al.
Proof.
  intros Hi. rewrite (rep_entries _ _ (inv_rep _ _ Hi)). apply find_to_view.
Qed.

Lemma stray_same_bufs s s' al al' :
  rep s al → rep s' al' → bufs s' = bufs s →
  (∀ c, c ∈ adata <$> al' ↔ c ∈ adata <$> al) →
  stray s' = stray s.
Proof.
  intros Hr Hr' Hb Hal. apply set_eq. intros c.
  rewrite (stray_outside _ _ _ Hr'), (stray_outside _ _ _ Hr).
  unfold outside. by rewrite Hb, Hal.
Qed.

Lemma stray_hit cache cache' al k a :
  inv cache al → l_find k al = Some a →
  inv cache' (a :: l_remove_key k al) → bufs cache' = bufs cache →
  stray cache' = stray cache.
Proof.
  intros Hi Hf Hi' Hb.
  apply (stray_same_bufs _ _ _ _ (inv_rep _ _ Hi) (inv_rep _ _ Hi') Hb).
  destruct (l_find_Some _ _ _ Hf) as (al1 & al2 & -> & _ & _ & ->).
  intros c. rewrite fmap_cons, !fmap_app, fmap_cons.
  rewrite elem_of_cons, !elem_of_app, elem_of_cons. tauto.
Qed.

(** The second half on a miss, when the response is cached. *)
Lemma serve_target_miss_cached connect t other_hdrs cache al chunks :
  inv cache al → l_find (build_cache_key MAXLINE t) al = None →
  connect (hostname t) (port t) = Some chunks →
  0 < len (concat (received chunks)) <= MAX_OBJECT_SIZE →
  ∃ cache' e d,
    serve_target MAXLINE connect t other_hdrs cache
    = Some (([Cache_lookup (build_cache_key MAXLINE t);
              Connect (hostname t) (port t);
              Server_write (build_request t other_hdrs)]
             ++ (Client_write <$> received chunks))
            ++ [Cache_insert (build_cache_key MAXLINE t)
                  (len (concat (received chunks)));
                Server_close], cache')
    ∧ inv cache'
        (mk_a e (build_cache_key MAXLINE t) d (concat (received chunks))
           (len (concat (received chunks)))
         :: l_evict (len (concat (received chunks))) al)
    ∧ stray cache' = stray cache.
Proof.
  intros Hi Hf Hconn Hlen.
  rewrite (serve_target_miss _ _ _ _ _ Hi Hf), Hconn. cbv zeta.
  rewrite decide_True by done.
  destruct (cache_insert_spec cache al (build_cache_key MAXLINE t)
              (concat (received chunks)) (len (concat (received chunks))) Hi)
    as (cache' & e & d & Hs' & Hi' & _); [done|unfold len; lia|].
  cbn zeta in Hi'. unfold len in Hi' at 1. rewrite take_length_all in Hi'.
  destruct (l_find_None _ _ Hf) as [_ Hrm]. rewrite Hrm in Hi'.
  rewrite Hs'. cbn [mbind option_bind]. exists cache', e, d.
  split; [done|]. split; [done|].
  eapply stray_insert; [exact Hi| |exact Hs']. unfold len. lia.
Qed.

(** One connection handled on a cache in its invariant: the handler is
    defined, the invariant holds again, and no buffer has leaked. *)
Lemma forward_request_inv connect client cache al :
  inv cache al →
  ∃ evs cache' al',
    forward_request MAXLINE connect client cache = Some (evs, cache')
    ∧ inv cache' al' ∧ stray cache' = stray cache.
Proof.
  intros Hi. rewrite forward_request_split.
  destruct (request_target MAXLINE client) as [[t oh]|]; [|by exists [], cache, al].
  destruct (l_find (build_cache_key MAXLINE t) al) as [a|] eqn:Hf.
  - destruct (serve_target_hit connect t oh cache al a Hi Hf)
      as (cache' & -> & Hi' & Hb & _).
    eexists _, cache', _. split; [done|]. split; [done|].
    by eapply stray_hit.
  - destruct (connect (hostname t) (port t)) as [chunks|] eqn:Hconn.
    + destruct (decide (0 < len (concat (received chunks)) <= MAX_OBJECT_SIZE))
        as [Hlen|Hlen].
      * destruct (serve_target_miss_cached connect t oh cache al chunks Hi Hf
                    Hconn Hlen) as (cache' & e & d & -> & Hi' & Hst).
        by eexists _, cache', _.
      * rewrite (serve_target_miss _ _ _ _ _ Hi Hf), Hconn. cbv zeta.
        rewrite decide_False by done. by eexists _, cache, al.
    + rewrite (serve_target_miss _ _ _ _ _ Hi Hf), Hconn.
      by eexists _, cache, al.
Qed.

Lemma parse_uri_relative uri :
  first_is uri "/" = true →
  parse_uri MAXLINE uri = mk_target "" "80" (stake (MAXLINE - 1) uri).
Proof.
  destruct uri as [|c u]; [done|]. simpl. intros ->%Ascii.eqb_eq.
  unfold parse_uri.
  change (starts_with_icase (String "/" u) "http://") with false.
  done.
Qed.

Lemma no_leak_intro s al : inv s al → stray s = ∅ → no_leak s.
Proof.
  intros Hi Hst. pose proof (inv_rep _ _ Hi) as Hr. split.
  - intros p. rewrite (dll_cache_list _ _ (rep_dll _ _ Hr)).
    symmetry. apply (dll_dom _ _ (rep_dll _ _ Hr)).
  - intros c. split.
    + intros Hc. destruct (decide (c ∈ owned s)) as [|Hn]; [done|].
      assert (c ∈ stray s) as Hin; [|by rewrite Hst in Hin].
      unfold stray. rewrite elem_of_difference, elem_of_dom, elem_of_list_to_set.
      done.
    + rewrite (rep_owned _ _ Hr). intros (a & -> & Ha)%list_elem_of_fmap.
      rewrite (rep_buf _ _ Hr a Ha). by eexists.
Qed.

Lemma serve_inv conns : ∀ cache al,
  inv cache al →
  ∃ traces cache' al',
    serve MAXLINE conns cache = Some (traces, cache')
    ∧ inv cache' al' ∧ stray cache' = stray cache
    ∧ length traces = length conns
    ∧ Forall (λ evs, last evs = Some Client_close) traces.
Proof.
  induction conns as [|[connect client] conns IH]; intros cache al Hi.
  - exists [], cache, al. done.
  - destruct (forward_request_inv connect client cache al Hi)
      as (evs & cache1 & al1 & Hfw & Hi1 & Hst1).
    destruct (IH cache1 al1 Hi1) as (traces & cache' & al' & Hs & Hi' & Hst' & Hl & Hc).
    exists ((evs ++ [Client_close]) :: traces), cache', al'.
    cbn [serve]. unfold thread_main. rewrite Hfw. cbn [mbind option_bind].
    rewrite Hs. cbn [mbind option_bind]. split; [done|]. split; [done|].
    split; [congruence|]. split; [simpl; by rewrite Hl|].
    apply Forall_cons_2; [apply last_snoc|done].
Qed.

End handler_lemmas.

Section handler.

Variable MAXLINE : nat.
Implicit Types (connect : string → string → option (list (list byte))).
Implicit Types (cache : state) (t : target).

Local Open Scope Z_scope.

(** X19.  A request without a host is dropped.  When the request line has
    three tokens, its target begins with a slash, and the header block has
    no [Host] line, or its last [Host] line has a value of white space only:
    [forward_request] returns with an empty trace, whatever the method is.
    Nothing is written to the client, the cache is not looked up, no server
    is contacted and the cache is the one it was; [thread_main] then only
    closes the connection. *)
Theorem no_host_dropped connect buf rest cache method uri version :
  sscanf3 buf = Some (method, uri, version) →
  first_is uri "/" = true →
  all_space (HttpSpec.host_value (HttpSpec.header_block rest)) = true →
  forward_request MAXLINE connect (buf :: rest) cache = Some ([], cache)
  ∧ thread_main MAXLINE connect (buf :: rest) cache
    = Some ([Client_close], cache).
Proof.
  intros Hscan Huri Hhost.
  assert (forward_request MAXLINE connect (buf :: rest) cache = Some ([], cache))
    as Hfw.
  { rewrite forward_request_split.
    assert (request_target MAXLINE (buf :: rest) = None) as ->; [|done].
    unfold request_target. rewrite Hscan.
    destruct (negb _); [done|].
    rewrite (parse_uri_relative _ _ Huri). unfold read_request_headers.
    destruct (read_headers_loop_general OTHER_HDRS_SIZE MAXLINE rest "" "")
      as (fw & -> & _).
    cbn [hostname]. change (String.eqb "" "") with true. cbv iota.
    rewrite normalize_blank; [done|].
    unfold HttpSpec.host_value in Hhost.
    destruct (last _); [|done]. by apply all_space_stake. }
  split; [done|]. unfold thread_main. by rewrite Hfw.
Qed.

(** X20.  A request whose key is in the cache is served from the cache.
    On a cache in its invariant, when the request resolves to the target
    [t] and the cache has an entry [e] under the key of [t]:
    [forward_request] writes the payload of [e] to the client and nothing
    else, and contacts no server.  The entry becomes the most recently used,
    the copy [cache_get_copy] made is freed (the buffers are as before),
    and [cache_bytes] has not changed. *)
Theorem hit_served_from_cache connect client cache t other_hdrs e :
  sound cache →
  request_target MAXLINE client = Some (t, other_hdrs) →
  Spec.find (build_cache_key MAXLINE t) (entries cache) = Some e →
  ∃ cache',
    forward_request MAXLINE connect client cache
    = Some ([Cache_lookup (build_cache_key MAXLINE t); Client_write (vdata e)],
            cache')
    ∧ entries cache' = e :: Spec.remove (build_cache_key MAXLINE t) (entries cache)
    ∧ bufs cache' = bufs cache
    ∧ cache_bytes cache' = cache_bytes cache
    ∧ sound cache'.
Proof.
  intros [al Hi] Ht Hfind. rewrite forward_request_split, Ht.
  rewrite (sound_find _ _ _ Hi) in Hfind.
  destruct (l_find (build_cache_key MAXLINE t) al) as [a|] eqn:Hf; [|done].
  injection Hfind as <-.
  destruct (serve_target_hit MAXLINE connect t other_hdrs cache al a Hi Hf)
    as (cache' & -> & Hi' & Hb & Hc).
  exists cache'. split; [done|]. split; [|split; [done|split; [done|]]].
  - rewrite (rep_entries _ _ (inv_rep _ _ Hi')).
    rewrite (rep_entries _ _ (inv_rep _ _ Hi)).
    by rewrite remove_to_view, fmap_cons.
  - by eexists.
Qed.

(** X21.  A miss is forwarded and the response relayed.  On a cache in its
    invariant, when the request resolves to [t], the cache has no entry
    under its key, and the connection to the origin server succeeds:
    [forward_request] sends the request of [build_request], writes to the
    client every read of the response in order, and closes the server
    connection.  It calls [cache_insert] exactly when the response is not
    empty and at most [MAX_OBJECT_SIZE] bytes long; the cache afterwards is
    then what the specification says of [insert] with the whole response as
    the payload, and in every case no buffer has leaked. *)
Theorem miss_relayed connect client cache t other_hdrs chunks :
  sound cache →
  request_target MAXLINE client = Some (t, other_hdrs) →
  Spec.find (build_cache_key MAXLINE t) (entries cache) = None →
  connect (hostname t) (port t) = Some chunks →
  ∃ cache',
    forward_request MAXLINE connect client cache
    = Some ([Cache_lookup (build_cache_key MAXLINE t);
             Connect (hostname t) (port t);
             Server_write (build_request t other_hdrs)]
            ++ (Client_write <$> received chunks)
            ++ (if decide (0 < len (concat (received chunks)) <= MAX_OBJECT_SIZE)
                then [Cache_insert (build_cache_key MAXLINE t)
                        (len (concat (received chunks)))]
                else [])
            ++ [Server_close], cache')
    ∧ entries cache'
      = Spec.insert (build_cache_key MAXLINE t) (concat (received chunks))
          (entries cache)
    ∧ (¬ 0 < len (concat (received chunks)) <= MAX_OBJECT_SIZE → cache' = cache)
    ∧ stray cache' = stray cache
    ∧ sound cache'.
Proof.
  intros [al Hi] Ht Hfind Hconn. rewrite forward_request_split, Ht.
  rewrite (sound_find _ _ _ Hi) in Hfind.
  destruct (l_find (build_cache_key MAXLINE t) al) as [a|] eqn:Hf; [done|].
  rewrite (serve_target_miss _ _ _ _ _ _ Hi Hf), Hconn. cbv zeta.
  set (body := concat (received chunks)).
  set (key := build_cache_key MAXLINE t) in *.
  destruct (decide (0 < len body <= MAX_OBJECT_SIZE)) as [Hlen|Hlen].
  - destruct (insert_refines cache al key body Hi) as (cache' & al' & Hs' & Hi' & He').
    unfold insert in Hs'. rewrite Hs'. cbn [mbind option_bind].
    exists cache'. split; [by rewrite <- !(assoc_L (++))|].
    split; [done|]. split; [done|]. split; [|by eexists].
    eapply stray_insert; [exact Hi| |exact Hs']. unfold len. lia.
  - exists cache. split; [by rewrite <- !(assoc_L (++))|].
    split; [|split; [done|split; [done|by eexists]]].
    unfold Spec.insert. rewrite decide_True; [done|].
    unfold len in *. lia.
Qed.

(** X22.  A failed connection.  On a cache in its invariant, when the
    request resolves to [t], the cache has no entry under its key and
    [Open_clientfd] fails: [forward_request] returns after the attempt.
    Nothing is written to the client, and the cache is the one it was;
    [thread_main] then closes the connection. *)
Theorem connect_failure connect client cache t other_hdrs :
  sound cache →
  request_target MAXLINE client = Some (t, other_hdrs) →
  Spec.find (build_cache_key MAXLINE t) (entries cache) = None →
  connect (hostname t) (port t) = None →
  forward_request MAXLINE connect client cache
  = Some ([Cache_lookup (build_cache_key MAXLINE t);
           Connect (hostname t) (port t)], cache)
  ∧ thread_main MAXLINE connect client cache
    = Some ([Cache_lookup (build_cache_key MAXLINE t);
             Connect (hostname t) (port t); Client_close], cache).
Proof.
  intros [al Hi] Ht Hfind Hconn.
  assert (forward_request MAXLINE connect client cache
          = Some ([Cache_lookup (build_cache_key MAXLINE t);
                   Connect (hostname t) (port t)], cache)) as Hfw.
  { rewrite forward_request_split, Ht.
    rewrite (sound_find _ _ _ Hi) in Hfind.
    destruct (l_find (build_cache_key MAXLINE t) al) as [a|] eqn:Hf; [done|].
    by rewrite (serve_target_miss _ _ _ _ _ _ Hi Hf), Hconn. }
  split; [done|]. unfold thread_main. by rewrite Hfw.
Qed.

(** X23.  A response that was cached serves the next request.  On a cache
    in its invariant, when a request misses the cache and the origin server
    answers with a response that is not empty and at most [MAX_OBJECT_SIZE]
    bytes long: the same request again, handled next, is served from the
    cache with exactly the bytes the server sent, whatever the origin
    servers have become; no server is contacted. *)
Theorem second_request_hits connect client cache t other_hdrs chunks :
  sound cache →
  request_target MAXLINE client = Some (t, other_hdrs) →
  Spec.find (build_cache_key MAXLINE t) (entries cache) = None →
  connect (hostname t) (port t) = Some chunks →
  0 < len (concat (received chunks)) <= MAX_OBJECT_SIZE →
  ∃ evs cache1 cache2,
    forward_request MAXLINE connect client cache = Some (evs, cache1)
    ∧ (∀ connect',
         forward_request MAXLINE connect' client cache1
         = Some ([Cache_lookup (build_cache_key MAXLINE t);
                  Client_write (concat (received chunks))], cache2))
    ∧ bufs cache2 = bufs cache1
    ∧ entries cache2 = entries cache1.
Proof.
  intros [al Hi] Ht Hfind Hconn Hlen.
  rewrite (sound_find _ _ _ Hi) in Hfind.
  destruct (l_find (build_cache_key MAXLINE t) al) as [a|] eqn:Hf; [done|].
  destruct (serve_target_miss_cached MAXLINE connect t other_hdrs cache al chunks
              Hi Hf Hconn Hlen) as (cache1 & e & d & Hs1 & Hi1 & _).
  set (key := build_cache_key MAXLINE t) in *.
  set (body := concat (received chunks)) in *.
  set (new := mk_a e key d body (len body)) in *.
  assert (l_find key (new :: l_evict (len body) al) = Some new) as Hf1.
  { cbn [l_find]. by rewrite decide_True. }
  destruct (serve_target_hit MAXLINE connect t other_hdrs cache1 _ new Hi1 Hf1)
    as (cache2 & Hs2 & Hi2 & Hb2 & _).
  eexists _, cache1, cache2. rewrite forward_request_split, Ht.
  split; [exact Hs1|]. split; [|split; [done|]].
  - intros connect'. rewrite forward_request_split, Ht.
    destruct (serve_target_hit MAXLINE connect' t other_hdrs cache1 _ new Hi1 Hf1)
      as (cache2' & Hs2' & _).
    rewrite Hs2'. unfold serve_target in Hs2, Hs2'.
    destruct (cache_get_copy_hit cache1 _ key new Hi1 Hf1)
      as (s & Hs & _).
    fold key in Hs2, Hs2'. rewrite Hs in Hs2, Hs2'.
    cbn [mbind option_bind] in Hs2, Hs2'.
    assert (cache2' = cache2) as -> by congruence. done.
  - rewrite (rep_entries _ _ (inv_rep _ _ Hi2)).
    rewrite (rep_entries _ _ (inv_rep _ _ Hi1)).
    cbn [l_remove_key]. by rewrite decide_True.
Qed.

(** X24.  Connections handled one after the other, from the start of the
    proxy.  Whatever the clients send and whatever the origin servers
    answer: every handler is defined (no freed or unallocated node or
    buffer is used), and every connection is closed, last of all.  In the
    end the allocated nodes are exactly the nodes of the list and the
    allocated buffers exactly the payloads of its entries: nothing has
    leaked and nothing dangles.  [cache_bytes] is the sum of the sizes of
    the entries and at most [MAX_CACHE_SIZE]. *)
Theorem serve_safe
  (conns : list ((string → string → option (list (list byte))) * list string)) :
  ∃ traces cache,
    serve MAXLINE conns init = Some (traces, cache)
    ∧ length traces = length conns
    ∧ Forall (λ evs, last evs = Some Client_close) traces
    ∧ no_leak cache
    ∧ sound cache
    ∧ sum_sizes (entries cache) = cache_bytes cache
    ∧ cache_bytes cache <= MAX_CACHE_SIZE.
Proof.
  destruct (serve_inv MAXLINE conns init [] inv_init)
    as (traces & cache & al & Hs & Hi & Hst & Hl & Hc).
  exists traces, cache. split; [done|]. split; [done|]. split; [done|].
  split; [|split; [by eexists|split]].
  - apply (no_leak_intro _ _ Hi). rewrite Hst. unfold stray. simpl.
    rewrite dom_empty_L. set_solver.
  - rewrite (rep_entries _ _ (inv_rep _ _ Hi)), sum_sizes_to_view.
    symmetry. apply (inv_bytes _ _ Hi).
  - apply (inv_bound _ _ Hi).
Qed.

End handler.

(** *** The properties on the scenario of the examples *)

Section handler_examples.

Local Open Scope string_scope.
Local Open Scope Z_scope.

Lemma demo_sound : sound demo_state.
Proof. exact (reachable_inv _ CacheClaims.demo_reachable). Defined.

Lemma demo_target :
  request_target csapp_MAXLINE demo_request
  = Some (mk_target "example.com" "80" "/", "").
Proof. vm_compute. reflexivity. Defined.

Lemma demo_miss :
  Spec.find (build_cache_key csapp_MAXLINE (mk_target "example.com" "80" "/"))
    (entries demo_state) = None.
Proof. vm_compute. reflexivity. Defined.

Lemma demo_cacheable :
  0 < len (concat (received demo_response)) <= MAX_OBJECT_SIZE.
Proof. split; [reflexivity|]. intros H. vm_compute in H. discriminate. Defined.

Lemma no_host_dropped_witness :
  sscanf3 ("GET /index.html HTTP/1.0" ++ CRLF)
  = Some ("GET", "/index.html", "HTTP/1.0")
  ∧ first_is "/index.html" "/" = true
  ∧ all_space
      (HttpSpec.host_value
         (HttpSpec.header_block ["Accept: */*" ++ CRLF; "Host:  " ++ CRLF; CRLF]))
    = true
  ∧ forward_request csapp_MAXLINE demo_origin
      (("GET /index.html HTTP/1.0" ++ CRLF)
       :: ["Accept: */*" ++ CRLF; "Host:  " ++ CRLF; CRLF]) demo_state
    = Some ([], demo_state)
  ∧ thread_main csapp_MAXLINE demo_origin
      (("GET /index.html HTTP/1.0" ++ CRLF)
       :: ["Accept: */*" ++ CRLF; "Host:  " ++ CRLF; CRLF]) demo_state
    = Some ([Client_close], demo_state).
Proof.
  split; [vm_compute; reflexivity|]. split; [reflexivity|].
  split; [vm_compute; reflexivity|].
  apply (no_host_dropped csapp_MAXLINE demo_origin _ _ demo_state
           "GET" "/index.html" "HTTP/1.0");
    [vm_compute; reflexivity|reflexivity|vm_compute; reflexivity].
Defined.

Lemma hit_served_from_cache_witness :
  sound demo_state
  ∧ request_target csapp_MAXLINE ["GET http://b.com/ HTTP/1.1" ++ CRLF; CRLF]
    = Some (mk_target "b.com" "80" "/", "")
  ∧ Spec.find (build_cache_key csapp_MAXLINE (mk_target "b.com" "80" "/"))
      (entries demo_state)
    = Some (mk_view "b.com:80/" [x44; x45]%byte 2)
  ∧ ∃ cache',
      forward_request csapp_MAXLINE demo_origin
        ["GET http://b.com/ HTTP/1.1" ++ CRLF; CRLF] demo_state
      = Some ([Cache_lookup
                 (build_cache_key csapp_MAXLINE (mk_target "b.com" "80" "/"));
               Client_write (vdata (mk_view "b.com:80/" [x44; x45]%byte 2))],
              cache')
      ∧ entries cache'
        = mk_view "b.com:80/" [x44; x45]%byte 2
          :: Spec.remove
               (build_cache_key csapp_MAXLINE (mk_target "b.com" "80" "/"))
               (entries demo_state)
      ∧ bufs cache' = bufs demo_state
      ∧ cache_bytes cache' = cache_bytes demo_state
      ∧ sound cache'.
Proof.
  assert (request_target csapp_MAXLINE ["GET http://b.com/ HTTP/1.1" ++ CRLF; CRLF]
          = Some (mk_target "b.com" "80" "/", "")) as Ht
    by (vm_compute; reflexivity).
  assert (Spec.find (build_cache_key csapp_MAXLINE (mk_target "b.com" "80" "/"))
            (entries demo_state)
          = Some (mk_view "b.com:80/" [x44; x45]%byte 2)) as Hf
    by (vm_compute; reflexivity).
  split; [exact demo_sound|]. split; [exact Ht|]. split; [exact Hf|].
  exact (hit_served_from_cache csapp_MAXLINE demo_origin _ demo_state _ _ _
           demo_sound Ht Hf).
Defined.

Lemma miss_relayed_witness :
  sound demo_state
  ∧ request_target csapp_MAXLINE demo_request
    = Some (mk_target "example.com" "80" "/", "")
  ∧ Spec.find (build_cache_key csapp_MAXLINE (mk_target "example.com" "80" "/"))
      (entries demo_state) = None
  ∧ demo_origin (hostname (mk_target "example.com" "80" "/"))
      (port (mk_target "example.com" "80" "/")) = Some demo_response
  ∧ ∃ cache',
      forward_request csapp_MAXLINE demo_origin demo_request demo_state
      = Some (([Cache_lookup
                  (build_cache_key csapp_MAXLINE (mk_target "example.com" "80" "/"));
                Connect (hostname (mk_target "example.com" "80" "/"))
                  (port (mk_target "example.com" "80" "/"));
                Server_write (build_request (mk_target "example.com" "80" "/") "")]
               ++ (Client_write <$> received demo_response)
               ++ (if decide (0 < len (concat (received demo_response))
                              <= MAX_OBJECT_SIZE)
                   then [Cache_insert
                           (build_cache_key csapp_MAXLINE
                              (mk_target "example.com" "80" "/"))
                           (len (concat (received demo_response)))]
                   else [])
               ++ [Server_close])%list, cache')
      ∧ entries cache'
        = Spec.insert
            (build_cache_key csapp_MAXLINE (mk_target "example.com" "80" "/"))
            (concat (received demo_response)) (entries demo_state)
      ∧ (¬ 0 < len (concat (received demo_response)) <= MAX_OBJECT_SIZE →
         cache' = demo_state)
      ∧ stray cache' = stray demo_state
      ∧ sound cache'.
Proof.
  split; [exact demo_sound|]. split; [exact demo_target|].
  split; [exact demo_miss|]. split; [reflexivity|].
  exact (miss_relayed csapp_MAXLINE demo_origin demo_request demo_state _ _
           demo_response demo_sound demo_target demo_miss eq_refl).
Defined.

Lemma connect_failure_witness :
  sound demo_state
  ∧ request_target csapp_MAXLINE demo_request
    = Some (mk_target "example.com" "80" "/", "")
  ∧ Spec.find (build_cache_key csapp_MAXLINE (mk_target "example.com" "80" "/"))
      (entries demo_state) = None
  ∧ (λ _ _ : string, @None (list (list byte)))
      (hostname (mk_target "example.com" "80" "/"))
      (port (mk_target "example.com" "80" "/")) = None
  ∧ forward_request csapp_MAXLINE (λ _ _, None) demo_request demo_state
    = Some ([Cache_lookup
               (build_cache_key csapp_MAXLINE (mk_target "example.com" "80" "/"));
             Connect (hostname (mk_target "example.com" "80" "/"))
               (port (mk_target "example.com" "80" "/"))], demo_state)
  ∧ thread_main csapp_MAXLINE (λ _ _, None) demo_request demo_state
    = Some ([Cache_lookup
               (build_cache_key csapp_MAXLINE (mk_target "example.com" "80" "/"));
             Connect (hostname (mk_target "example.com" "80" "/"))
               (port (mk_target "example.com" "80" "/"));
             Client_close], demo_state).
Proof.
  split; [exact demo_sound|]. split; [exact demo_target|].
  split; [exact demo_miss|]. split; [reflexivity|].
  exact (connect_failure csapp_MAXLINE (λ _ _, None) demo_request demo_state _ _
           demo_sound demo_target demo_miss eq_refl).
Defined.

Lemma second_request_hits_witness :
  sound demo_state
  ∧ request_target csapp_MAXLINE demo_request
    = Some (mk_target "example.com" "80" "/", "")
  ∧ Spec.find (build_cache_key csapp_MAXLINE (mk_target "example.com" "80" "/"))
      (entries demo_state) = None
  ∧ demo_origin (hostname (mk_target "example.com" "80" "/"))
      (port (mk_target "example.com" "80" "/")) = Some demo_response
  ∧ 0 < len (concat (received demo_response)) <= MAX_OBJECT_SIZE
  ∧ ∃ evs cache1 cache2,
      forward_request csapp_MAXLINE demo_origin demo_request demo_state
      = Some (evs, cache1)
      ∧ (∀ connect',
           forward_request csapp_MAXLINE connect' demo_request cache1
           = Some ([Cache_lookup
                      (build_cache_key csapp_MAXLINE
                         (mk_target "example.com" "80" "/"));
                    Client_write (concat (received demo_response))], cache2))
      ∧ bufs cache2 = bufs cache1
      ∧ entries cache2 = entries cache1.
Proof.
  split; [exact demo_sound|]. split; [exact demo_target|].
  split; [exact demo_miss|]. split; [reflexivity|].
  split; [exact demo_cacheable|].
  exact (second_request_hits csapp_MAXLINE demo_origin demo_request demo_state
           _ _ demo_response demo_sound demo_target demo_miss eq_refl
           demo_cacheable).
Defined.

End handler_examples.

End ProxyExtra.
